(** * pyginla.numerical_methods: Newton-Krylov kernel with deflation

    A shallow embedding of [pyginla/numerical_methods.py] in exact
    arithmetic.  NumPy's floating point scalars are read as real numbers
    ([R]) and complex scalars as pairs of reals; arrays of shape [N,n] are
    lists of [n] columns.  Python exceptions are values of [result].

    A division by zero yields no number: Python scalars raise
    [ZeroDivisionError], NumPy scalars and arrays produce nan or inf and
    the code goes on.  Arrays here hold numbers only, so a computation
    that divides an array or an iterate by zero ends with [ZeroDivision]
    in the model; the residual norms of [minres] and [gmres], where a nan
    decides how the loop ends, are of type [fl], which has nan and inf. *)

From Stdlib Require Import String.
From Stdlib Require Import Reals Lra Lia List ZArith Psatz Bool.
From Stdlib Require Import Permutation.
Import ListNotations.
Open Scope R_scope.

(** ** Exceptions *)

Inductive exn : Type :=
| ValueError
| ZeroDivision
| LinAlgError.

Inductive result (A : Type) : Type :=
| Ok (a : A)
| Raise (e : exn).

Arguments Ok {A} a.
Arguments Raise {A} e.

Definition bind {A B : Type} (m : result A) (f : A -> result B) : result B :=
  match m with
  | Ok a => f a
  | Raise e => Raise e
  end.

Notation "x <- m ;; k" := (bind m (fun x => k))
  (at level 61, m at next level, right associativity).

(** ** Complex scalars *)

Record C : Type := mkC { Re : R; Im : R }.

Definition C0 : C := mkC 0 0.
Definition C1 : C := mkC 1 0.
Definition RtoC (x : R) : C := mkC x 0.

Definition Cadd (a b : C) : C := mkC (Re a + Re b) (Im a + Im b).
Definition Cneg (a : C) : C := mkC (- Re a) (- Im a).
Definition Csub (a b : C) : C := mkC (Re a - Re b) (Im a - Im b).
Definition Cmul (a b : C) : C :=
  mkC (Re a * Re b - Im a * Im b) (Re a * Im b + Im a * Re b).
Definition Cconj (a : C) : C := mkC (Re a) (- Im a).

(** [abs(z)] of a complex scalar. *)
Definition Cabs (a : C) : R := sqrt (Re a * Re a + Im a * Im a).

(** [z / r] for a real [r].  Division by zero yields no number: Python
    scalars raise [ZeroDivisionError], NumPy scalars produce NaN entries. *)
Definition Cdiv_real (z : C) (r : R) : result C :=
  if Req_dec_T r 0 then Raise ZeroDivision
  else Ok (mkC (Re z / r) (Im z / r)).

Declare Scope C_scope.
Delimit Scope C_scope with C.
Bind Scope C_scope with C.
Infix "+" := Cadd : C_scope.
Infix "-" := Csub : C_scope.
Infix "*" := Cmul : C_scope.
Notation "- x" := (Cneg x) : C_scope.

(** ** Column vectors and arrays *)

(** A column vector of shape [N,1]. *)
Definition vec : Type := list C.

(** An array of shape [N,n], stored as its [n] columns. *)
Definition matrix : Type := list vec.

Fixpoint vdot (x y : vec) : C :=
  match x, y with
  | a :: x', b :: y' => (Cconj a * b + vdot x' y')%C
  | _, _ => C0
  end.

(** [_ipstd(X, Y)[0,0]] for two column vectors: the Euclidean inner
    product, conjugate-linear in the first argument. *)
Definition _ipstd (x y : vec) : C := vdot x y.

(** ** Norms *)

Definition tol_imag : R := 1e-10.

(** [_norm_squared(x, Mx, inner_product)]; [inner_product] is given by its
    value on pairs of column vectors. *)
Definition _norm_squared (inner_product : vec -> vec -> C)
    (x : vec) (Mx : option vec) : result R :=
  let rho :=
    match Mx with
    | None => inner_product x x
    | Some mx => inner_product x mx
    end in
  if Rgt_dec (Rabs (Im rho)) (Cabs rho * tol_imag) then Raise ValueError
  else
    let rho := Re rho in
    if Rlt_dec rho 0 then Raise ValueError
    else Ok rho.

Definition _norm (inner_product : vec -> vec -> C)
    (x : vec) (Mx : option vec) : result R :=
  rho <- _norm_squared inner_product x Mx ;;
  Ok (sqrt rho).

(** The quadratic form [<x, Mx>] (or [<x, x>] when [Mx] is absent). *)
Definition quadratic_form (inner_product : vec -> vec -> C)
    (x : vec) (Mx : option vec) : C :=
  match Mx with
  | None => inner_product x x
  | Some mx => inner_product x mx
  end.

(** ** Givens rotations *)

(** The 2x2 array [[g00, g01], [g10, g11]]. *)
Record mat2 : Type := mkMat2 { g00 : C; g01 : C; g10 : C; g11 : C }.

(** [np.dot(G, [a, b])]. *)
Definition mat2_apply (G : mat2) (ab : C * C) : C * C :=
  ((g00 G * fst ab + g01 G * snd ab)%C, (g10 G * fst ab + g11 G * snd ab)%C).

Definition rotation (c s : C) : mat2 := mkMat2 c s (- Cconj s)%C (Cconj c).

Definition _givens (a b : C) : result mat2 :=
  if Req_dec_T (Cabs b) 0 then
    let r := Cabs a in
    c <- Cdiv_real (Cconj a) r ;;
    let s := C0 in
    Ok (rotation c s)
  else if Req_dec_T (Cabs a) 0 then
    let r := Cabs b in
    let c := C0 in
    s <- Cdiv_real (Cconj b) r ;;
    Ok (rotation c s)
  else if Rgt_dec (Cabs b) (Cabs a) then
    let absb := Cabs b in
    t <- Cdiv_real (Cconj a) absb ;;
    let u := sqrt (1 + Re t ^ 2 + Im t ^ 2) in
    c <- Cdiv_real t u ;;
    bb <- Cdiv_real (Cconj b) absb ;;
    s <- Cdiv_real bb u ;;
    Ok (rotation c s)
  else
    let absa := Cabs a in
    t <- Cdiv_real (Cconj b) absa ;;
    let u := sqrt (1 + Re t ^ 2 + Im t ^ 2) in
    aa <- Cdiv_real (Cconj a) absa ;;
    c <- Cdiv_real aa u ;;
    s <- Cdiv_real t u ;;
    Ok (rotation c s).


(** What the docstring of [_givens] promises for the pair [(a, b)]: a
    rotation [[c, s], [-conj(s), conj(c)]] with [|c|^2 + |s|^2 = 1] that
    maps [(a, b)] to [(r, 0)] with [r] real and non-negative. *)
Definition givens_spec (a b : C) : Prop :=
  exists c s r,
    _givens a b = Ok (rotation c s) /\
    Cabs c ^ 2 + Cabs s ^ 2 = 1 /\
    0 <= r /\
    mat2_apply (rotation c s) (a, b) = (RtoC r, C0).

(** ** Array arithmetic *)

(** Columns are read as zero beyond their last entry, so that the sum of
    two columns is defined for every pair of lists; on arrays of one shape
    this is NumPy's entrywise arithmetic. *)
Fixpoint vadd (x y : vec) : vec :=
  match x, y with
  | [], _ => y
  | _, [] => x
  | a :: x', b :: y' => (a + b)%C :: vadd x' y'
  end.

Definition vneg (x : vec) : vec := map Cneg x.

Fixpoint vsub (x y : vec) : vec :=
  match x, y with
  | [], _ => vneg y
  | _, [] => x
  | a :: x', b :: y' => (a - b)%C :: vsub x' y'
  end.

Definition vscale (c : C) (x : vec) : vec := map (Cmul c) x.

(** [x / d] for a real scalar [d], entry by entry.  At [d = 0] NumPy
    fills the column with nan or inf and goes on with it; columns here
    have real and imaginary parts in [R] only, so the model stops with
    [ZeroDivision]: a result [Ok _] stands for a run in which no column
    was divided by zero, and nothing is said about the others. *)
Definition vdiv_real (x : vec) (d : R) : result vec :=
  if Req_dec_T d 0 then Raise ZeroDivision
  else Ok (map (fun z => mkC (Re z / d) (Im z / d)) x).

Definition vzeros (n : nat) : vec := repeat C0 n.

(** [np.dot(A, y)] for an array [A] and a column [y]: the combination of
    the columns of [A] with the entries of [y]. *)
Fixpoint mat_vec (A : matrix) (y : vec) : vec :=
  match A, y with
  | a :: A', c :: y' => vadd (vscale c a) (mat_vec A' y')
  | _, _ => []
  end.

(** [np.dot(A, B)]. *)
Definition mat_mul (A B : matrix) : matrix := map (mat_vec A) B.

(** [np.eye(n)]. *)
Fixpoint eye (n : nat) : matrix :=
  match n with
  | O => []
  | S n' => (C1 :: vzeros n') :: map (cons C0) (eye n')
  end.

(** [inner_product(X, Y)] for arrays: entry [i, j] is the inner product of
    column [i] of [X] with column [j] of [Y]. *)
Definition gram (inner_product : vec -> vec -> C) (X Y : matrix) : matrix :=
  map (fun y => map (fun x => inner_product x y) X) Y.

(** ** Gram-Schmidt QR factorisation *)

(** The loop [for j in xrange(0, i)] of [qr]: orthogonalise the column [q]
    against the finished columns, recording the coefficients [R[j,i]]. *)
Fixpoint qr_column (inner_product : vec -> vec -> C)
    (Qdone : matrix) (q : vec) : vec * list C :=
  match Qdone with
  | [] => (q, [])
  | qj :: rest =>
      let r := inner_product qj q in
      let q' := vsub q (vscale r qj) in
      let (q'', rs) := qr_column inner_product rest q' in
      (q'', r :: rs)
  end.

(** Column [i] of [R]: the coefficients, the diagonal entry, zeros below. *)
Definition r_column (n : nat) (rs : list C) (d : R) : vec :=
  rs ++ RtoC d :: vzeros (n - S (length rs)).

(** The loop [for i in xrange(0, n)] of [qr], with the columns of [Q] and
    [R] finished so far. *)
Fixpoint qr_loop (inner_product : vec -> vec -> C) (n : nat)
    (Q R : matrix) (W : matrix) : result (matrix * matrix) :=
  match W with
  | [] => Ok (Q, R)
  | w :: rest =>
      let (q, rs) := qr_column inner_product Q w in
      let d := sqrt (Cabs (inner_product q q)) in
      qn <- vdiv_real q d ;;
      qr_loop inner_product n (Q ++ [qn]) (R ++ [r_column n rs d]) rest
  end.

Definition qr (inner_product : vec -> vec -> C) (W : matrix)
  : result (matrix * matrix) :=
  qr_loop inner_product (length W) [] [] W.

(** The values [inner_product(Q[:,[i]], Q[:,[i]])[0,0]] met by [qr] before
    the square root is taken. *)
Fixpoint qr_pivots_loop (inner_product : vec -> vec -> C)
    (Q : matrix) (W : matrix) : list C :=
  match W with
  | [] => []
  | w :: rest =>
      let (q, rs) := qr_column inner_product Q w in
      let p := inner_product q q in
      p :: match vdiv_real q (sqrt (Cabs p)) with
           | Ok qn => qr_pivots_loop inner_product (Q ++ [qn]) rest
           | Raise _ => []
           end
  end.

Definition qr_pivots (inner_product : vec -> vec -> C) (W : matrix) : list C :=
  qr_pivots_loop inner_product [] W.

(** A form that is linear in its second argument and conjugate-symmetric. *)
Record sesquilinear (inner_product : vec -> vec -> C) : Prop := {
  ip_add_r : forall x y z,
    inner_product x (vadd y z) = (inner_product x y + inner_product x z)%C;
  ip_scale_r : forall c x y,
    inner_product x (vscale c y) = (c * inner_product x y)%C;
  ip_conj : forall x y, inner_product x y = Cconj (inner_product y x)
}.

(** Arrays of shape [m, _]: every column has [m] entries. *)
Definition rectangular (m : nat) (A : matrix) : Prop :=
  Forall (fun a => length a = m) A.

Definition real_positive (z : C) : Prop := Im z = 0 /\ 0 < Re z.

(** [R[i,j] = 0] below the diagonal. *)
Definition upper_triangular (R : matrix) : Prop :=
  forall i j, (j < i)%nat -> nth i (nth j R []) C0 = C0.

(** [R[i,i]] is real and non-negative. *)
Definition diagonal_nonneg (R : matrix) : Prop :=
  forall i, (i < length R)%nat ->
    exists d, 0 <= d /\ nth i (nth i R []) C0 = RtoC d.

(** Columns that are pairwise orthogonal and of unit length under
    [inner_product] (each column against the later ones). *)
Fixpoint orthonormal (inner_product : vec -> vec -> C) (Q : matrix) : Prop :=
  match Q with
  | [] => True
  | q :: Q' =>
      inner_product q q = C1 /\
      Forall (fun p => inner_product q p = C0) Q' /\
      orthonormal inner_product Q'
  end.

(** Column [j] of [R] as [qr] leaves it, against the columns of [Q]
    finished so far: it reproduces column [j] of [W]. *)
Definition qr_column_inv (n : nat) (Q : matrix) (rc w : vec) (j : nat) : Prop :=
  exists rs d,
    rc = r_column n rs d /\ length rs = j /\ 0 <= d /\
    mat_vec Q (rs ++ [RtoC d]) = w.

(** A 2x2 array with the columns [(1, 0)] and [(1, 1)]. *)
Definition W_example : matrix := [[C1; C0]; [C1; C1]].

(** ** Deflation projector *)

(** A linear operator given by its action on a column. *)
Definition operator : Type := vec -> result vec.

(** [inner_product(X, y)] for an array [X] and a single column [y]. *)
Definition ip_col (inner_product : vec -> vec -> C) (X : matrix) (y : vec) : vec :=
  map (fun x => inner_product x y) X.

(** [_direct_solve(A, rhs)] on an array [A]: [np.linalg.solve], which is
    passed as [solve]. *)
Definition _direct_solve (solve : matrix -> vec -> result vec)
    (A : matrix) (rhs : vec) : result vec :=
  solve A rhs.

(** [Pfun] inside [get_projection]: [x - W * E\<AW,x>]. *)
Definition Pfun (solve : matrix -> vec -> result vec)
    (inner_product : vec -> vec -> C) (W AW : matrix) : operator :=
  fun x =>
    let E := gram inner_product W AW in
    z <- _direct_solve solve E (ip_col inner_product AW x) ;;
    Ok (vsub x (mat_vec W z)).

Definition get_projection (solve : matrix -> vec -> result vec)
    (inner_product : vec -> vec -> C) (W AW : matrix) (b x0 : vec)
  : result (operator * vec) :=
  let E := gram inner_product W AW in
  EWb <- _direct_solve solve E (ip_col inner_product W b) ;;
  let P := Pfun solve inner_product W AW in
  Px0 <- P x0 ;;
  Ok (P, vadd Px0 (mat_vec W EWb)).

(** [A] is self-adjoint on the columns of [W]: [<A w_i, w_j> = <w_i, A w_j>],
    that is, [E = <W, AW>] is Hermitian. *)
Definition self_adjoint_on (inner_product : vec -> vec -> C) (W AW : matrix) : Prop :=
  gram inner_product AW W = gram inner_product W AW.

(** [solve] inverts [E]: every right-hand side of the height of [E] has a
    solution, and [solve] returns one. *)
Definition solves (solve : matrix -> vec -> result vec) (E : matrix) : Prop :=
  forall y, length y = length E ->
    exists z, solve E y = Ok z /\ mat_vec E z = y.

(** A direct solver for 1x1 systems with a real coefficient. *)
Definition solve_1x1 (E : matrix) (y : vec) : result vec :=
  match E, y with
  | [[e]], [c] => x <- Cdiv_real c (Re e) ;; Ok [x]
  | _, _ => Raise LinAlgError
  end.

(** A basis of one column and its image under [diag(2, 3)]. *)
Definition W_deflation : matrix := [[C1; C0]].
Definition AW_deflation : matrix := [[RtoC 2; C0]].

(** ** Linear operators *)

(** The objects [_apply] accepts as an operator; [None] is the absent
    operator. *)
Inductive linop : Type :=
| NdArray (A : matrix)
| SpMatrix (A : matrix)
| LinOp (f : operator)
| OtherObject.

(** [_apply(A, x)] on a column [x]. *)
Definition _apply (A : option linop) (x : vec) : result vec :=
  match A with
  | None => Ok x
  | Some (NdArray A) => Ok (mat_vec A x)
  | Some (SpMatrix A) => Ok (mat_vec A x)
  | Some (LinOp f) => f x
  | Some OtherObject => Raise ValueError
  end.

Fixpoint map_result {A B : Type} (f : A -> result B) (l : list A) : result (list B) :=
  match l with
  | [] => Ok []
  | a :: l' => b <- f a ;; bs <- map_result f l' ;; Ok (b :: bs)
  end.

(** [_apply(A, X)] on an array [X], column by column. *)
Definition _apply_cols (A : option linop) (X : matrix) : result matrix :=
  map_result (_apply A) X.

(** ** Array shapes and blocks *)

(** [A.shape[0]]. *)
Definition nrows (A : matrix) : nat :=
  match A with
  | [] => 0
  | a :: _ => length a
  end.

(** [A.T] for an array with [n] rows. *)
Fixpoint transpose (n : nat) (A : matrix) : matrix :=
  match n with
  | O => []
  | S n' => map (hd C0) A :: transpose n' (map (@tl C) A)
  end.

(** [A.T.conj()] for an array with [n] rows. *)
Definition ctranspose (n : nat) (A : matrix) : matrix :=
  map (map Cconj) (transpose n A).

(** [np.r_[A, B]]: [A] on top of [B]. *)
Fixpoint vstack (A B : matrix) : matrix :=
  match A, B with
  | a :: A', b :: B' => (a ++ b) :: vstack A' B'
  | _, _ => []
  end.

(** [A + B] for arrays. *)
Fixpoint madd (A B : matrix) : matrix :=
  match A, B with
  | a :: A', b :: B' => vadd a b :: madd A' B'
  | _, _ => []
  end.

(** [np.zeros((m, n))]. *)
Definition mzeros (m n : nat) : matrix := repeat (vzeros m) n.

(** [np.argsort(keys)]: the indices of [keys] in ascending order of key
    (equal keys keep their order). *)
Fixpoint insert_by (key : nat -> R) (i : nat) (l : list nat) : list nat :=
  match l with
  | [] => [i]
  | j :: l' =>
      if Rle_dec (key i) (key j) then i :: l else j :: insert_by key i l'
  end.

Definition argsort (keys : list R) : list nat :=
  fold_right (insert_by (fun i => nth i keys 0)) [] (seq 0 (length keys)).

(** ** Ritz pairs *)

(** The residual norm of the Ritz pair [(mu, (w, v))] as [get_ritz]
    computes it from the blocks. *)
Definition ritz_residual (Einv B Hfull CC : matrix) (mu : R) (w v : vec) : R :=
  let z := vscale (RtoC (- mu)) w
           ++ vadd w (mat_vec Einv (mat_vec B v))
           ++ vsub (mat_vec Hfull v) (vscale (RtoC mu) v ++ [C0]) in
  let CCz := mat_vec CC z in
  let res_ip := _ipstd z CCz in
  sqrt (Cabs res_ip).

(** The matrix [[E, B; B', Hfull(1:end-1,:) + B'*Einv*B]] whose
    eigenpairs [get_ritz] computes; [BH] is [B.T.conj()]. *)
Definition ritz_matrix (E B BH Hfull Einv : matrix) : matrix :=
  vstack (E ++ B)
         (BH ++ madd (map (@removelast C) Hfull)
                     (mat_mul BH (mat_mul Einv B))).

(** [get_ritz(W, AW, Vfull, Hfull, M, inner_product)]; [np.linalg.inv] and
    [scipy.linalg.eigh] are passed as [inv] and [eigh]. *)
Definition get_ritz (inv : matrix -> result matrix)
    (eigh : matrix -> list R * matrix)
    (inner_product : vec -> vec -> C)
    (W AW Vfull Hfull : matrix) (M : option linop)
  : result (list R * matrix * list R) :=
  let nW := length W in
  let nVfull := length Vfull in
  let E := gram inner_product W AW in
  let B1 := gram inner_product AW Vfull in
  let B := removelast B1 in
  blocks <- (if (0 <? nW)%nat then
               Einv <- inv E ;;
               MAW <- _apply_cols M AW ;;
               Ok (Einv, MAW)
             else Ok (mzeros 0 0, mzeros (nrows W) 0)) ;;
  let Einv := fst blocks in
  let MAW := snd blocks in
  let BH := ctranspose nW B in
  let ritzmat := ritz_matrix E B BH Hfull Einv in
  let (lam, U) := eigh ritzmat in
  let D1 := eye nW in
  let D := gram inner_product AW MAW in
  let zeros := mzeros nW nVfull in
  let CC :=
    vstack (vstack (D1 ++ E ++ zeros)
                   (ctranspose nW E ++ D ++ B1))
           (ctranspose nW zeros ++ ctranspose nW B1 ++ eye nVfull) in
  let norm_ritz_res :=
    map (fun i =>
           let w := firstn nW (nth i U []) in
           let v := skipn nW (nth i U []) in
           let mu := nth i lam 0 in
           ritz_residual Einv B Hfull CC mu w v)
        (seq 0 (nrows ritzmat)) in
  let sorti := argsort (map Rabs lam) in
  let ritz_vals := map (fun i => nth i lam 0) sorti in
  let ritz_vecs :=
    madd (mat_mul W (map (fun i => firstn nW (nth i U [])) sorti))
         (mat_mul (removelast Vfull)
                  (map (fun i => skipn nW (nth i U [])) sorti)) in
  let norm_ritz_res := map (fun i => nth i norm_ritz_res 0) sorti in
  Ok (ritz_vals, ritz_vecs, norm_ritz_res).

(** The Lanczos data of two MINRES steps on
    [[41, 12, 0], [12, 34, 5], [0, 5, _]] started from the first unit
    vector, without deflation. *)
Definition Vfull_ritz : matrix :=
  [[C1; C0; C0]; [C0; C1; C0]; [C0; C0; C1]].

Definition Hfull_ritz : matrix :=
  [[RtoC 41; RtoC 12; C0]; [RtoC 12; RtoC 34; RtoC 5]].

(** The matrix [[41, 12], [12, 34]] whose Ritz pairs are extracted. *)
Definition ritzmat_ritz : matrix :=
  [[RtoC 41; RtoC 12]; [RtoC 12; RtoC 34]].

(** Its eigenvalues in ascending order with unit eigenvectors. *)
Definition lam_ritz : list R := [25; 50].
Definition U_ritz : matrix :=
  [[RtoC (3 / 5); RtoC (- 4 / 5)]; [RtoC (4 / 5); RtoC (3 / 5)]].

Definition eigh_ritz (A : matrix) : list R * matrix := (lam_ritz, U_ritz).

Definition inv_unused (A : matrix) : result matrix := Raise LinAlgError.

(** Ascending order of a list of reals. *)
Fixpoint ascending (l : list R) : Prop :=
  match l with
  | [] => True
  | a :: l' =>
      match l' with
      | [] => True
      | b :: _ => a <= b /\ ascending l'
      end
  end.

(** ** Orthogonalisation against a basis *)

(** [a / b] for complex scalars. *)
Definition Cdiv (a b : C) : result C :=
  if Req_dec_T (Cabs b) 0 then Raise ZeroDivision
  else
    let n2 := Re b * Re b + Im b * Im b in
    Ok (mkC ((Re a * Re b + Im a * Im b) / n2)
            ((Im a * Re b - Re a * Im b) / n2)).

(** [_mod_gram_schmidt(v, W)] inside [orth_vec]. *)
Fixpoint _mod_gram_schmidt (inner_product : vec -> vec -> C)
    (v : vec) (W : matrix) : vec :=
  match W with
  | [] => v
  | w :: W' =>
      _mod_gram_schmidt inner_product
        (vsub v (vscale (inner_product w v) w)) W'
  end.

Definition kappa : R := 0.25.

(** [z < r] as NumPy orders a complex scalar against a real one. *)
Definition Clt_real (z : C) (r : R) : bool :=
  if Rlt_dec (Re z) r then true
  else if Req_dec_T (Re z) r then (if Rlt_dec (Im z) 0 then true else false)
  else false.

(** [orth_vec(v, W, inner_product)].  A quotient that is not a number
    compares false. *)
Definition orth_vec (inner_product : vec -> vec -> C) (v : vec) (W : matrix) : vec :=
  let tau := inner_product v v in
  let v := _mod_gram_schmidt inner_product v W in
  match Cdiv (inner_product v v) tau with
  | Ok q =>
      if Clt_real q (kappa ^ 2) then _mod_gram_schmidt inner_product v W else v
  | Raise _ => v
  end.

(** ** Newton's method *)

(** The model evaluator: residual, inner product, Jacobian and
    preconditioners at a point (each a linear map on columns). *)
Record model_evaluator : Type := {
  compute_f : vec -> vec;
  me_inner_product : vec -> vec -> C;
  get_jacobian : vec -> vec -> vec;
  get_preconditioner : vec -> vec -> vec;
  get_preconditioner_inverse : vec -> vec -> vec
}.

(** The dictionary a linear solver returns. *)
Record solver_out : Type := {
  xk : vec;
  info : Z;
  relresvec : list R;
  Vfull : option matrix;
  Hfull : option matrix;
  Pfull : option matrix
}.

(** [linear_solver(A, b, x0, maxiter, Mr, M, tol, inner_product,
    return_basis)] with [explicit_residual = False]. *)
Definition linear_solver_type : Type :=
  (vec -> vec) -> vec -> vec -> option Z -> option operator ->
  option (vec -> vec) -> R -> (vec -> vec -> C) -> bool -> result solver_out.

(** NumPy and SciPy routines used by the driver. *)
Record linalg : Type := {
  la_solve : matrix -> vec -> result vec;
  la_inv : matrix -> result matrix;
  la_eigh : matrix -> list R * matrix
}.

(** The keyword arguments of [newton]. *)
Record newton_config : Type := {
  nonlinear_tol : R;
  newton_maxiter : nat;
  forcing_term : string;
  eta0 : R;
  eta_min : R;
  eta_max : R;
  alpha : R;
  gamma : R;
  use_preconditioner : bool;
  deflate_ix : bool;
  num_deflation_vectors : Z
}.

(** The variables of the loop of [newton]. *)
Record newton_state : Type := {
  ns_x : vec;
  ns_Fx : vec;
  ns_Fx_norms : list R;
  ns_eta_previous : option R;
  ns_W : matrix;
  ns_linear_relresvecs : list (list R);
  ns_k : nat;
  ns_out : option solver_out;
  ns_linear_solver_maxiter : option Z
}.

Definition golden : R := (1 + sqrt 5) / 2.

(** [x ** y] for a non-negative base. *)
Definition float_pow (x y : R) : R :=
  if Req_dec_T x 0 then 0 else Rpower x y.

Definition Rdiv_checked (a b : R) : result R :=
  if Req_dec_T b 0 then Raise ZeroDivision else Ok (a / b).

(** [l[-1]] and [l[-2]]. *)
Definition last1 (l : list R) : R := last l 0.
Definition last2 (l : list R) : R := last (removelast l) 0.

(** The forcing term [eta] of one Newton step. *)
Definition forcing_eta (cfg : newton_config) (eta_previous : option R)
    (Fx_norms : list R) (out : option solver_out) : result R :=
  match eta_previous with
  | None => Ok (eta0 cfg)
  | Some eta_prev =>
      if String.eqb (forcing_term cfg) "constant" then Ok (eta0 cfg)
      else if String.eqb (forcing_term cfg) "type 1" then
        let res := match out with
                   | Some o => last1 (relresvec o)
                   | None => 0
                   end in
        eta <- Rdiv_checked (Rabs (last1 Fx_norms - res)) (last2 Fx_norms) ;;
        let eta := Rmax (Rmax eta (float_pow eta_prev golden)) (eta_min cfg) in
        Ok (Rmin eta (eta_max cfg))
      else if String.eqb (forcing_term cfg) "type 2" then
        q <- Rdiv_checked (last1 Fx_norms) (last2 Fx_norms) ;;
        let eta := gamma cfg * float_pow q (alpha cfg) in
        let eta := Rmax (Rmax eta (gamma cfg * float_pow eta_prev (alpha cfg)))
                        (eta_min cfg) in
        Ok (Rmin eta (eta_max cfg))
      else Raise ValueError
  end.

(** [min(a, b)] of Python 2, where [None] is smaller than every number. *)
Definition py2_min (a : option Z) (b : Z) : option Z :=
  match a with
  | None => None
  | Some m => Some (Z.min m b)
  end.

(** [0.5*(2**30)] bytes. *)
Definition maxmem : Z := 536870912.

(** [min(linear_solver_maxiter, int(floor(maxmem/(2*16*len(x)))))]. *)
Definition limit_maxiter (linear_solver_maxiter : option Z) (n : nat)
  : result (option Z) :=
  if (Z.of_nat n =? 0)%Z then Raise ZeroDivision
  else Ok (py2_min linear_solver_maxiter (maxmem / (2 * 16 * Z.of_nat n))).

(** [maxiter] as [minres] and [cg] read it: [None] stands for
    [N = len(b)], and a number is taken as it is ([gmres] also reads 0 as
    [N], see [gmres_maxiter]). *)
Definition solver_maxiter (maxiter : option Z) (n : nat) : Z :=
  match maxiter with
  | None => Z.of_nat n
  | Some m => m
  end.

(** [_apply(M, x)] for an optional linear map. *)
Definition apply_map (M : option (vec -> vec)) (x : vec) : vec :=
  match M with
  | None => x
  | Some f => f x
  end.

Definition as_linop (M : option (vec -> vec)) : option linop :=
  option_map (fun f => LinOp (fun x => Ok (f x))) M.

(** Every entry of [u] is zero. *)
Definition is_zero_vec (u : vec) : bool :=
  forallb (fun z => if Req_dec_T (Cabs z) 0 then true else false) u.

(** The deflation basis after the optional extension by [i*x].  When
    [u = i*x] is zero its norm is 0 and [u /= nrm_u] fills it with nan;
    inner products with a column of nan are nan, so the second norm is
    nan, the test [nrm_u > 1e-10] fails and [W] is kept.  A non-zero [u]
    of norm 0 (a preconditioner that is not definite) is divided into
    entries [inf]; that case is outside the model. *)
Definition deflate_ix_basis (inner_product : vec -> vec -> C)
    (M : option (vec -> vec)) (x : vec) (W : matrix) : result matrix :=
  let Minner_product := fun a b => inner_product (apply_map M a) b in
  let u := vscale (mkC 0 1) x in
  let Mu := apply_map M u in
  nrm_u <- _norm inner_product u (Some Mu) ;;
  if Req_dec_T nrm_u 0 then
    if is_zero_vec u then Ok W else Raise ZeroDivision
  else
    u <- vdiv_real u nrm_u ;;
    let u := orth_vec Minner_product u W in
    let Mu := apply_map M u in
    nrm_u <- _norm inner_product u (Some Mu) ;;
    if Rgt_dec nrm_u 1e-10 then
      u <- vdiv_real u nrm_u ;;
      Ok (W ++ [u])
    else Ok W.

(** The body of the loop of [newton]. *)
Definition newton_step (la : linalg) (me : model_evaluator) (cfg : newton_config)
    (linear_solver : linear_solver_type) (st : newton_state)
  : result newton_state :=
  eta <- forcing_eta cfg (ns_eta_previous st) (ns_Fx_norms st) (ns_out st) ;;
  let eta_previous := Some eta in
  let x := ns_x st in
  let ip := me_inner_product me in
  let jacobian := get_jacobian me x in
  let initial_guess := vzeros (length x) in
  let rhs := vneg (ns_Fx st) in
  let M := if use_preconditioner cfg
           then Some (get_preconditioner me x) else None in
  let Minv := if use_preconditioner cfg
              then Some (get_preconditioner_inverse me x) else None in
  let Minner_product := fun a b => ip (apply_map M a) b in
  WR <- qr Minner_product (ns_W st) ;;
  W <- (if deflate_ix cfg then deflate_ix_basis ip M x (fst WR)
        else Ok (fst WR)) ;;
  proj <- (if (0 <? length W)%nat then
             let AW := map jacobian W in
             Px <- get_projection (la_solve la) ip W AW rhs initial_guess ;;
             Ok (AW, Some (fst Px), snd Px)
           else Ok ([], None, initial_guess)) ;;
  let AW := fst (fst proj) in
  let P := snd (fst proj) in
  let x0new := snd proj in
  let return_basis := (0 <? num_deflation_vectors cfg)%Z in
  linear_solver_maxiter <-
    (if return_basis then limit_maxiter (ns_linear_solver_maxiter st) (length x)
     else Ok (ns_linear_solver_maxiter st)) ;;
  out <- linear_solver jacobian rhs x0new linear_solver_maxiter P Minv eta ip
                       return_basis ;;
  W <- match Vfull out, Hfull out with
       | Some V, Some H =>
           if (0 <? num_deflation_vectors cfg)%Z then
             ritz <- get_ritz (la_inv la) (la_eigh la) ip W AW V H (as_linop Minv) ;;
             let ritz_vecs := snd (fst ritz) in
             Ok (firstn (Nat.min (Z.to_nat (num_deflation_vectors cfg))
                                 (length ritz_vecs))
                        ritz_vecs)
           else Ok []
       | _, _ => Ok []
       end ;;
  let x := vadd x (xk out) in
  let Fx := compute_f me x in
  nrm <- _norm ip Fx None ;;
  Ok {| ns_x := x;
        ns_Fx := Fx;
        ns_Fx_norms := ns_Fx_norms st ++ [nrm];
        ns_eta_previous := eta_previous;
        ns_W := W;
        ns_linear_relresvecs := ns_linear_relresvecs st ++ [relresvec out];
        ns_k := S (ns_k st);
        ns_out := Some out;
        ns_linear_solver_maxiter := linear_solver_maxiter |}.

(** [while Fx_norms[-1] > nonlinear_tol and k < newton_maxiter], with
    [remaining = newton_maxiter - k]. *)
Fixpoint newton_loop (la : linalg) (me : model_evaluator) (cfg : newton_config)
    (linear_solver : linear_solver_type) (remaining : nat) (st : newton_state)
  : result newton_state :=
  match remaining with
  | O => Ok st
  | S remaining' =>
      if Rgt_dec (last1 (ns_Fx_norms st)) (nonlinear_tol cfg) then
        st' <- newton_step la me cfg linear_solver st ;;
        newton_loop la me cfg linear_solver remaining' st'
      else Ok st
  end.

(** [newton(x0, model_evaluator, ...)]: the iterate, the error code, the
    residual norms and the residual histories of the linear solves. *)
Definition newton (la : linalg) (me : model_evaluator) (cfg : newton_config)
    (linear_solver : linear_solver_type) (linear_solver_maxiter : option Z)
    (x0 : vec) : result (vec * Z * list R * list (list R)) :=
  let x := x0 in
  let Fx := compute_f me x in
  nrm <- _norm (me_inner_product me) Fx None ;;
  let st0 := {| ns_x := x;
                ns_Fx := Fx;
                ns_Fx_norms := [nrm];
                ns_eta_previous := None;
                ns_W := [];
                ns_linear_relresvecs := [];
                ns_k := O;
                ns_out := None;
                ns_linear_solver_maxiter := linear_solver_maxiter |} in
  st <- newton_loop la me cfg linear_solver (newton_maxiter cfg) st0 ;;
  let error_code := if (ns_k st =? newton_maxiter cfg)%nat then 1%Z else 0%Z in
  Ok (ns_x st, error_code, ns_Fx_norms st, ns_linear_relresvecs st).

(** ** A scalar model problem *)

(** [F(x) = x - 1] on columns of height one, with the Euclidean inner
    product; the Jacobian and the preconditioners are the identity. *)
Definition me_shift : model_evaluator :=
  {| compute_f := fun x => vsub x [C1];
     me_inner_product := _ipstd;
     get_jacobian := fun _ v => v;
     get_preconditioner := fun _ v => v;
     get_preconditioner_inverse := fun _ v => v |}.

(** No dense solves are involved without a deflation basis. *)
Definition la_unused : linalg :=
  {| la_solve := fun _ _ => Raise LinAlgError;
     la_inv := inv_unused;
     la_eigh := eigh_ritz |}.

(** The default keyword arguments of [newton], for a forcing term and an
    iteration budget. *)
Definition cfg_default (ft : string) (maxiter : nat) : newton_config :=
  {| nonlinear_tol := 1e-10;
     newton_maxiter := maxiter;
     forcing_term := ft;
     eta0 := 1e-1;
     eta_min := 1e-6;
     eta_max := 1e-2;
     alpha := 1.5;
     gamma := 0.9;
     use_preconditioner := false;
     deflate_ix := false;
     num_deflation_vectors := 0 |}.

(** A linear solver that returns the solution of [x = b]. *)
Definition exact_solver : linear_solver_type :=
  fun A b x0 maxiter Mr M tol inner_product return_basis =>
    Ok {| xk := b; info := 0; relresvec := [1; 0];
          Vfull := None; Hfull := None; Pfull := None |}.

(** A linear solver that stops half way to the solution of [x = b]. *)
Definition half_solver : linear_solver_type :=
  fun A b x0 maxiter Mr M tol inner_product return_basis =>
    Ok {| xk := vscale (RtoC (1 / 2)) b; info := 0; relresvec := [1; 1 / 2];
          Vfull := None; Hfull := None; Pfull := None |}.

(** A linear solver that returns the solution of [x = b] and reports the
    tolerance it was called with as its final relative residual. *)
Definition recording_solver : linear_solver_type :=
  fun A b x0 maxiter Mr M tol inner_product return_basis =>
    Ok {| xk := b; info := 0; relresvec := [1; tol];
          Vfull := None; Hfull := None; Pfull := None |}.

(** The names of the forcing terms [newton] knows. *)
Definition known_forcing_terms : list string :=
  ["constant"%string; "type 1"%string; "type 2"%string].

(** The state of [newton] on the model problem at [x0 = 0] before the
    loop, and after one step in which the solver returned [o] with the
    update [d]. *)
Definition shift_state0 : newton_state :=
  {| ns_x := [C0];
     ns_Fx := [(C0 - C1)%C];
     ns_Fx_norms := [Cabs (C0 - C1)];
     ns_eta_previous := None;
     ns_W := [];
     ns_linear_relresvecs := [];
     ns_k := 0;
     ns_out := None;
     ns_linear_solver_maxiter := None |}.

Definition shift_state1 (o : solver_out) (d : C) : newton_state :=
  {| ns_x := [(C0 + d)%C];
     ns_Fx := [(C0 + d - C1)%C];
     ns_Fx_norms := [Cabs (C0 - C1); Cabs (C0 + d - C1)];
     ns_eta_previous := Some (1 / 10);
     ns_W := [];
     ns_linear_relresvecs := [relresvec o];
     ns_k := 1;
     ns_out := Some o;
     ns_linear_solver_maxiter := None |}.

(** ** Residual policy of MINRES and GMRES *)

(** A residual norm as the solvers store and compare it: a real number,
    [inf] or [nan].  [nan] arises when the Lanczos or Arnoldi process
    breaks down and a quotient [0/0] enters the rotations; NumPy goes on
    with it, and every comparison with [nan] is false. *)
Inductive fl : Type :=
| Num (r : R)
| PInf
| NaN.

(** [x > t], [x >= t], [x < t] and [x <= t] for a number [t]. *)
Definition fl_gt (x : fl) (t : R) : Prop :=
  match x with
  | Num r => r > t
  | PInf => True
  | NaN => False
  end.

Definition fl_ge (x : fl) (t : R) : Prop :=
  match x with
  | Num r => r >= t
  | PInf => True
  | NaN => False
  end.

Definition fl_lt (x : fl) (t : R) : Prop :=
  match x with
  | Num r => r < t
  | PInf => False
  | NaN => False
  end.

Definition fl_le (x : fl) (t : R) : Prop :=
  match x with
  | Num r => r <= t
  | PInf => False
  | NaN => False
  end.

Definition fl_gt_dec (x : fl) (t : R) : {fl_gt x t} + {~ fl_gt x t} :=
  match x return {fl_gt x t} + {~ fl_gt x t} with
  | Num r => Rgt_dec r t
  | PInf => left I
  | NaN => right (fun H => H)
  end.

Definition fl_ge_dec (x : fl) (t : R) : {fl_ge x t} + {~ fl_ge x t} :=
  match x return {fl_ge x t} + {~ fl_ge x t} with
  | Num r => Rge_dec r t
  | PInf => left I
  | NaN => right (fun H => H)
  end.

Definition fl_lt_dec (x : fl) (t : R) : {fl_lt x t} + {~ fl_lt x t} :=
  match x return {fl_lt x t} + {~ fl_lt x t} with
  | Num r => Rlt_dec r t
  | PInf => right (fun H => H)
  | NaN => right (fun H => H)
  end.

Definition fl_le_dec (x : fl) (t : R) : {fl_le x t} + {~ fl_le x t} :=
  match x return {fl_le x t} + {~ fl_le x t} with
  | Num r => Rle_dec r t
  | PInf => right (fun H => H)
  | NaN => right (fun H => H)
  end.

(** Python's [max(a, x)] for a number [a]: [x] when [x > a], and [a]
    otherwise, so that [max(a, nan)] is [a]. *)
Definition py_max (a : R) (x : fl) : fl :=
  if fl_gt_dec x a then x else Num a.

(** The numerical kernel of a Krylov solver at fixed [A], [b], [x0] and
    preconditioners: one Lanczos or Arnoldi step with the update of the QR
    factorisation and of the iterate (which raises when an operator or the
    inner product does), the residual norm read off the rotated
    right-hand side, and the residual norm recomputed from [b - A*xk]
    (which goes through [_norm] and may raise).  Both norms may be
    [nan]. *)
Record krylov_kernel : Type := {
  kstate : Type;
  iterate : kstate -> result kstate;
  updated_residual : kstate -> fl;
  explicit_residual_norm : kstate -> result fl
}.

(** The variables of the solver loops. *)
Record solver_state (K : krylov_kernel) : Type := {
  ss_kernel : kstate K;
  ss_k : nat;
  ss_info : Z;
  ss_relresvec : list fl
}.

Arguments ss_kernel {K} s.
Arguments ss_k {K} s.
Arguments ss_info {K} s.
Arguments ss_relresvec {K} s.

(** [np.finfo(float).eps]. *)
Definition float_eps : R := / 4503599627370496.

(** [l[-1]] of a history. *)
Definition last_entry (l : list fl) : fl := last l NaN.

(** [l[-1] = r]. *)
Definition replace_last (l : list fl) (r : fl) : list fl := removelast l ++ [r].

(** The residual bookkeeping of one MINRES iteration. *)
Definition minres_iteration (K : krylov_kernel) (tol : R) (maxiter : nat)
    (explicit_residual : bool) (st : solver_state K) : result (solver_state K) :=
  s <- iterate K (ss_kernel st) ;;
  let k := ss_k st in
  r <- (if explicit_residual then explicit_residual_norm K s
        else Ok (updated_residual K s)) ;;
  let relresvec := ss_relresvec st ++ [r] in
  checked <-
    (if (if fl_le_dec (last_entry relresvec) tol then true else false)
        || (S k =? maxiter)%nat
     then
       relresvec <-
         (if negb explicit_residual then
            norm_r_exp <- explicit_residual_norm K s ;;
            Ok (replace_last relresvec norm_r_exp)
          else Ok relresvec) ;;
       if fl_gt_dec (last_entry relresvec) tol then
         if (S k =? maxiter)%nat then Ok (relresvec, 1%Z)
         else Ok (relresvec, ss_info st)
       else Ok (relresvec, ss_info st)
     else Ok (relresvec, ss_info st)) ;;
  let relresvec := fst checked in
  let info := snd checked in
  let relresvec :=
    replace_last relresvec (py_max float_eps (last_entry relresvec)) in
  Ok {| ss_kernel := s; ss_k := S k; ss_info := info; ss_relresvec := relresvec |}.

(** The residual bookkeeping of one GMRES iteration. *)
Definition gmres_iteration (K : krylov_kernel) (tol : R) (maxiter : nat)
    (explicit_residual : bool) (st : solver_state K) : result (solver_state K) :=
  s <- iterate K (ss_kernel st) ;;
  let k := ss_k st in
  r <- (if explicit_residual then explicit_residual_norm K s
        else Ok (updated_residual K s)) ;;
  let relresvec := ss_relresvec st ++ [r] in
  checked <-
    (if (if fl_lt_dec (last_entry relresvec) tol then true else false)
        || (S k =? maxiter)%nat
     then
       relresvec <-
         (if negb explicit_residual then
            norm_Mrk <- explicit_residual_norm K s ;;
            Ok (replace_last relresvec norm_Mrk)
          else Ok relresvec) ;;
       if fl_ge_dec (last_entry relresvec) tol then
         if (S k =? maxiter)%nat then Ok (relresvec, 1%Z)
         else Ok (relresvec, ss_info st)
       else Ok (relresvec, ss_info st)
     else Ok (relresvec, ss_info st)) ;;
  let relresvec := fst checked in
  let info := snd checked in
  Ok {| ss_kernel := s; ss_k := S k; ss_info := info; ss_relresvec := relresvec |}.

(** [while relresvec[-1] > tol and k < maxiter], with
    [remaining = maxiter - k]. *)
Fixpoint solver_loop {K : krylov_kernel}
    (body : solver_state K -> result (solver_state K)) (tol : R)
    (remaining : nat) (st : solver_state K) : result (solver_state K) :=
  match remaining with
  | O => Ok st
  | S remaining' =>
      if fl_gt_dec (last_entry (ss_relresvec st)) tol then
        st' <- body st ;;
        solver_loop body tol remaining' st'
      else Ok st
  end.

(** The state after the initialisation, with the initial relative
    residual [r0] (a number: the right-hand side is not zero). *)
Definition solver_init (K : krylov_kernel) (s0 : kstate K) (r0 : R)
  : solver_state K :=
  {| ss_kernel := s0; ss_k := 0; ss_info := 0; ss_relresvec := [Num r0] |}.

(** [minres] from the state [s0] after the initialisation, with [maxiter]
    as a number ([None] has been replaced by [len(b)]; 0 stays 0). *)
Definition minres (K : krylov_kernel) (tol : R) (maxiter : nat)
    (explicit_residual : bool) (s0 : kstate K) (r0 : R)
  : result (solver_state K) :=
  solver_loop (minres_iteration K tol maxiter explicit_residual) tol maxiter
              (solver_init K s0 r0).

(** [if not maxiter: maxiter = N] of [gmres]: both [None] and 0 stand for
    [N = len(b)]. *)
Definition gmres_maxiter (maxiter : option nat) (N : nat) : nat :=
  match maxiter with
  | None => N
  | Some O => N
  | Some m => m
  end.

(** [gmres] from the state [s0] after the initialisation, for
    [N = len(b)]. *)
Definition gmres (K : krylov_kernel) (tol : R) (maxiter : option nat) (N : nat)
    (explicit_residual : bool) (s0 : kstate K) (r0 : R)
  : result (solver_state K) :=
  let maxiter := gmres_maxiter maxiter N in
  solver_loop (gmres_iteration K tol maxiter explicit_residual) tol maxiter
              (solver_init K s0 r0).

(** The last entry of the history is the recomputed residual norm [e] of
    the final iterate, floored at machine precision, and [e] is a number
    within the tolerance. *)
Definition minres_certified {K : krylov_kernel} (tol : R) (st : solver_state K) : Prop :=
  exists e,
    explicit_residual_norm K (ss_kernel st) = Ok (Num e) /\
    last_entry (ss_relresvec st) = Num (Rmax float_eps e) /\
    e <= tol.

(** The last entry of the history is the recomputed residual norm of the
    final iterate, a number within the tolerance. *)
Definition gmres_certified {K : krylov_kernel} (tol : R) (st : solver_state K) : Prop :=
  exists e,
    explicit_residual_norm K (ss_kernel st) = Ok (Num e) /\
    last_entry (ss_relresvec st) = Num e /\
    e <= tol.

(** The last entry of the history is within the tolerance, and it is the
    recomputed residual norm when it is strictly below the tolerance or
    when the residual is recomputed in every iteration. *)
Definition gmres_settled {K : krylov_kernel} (tol : R) (explicit_residual : bool)
    (st : solver_state K) : Prop :=
  fl_le (last_entry (ss_relresvec st)) tol /\
  (fl_lt (last_entry (ss_relresvec st)) tol \/ explicit_residual = true ->
   gmres_certified tol st).

(** The residual norm the last iteration looked at is [nan]: the estimate
    read off the rotated right-hand side (when the residual is not
    recomputed in every iteration), or the recomputed norm. *)
Definition residual_nan {K : krylov_kernel} (explicit_residual : bool)
    (st : solver_state K) : Prop :=
  (explicit_residual = false /\ updated_residual K (ss_kernel st) = NaN) \/
  explicit_residual_norm K (ss_kernel st) = Ok NaN.

(** A kernel that reaches the solution in one step: both residuals are
    exactly zero from the first iterate on (as for [A] the identity). *)
Definition kernel_exact : krylov_kernel :=
  {| kstate := nat;
     iterate := fun n => Ok (S n);
     updated_residual := fun _ => Num 0;
     explicit_residual_norm := fun _ => Ok (Num 0) |}.

(** A kernel whose updated residual after one step is 4/5 while the
    recomputed one is slightly larger. *)
Definition kernel_boundary : krylov_kernel :=
  {| kstate := nat;
     iterate := fun n => Ok (S n);
     updated_residual := fun _ => Num (4 / 5);
     explicit_residual_norm := fun _ => Ok (Num (4 / 5 + float_eps)) |}.

(** A kernel that breaks down in its first step (as for [A = 0]): the
    rotation is [0/0], and both residuals are [nan] from then on. *)
Definition kernel_breakdown : krylov_kernel :=
  {| kstate := nat;
     iterate := fun n => Ok (S n);
     updated_residual := fun _ => NaN;
     explicit_residual_norm := fun _ => Ok NaN |}.

(** [solve] undoes the multiplication by [E]. *)
Definition inverts (solve : matrix -> vec -> result vec) (E : matrix) : Prop :=
  forall z, length z = length E -> solve E (mat_vec E z) = Ok z.

(** The operator [2 * I]. *)
Definition twice (x : vec) : vec := vscale (RtoC 2) x.

(** ** Conjugate gradients *)

(** The variables of the loop of [cg]; [rho_new] is unbound until the
    first iteration has run, and [errorvec] exists only with an
    [exact_solution]. *)
Record cg_state : Type := {
  cs_x : vec;
  cs_r : vec;
  cs_Mr : vec;
  cs_p : vec;
  cs_rho_old : R;
  cs_rho_new : option R;
  cs_k : nat;
  cs_relresvec : list R;
  cs_errorvec : option (list R)
}.

(** The dictionary [cg] returns. *)
Record cg_out : Type := {
  cg_xk : vec;
  cg_info : Z;
  cg_relresvec : list R;
  cg_errorvec : option (list R)
}.

(** [r = rhs - _apply(A, x)]. *)
Definition cg_explicit_r (A : linop) (rhs x : vec) : result vec :=
  Ax <- _apply (Some A) x ;;
  Ok (vsub rhs Ax).

(** [Mr = _apply(M, r); rho = _norm_squared(r, Mr, inner_product)]. *)
Definition cg_rho (M : option operator) (inner_product : vec -> vec -> C)
    (r : vec) : result (vec * R) :=
  Mr <- _apply (option_map LinOp M) r ;;
  rho <- _norm_squared inner_product r (Some Mr) ;;
  Ok (Mr, rho).

(** [np.sqrt(rho_new / rho0)]. *)
Definition cg_relres (rho_new rho0 : R) : result R :=
  q <- Rdiv_checked rho_new rho0 ;;
  Ok (sqrt q).

(** [errorvec[...] = _norm_squared(x - exact_solution)] when an exact
    solution is given. *)
Definition cg_error (inner_product : vec -> vec -> C)
    (exact_solution : option vec) (x : vec) (errorvec : option (list R))
  : result (option (list R)) :=
  match exact_solution with
  | None => Ok errorvec
  | Some xs =>
      e <- _norm_squared inner_product (vsub x xs) None ;;
      Ok (Some (match errorvec with
                | Some l => l ++ [e]
                | None => [e]
                end))
  end.

(** The body of the loop of [cg]; [M] is [None] or a [LinearOperator].
    Where a denominator ([rho_old], [<p, Ap>] or [rho0]) is zero NumPy
    yields nan or inf and the loop goes on with it (a nan residual ends it
    with [info = 0]); iterates with such entries are not columns of this
    model, which stops there with [ZeroDivision]: a result [Ok _] stands
    for a run in which no denominator was zero. *)
Definition cg_step (A : linop) (rhs : vec) (tol : R) (M : option operator)
    (explicit_residual : bool) (inner_product : vec -> vec -> C)
    (exact_solution : option vec) (rho0 : R) (st : cg_state)
  : result cg_state :=
  let k := cs_k st in
  dir <- (if (0 <? k)%nat then
            match cs_rho_new st with
            | Some rho_new =>
                q <- Rdiv_checked rho_new (cs_rho_old st) ;;
                Ok (vadd (cs_Mr st) (vscale (RtoC q) (cs_p st)), rho_new)
            | None => Raise ValueError (* not reached: bound once [k > 0] *)
            end
          else Ok (cs_p st, cs_rho_old st)) ;;
  let p := fst dir in
  let rho_old := snd dir in
  Ap <- _apply (Some A) p ;;
  alpha <- Cdiv (RtoC rho_old) (inner_product p Ap) ;;
  let x := vadd (cs_x st) (vscale alpha p) in
  errorvec <- cg_error inner_product exact_solution x (cs_errorvec st) ;;
  r <- (if explicit_residual then cg_explicit_r A rhs x
        else Ok (vsub (cs_r st) (vscale alpha Ap))) ;;
  Mrho <- cg_rho M inner_product r ;;
  rel <- cg_relres (snd Mrho) rho0 ;;
  upd <- (if negb explicit_residual
             && (if Rlt_dec rel tol then true else false)
          then
            r <- cg_explicit_r A rhs x ;;
            Mrho <- cg_rho M inner_product r ;;
            rel <- cg_relres (snd Mrho) rho0 ;;
            Ok (r, Mrho, rel)
          else Ok (r, Mrho, rel)) ;;
  let r := fst (fst upd) in
  let Mr := fst (snd (fst upd)) in
  let rho_new := snd (snd (fst upd)) in
  let rel := snd upd in
  Ok {| cs_x := x;
        cs_r := r;
        cs_Mr := Mr;
        cs_p := p;
        cs_rho_old := rho_old;
        cs_rho_new := Some rho_new;
        cs_k := S k;
        cs_relresvec := cs_relresvec st ++ [rel];
        cs_errorvec := errorvec |}.

(** [while out['relresvec'][k] > tol and k < maxiter], with
    [remaining = maxiter - k]. *)
Fixpoint cg_loop (step : cg_state -> result cg_state) (tol : R)
    (remaining : nat) (st : cg_state) : result cg_state :=
  match remaining with
  | O => Ok st
  | S remaining' =>
      if Rgt_dec (last1 (cs_relresvec st)) tol then
        st' <- step st ;;
        cg_loop step tol remaining' st'
      else Ok st
  end.

(** [cg(A, rhs, x0, tol, maxiter, M, explicit_residual, inner_product,
    exact_solution)]. *)
Definition cg (A : linop) (rhs x0 : vec) (tol : R) (maxiter : option nat)
    (M : option operator) (explicit_residual : bool)
    (inner_product : vec -> vec -> C) (exact_solution : option vec)
  : result cg_out :=
  let x := x0 in
  r <- cg_explicit_r A rhs x ;;
  Mrho <- cg_rho M inner_product r ;;
  let Mr := fst Mrho in
  let rho_old := snd Mrho in
  let p := Mr in
  let maxiter := match maxiter with
                 | None => length rhs
                 | Some m => m
                 end in
  Mrho0 <- cg_rho M inner_product rhs ;;
  let rho0 := snd Mrho0 in
  errorvec <- cg_error inner_product exact_solution x None ;;
  let st0 := {| cs_x := x;
                cs_r := r;
                cs_Mr := Mr;
                cs_p := p;
                cs_rho_old := rho_old;
                cs_rho_new := None;
                cs_k := O;
                cs_relresvec := [1];
                cs_errorvec := errorvec |} in
  st <- cg_loop (cg_step A rhs tol M explicit_residual inner_product
                         exact_solution rho0)
                tol maxiter st0 ;;
  let info := if Rgt_dec (last1 (cs_relresvec st)) tol then 1%Z else 0%Z in
  Ok {| cg_xk := cs_x st;
        cg_info := info;
        cg_relresvec := cs_relresvec st;
        cg_errorvec := cs_errorvec st |}.

(** The relative residual of [x] recomputed from scratch, as [cg] does
    for its last iterate. *)
Definition cg_recomputed (A : linop) (rhs : vec) (M : option operator)
    (inner_product : vec -> vec -> C) (x : vec) : result R :=
  r <- cg_explicit_r A rhs x ;;
  Mrho <- cg_rho M inner_product r ;;
  Mrho0 <- cg_rho M inner_product rhs ;;
  cg_relres (snd Mrho) (snd Mrho0).

(** The operator [2 * I] on the plane, as an array. *)
Definition A_cg : linop := NdArray [[RtoC 2; C0]; [C0; RtoC 2]].
(** * Properties *)

(** ** Complex arithmetic *)

Lemma C_eq (a b : C) : Re a = Re b -> Im a = Im b -> a = b.
Proof. destruct a, b; simpl; intros -> ->; reflexivity. Qed.

Lemma Cabs_nonneg (z : C) : 0 <= Cabs z.
Proof. apply sqrt_pos. Qed.

Lemma Cabs_sqr (z : C) : Cabs z * Cabs z = Re z * Re z + Im z * Im z.
Proof. unfold Cabs. apply sqrt_sqrt. nra. Qed.

Lemma Cabs_eq_0 (z : C) : Cabs z = 0 <-> z = C0.
Proof.
  split.
  - intros H. pose proof (Cabs_sqr z) as Hs. rewrite H in Hs.
    apply C_eq; simpl; nra.
  - intros ->. unfold Cabs, C0; simpl.
    replace (0 * 0 + 0 * 0) with 0 by ring. apply sqrt_0.
Qed.

Lemma Cabs_RtoC (r : R) : 0 <= r -> Cabs (RtoC r) = r.
Proof.
  intros Hr. unfold Cabs, RtoC; simpl.
  replace (r * r + 0 * 0) with (r * r) by ring. apply sqrt_square, Hr.
Qed.

Lemma Cdiv_real_ok (z : C) (r : R) :
  r <> 0 -> Cdiv_real z r = Ok (mkC (Re z / r) (Im z / r)).
Proof. intros Hr. unfold Cdiv_real. destruct (Req_dec_T r 0); [contradiction | reflexivity]. Qed.

Lemma bind_Ok {A B : Type} (a : A) (f : A -> result B) : bind (Ok a) f = f a.
Proof. reflexivity. Qed.

Lemma Cdiv_real_0 (z : C) : Cdiv_real z 0 = Raise ZeroDivision.
Proof. unfold Cdiv_real. destruct (Req_dec_T 0 0); [reflexivity | contradiction]. Qed.

(** ** Norms *)

(** C6. The norm raises exactly when the quadratic form [rho] has
    [|Im rho| > 1e-10 * |rho|] or [Re rho < 0]; otherwise it returns
    [sqrt (Re rho)]. *)
Theorem norm_raises_iff (inner_product : vec -> vec -> C)
    (x : vec) (Mx : option vec) :
  let rho := quadratic_form inner_product x Mx in
  ((exists e, _norm inner_product x Mx = Raise e) <->
   (Rabs (Im rho) > 1e-10 * Cabs rho \/ Re rho < 0)) /\
  (~ (Rabs (Im rho) > 1e-10 * Cabs rho \/ Re rho < 0) ->
   _norm inner_product x Mx = Ok (sqrt (Re rho))).
Proof.
  intros rho. unfold _norm, _norm_squared.
  fold (quadratic_form inner_product x Mx). fold rho. unfold tol_imag.
  destruct (Rgt_dec (Rabs (Im rho)) (Cabs rho * 1e-10)) as [Hi | Hi]; simpl.
  - split.
    + split; [intros _; left; lra | intros _; exists ValueError; reflexivity].
    + intros H. exfalso. apply H. left. lra.
  - destruct (Rlt_dec (Re rho) 0) as [Hr | Hr]; simpl.
    + split.
      * split; [intros _; right; exact Hr | intros _; exists ValueError; reflexivity].
      * intros H. exfalso. apply H. right. exact Hr.
    + split.
      * split; [intros [e He]; discriminate | intros [H | H]; [lra | contradiction]].
      * reflexivity.
Qed.

(** ** Givens rotations *)

Lemma Cabs_pos (z : C) : z <> C0 -> 0 < Cabs z.
Proof.
  intros Hz. destruct (Cabs_nonneg z) as [H | H]; [exact H |].
  exfalso. apply Hz. apply Cabs_eq_0. symmetry. exact H.
Qed.

Lemma Cabs_pow2 (z : C) : Cabs z ^ 2 = Re z * Re z + Im z * Im z.
Proof. simpl. rewrite Rmult_1_r. apply Cabs_sqr. Qed.

Lemma givens_u_pos (t : C) : 0 < sqrt (1 + Re t ^ 2 + Im t ^ 2).
Proof. apply sqrt_lt_R0. simpl. nra. Qed.

Lemma givens_u_sqr (t : C) :
  sqrt (1 + Re t ^ 2 + Im t ^ 2) * sqrt (1 + Re t ^ 2 + Im t ^ 2)
  = 1 + Re t * Re t + Im t * Im t.
Proof. rewrite sqrt_sqrt; simpl; nra. Qed.

Lemma givens_zero_zero : _givens C0 C0 = Raise ZeroDivision.
Proof.
  unfold _givens.
  assert (H0 : Cabs C0 = 0) by (apply Cabs_eq_0; reflexivity).
  destruct (Req_dec_T (Cabs C0) 0) as [_ | H]; [| contradiction].
  rewrite H0, Cdiv_real_0. reflexivity.
Qed.

(** First branch: [abs(b) == 0] and [a] is not zero. *)
Lemma givens_branch_b0 (a : C) : a <> C0 -> givens_spec a C0.
Proof.
  intros Ha. pose proof (Cabs_pos a Ha) as Hpos. pose proof (Cabs_sqr a) as Hs.
  assert (H0 : Cabs C0 = 0) by (apply Cabs_eq_0; reflexivity).
  exists (mkC (Re a / Cabs a) (- Im a / Cabs a)), C0, (Cabs a).
  split; [| split; [| split]].
  - unfold _givens. destruct (Req_dec_T (Cabs C0) 0) as [_ | H]; [| contradiction].
    rewrite Cdiv_real_ok by lra. reflexivity.
  - rewrite !Cabs_pow2. simpl. field_simplify; [| lra].
    replace (Re a ^ 2 + Im a ^ 2) with (Cabs a * Cabs a) by (rewrite Hs; ring).
    field. lra.
  - lra.
  - unfold mat2_apply, rotation, RtoC, C0; simpl. f_equal; apply C_eq; simpl.
    + apply Rmult_eq_reg_r with (Cabs a); [| lra]. field_simplify; [| lra]. nra.
    + field. lra.
    + ring.
    + ring.
Qed.

(** Second branch: [abs(a) == 0] and [b] is not zero. *)
Lemma givens_branch_a0 (b : C) : b <> C0 -> givens_spec C0 b.
Proof.
  intros Hb. pose proof (Cabs_pos b Hb) as Hpos. pose proof (Cabs_sqr b) as Hs.
  assert (H0 : Cabs C0 = 0) by (apply Cabs_eq_0; reflexivity).
  exists C0, (mkC (Re b / Cabs b) (- Im b / Cabs b)), (Cabs b).
  split; [| split; [| split]].
  - unfold _givens. destruct (Req_dec_T (Cabs b) 0) as [H | _]; [lra |].
    destruct (Req_dec_T (Cabs C0) 0) as [_ | H]; [| contradiction].
    rewrite Cdiv_real_ok by lra. reflexivity.
  - rewrite !Cabs_pow2. simpl. field_simplify; [| lra].
    replace (Re b ^ 2 + Im b ^ 2) with (Cabs b * Cabs b) by (rewrite Hs; ring).
    field. lra.
  - lra.
  - unfold mat2_apply, rotation, RtoC, C0; simpl. f_equal; apply C_eq; simpl.
    + apply Rmult_eq_reg_r with (Cabs b); [| lra]. field_simplify; [| lra]. nra.
    + field. lra.
    + ring.
    + ring.
Qed.

(** Real-arithmetic core of the two scaled branches: [(x1, y1)] is the
    smaller operand, [(x2, y2)] the one of modulus [m] driving the scaling. *)
Lemma scaled_rotation_unit (x1 y1 x2 y2 m u : R) :
  0 < m -> 0 < u ->
  m * m = x2 * x2 + y2 * y2 ->
  u * u = 1 + (x1 / m) * (x1 / m) + (y1 / m) * (y1 / m) ->
  (x1 / m / u) * (x1 / m / u) + (y1 / m / u) * (y1 / m / u)
  + ((x2 / m / u) * (x2 / m / u) + (y2 / m / u) * (y2 / m / u)) = 1.
Proof.
  intros Hm Hu Hmm Huu.
  replace ((x1 / m / u) * (x1 / m / u) + (y1 / m / u) * (y1 / m / u)
           + ((x2 / m / u) * (x2 / m / u) + (y2 / m / u) * (y2 / m / u)))
    with (((x1 / m) * (x1 / m) + (y1 / m) * (y1 / m)
           + (x2 * x2 + y2 * y2) / (m * m)) / (u * u))
    by (field; lra).
  rewrite <- Hmm.
  replace (m * m / (m * m)) with 1 by (field; lra).
  replace (x1 / m * (x1 / m) + y1 / m * (y1 / m) + 1) with (u * u) by lra.
  field. lra.
Qed.

Lemma scaled_rotation_modulus (x1 y1 x2 y2 m u : R) :
  0 < m -> 0 < u ->
  m * m = x2 * x2 + y2 * y2 ->
  u * u = 1 + (x1 / m) * (x1 / m) + (y1 / m) * (y1 / m) ->
  (x1 * x1 + y1 * y1 + (x2 * x2 + y2 * y2)) / (m * u) = m * u.
Proof.
  intros Hm Hu Hmm Huu.
  rewrite <- Hmm.
  replace (m * u) with (m * (u * u) / u) at 2 by (field; lra).
  rewrite Huu. field. lra.
Qed.

(** Third branch: [abs(b) > abs(a) > 0]. *)
Lemma givens_branch_b_gt (a b : C) :
  a <> C0 -> b <> C0 -> Cabs b > Cabs a -> givens_spec a b.
Proof.
  intros Ha Hb Hgt.
  pose proof (Cabs_pos a Ha) as Hpa. pose proof (Cabs_pos b Hb) as Hpb.
  pose proof (Cabs_sqr b) as Hsb.
  set (t := mkC (Re a / Cabs b) (- Im a / Cabs b)).
  set (u := sqrt (1 + Re t ^ 2 + Im t ^ 2)).
  assert (Hu : 0 < u) by apply givens_u_pos.
  assert (Huu : u * u = 1 + (Re a / Cabs b) * (Re a / Cabs b)
                        + (- Im a / Cabs b) * (- Im a / Cabs b))
    by (unfold u; rewrite givens_u_sqr; reflexivity).
  exists (mkC (Re t / u) (Im t / u)),
         (mkC (Re b / Cabs b / u) (- Im b / Cabs b / u)), (Cabs b * u).
  split; [| split; [| split]].
  - unfold _givens.
    destruct (Req_dec_T (Cabs b) 0) as [H | _]; [lra |].
    destruct (Req_dec_T (Cabs a) 0) as [H | _]; [lra |].
    destruct (Rgt_dec (Cabs b) (Cabs a)) as [_ | H]; [| contradiction].
    rewrite (Cdiv_real_ok (Cconj a)) by lra. rewrite bind_Ok. cbv zeta.
    change (mkC (Re (Cconj a) / Cabs b) (Im (Cconj a) / Cabs b)) with t. fold u.
    rewrite (Cdiv_real_ok t) by lra. rewrite bind_Ok.
    rewrite (Cdiv_real_ok (Cconj b)) by lra. rewrite bind_Ok.
    rewrite Cdiv_real_ok by lra. reflexivity.
  - rewrite !Cabs_pow2. unfold t. simpl.
    apply (scaled_rotation_unit (Re a) (- Im a) (Re b) (- Im b) (Cabs b) u);
      try assumption; try lra.
  - apply Rmult_le_pos; lra.
  - unfold mat2_apply, rotation, RtoC, C0, t; simpl. f_equal; apply C_eq; simpl.
    + rewrite <- (scaled_rotation_modulus (Re a) (- Im a) (Re b) (- Im b) (Cabs b) u);
        try assumption; try lra.
      field. lra.
    + field. lra.
    + field. lra.
    + field. lra.
Qed.

(** Fourth branch: [abs(a) >= abs(b) > 0]. *)
Lemma givens_branch_a_ge (a b : C) :
  a <> C0 -> b <> C0 -> ~ Cabs b > Cabs a -> givens_spec a b.
Proof.
  intros Ha Hb Hge.
  pose proof (Cabs_pos a Ha) as Hpa. pose proof (Cabs_pos b Hb) as Hpb.
  pose proof (Cabs_sqr a) as Hsa.
  set (t := mkC (Re b / Cabs a) (- Im b / Cabs a)).
  set (u := sqrt (1 + Re t ^ 2 + Im t ^ 2)).
  assert (Hu : 0 < u) by apply givens_u_pos.
  assert (Huu : u * u = 1 + (Re b / Cabs a) * (Re b / Cabs a)
                        + (- Im b / Cabs a) * (- Im b / Cabs a))
    by (unfold u; rewrite givens_u_sqr; reflexivity).
  exists (mkC (Re a / Cabs a / u) (- Im a / Cabs a / u)),
         (mkC (Re t / u) (Im t / u)), (Cabs a * u).
  split; [| split; [| split]].
  - unfold _givens.
    destruct (Req_dec_T (Cabs b) 0) as [H | _]; [lra |].
    destruct (Req_dec_T (Cabs a) 0) as [H | _]; [lra |].
    destruct (Rgt_dec (Cabs b) (Cabs a)) as [H | _]; [contradiction |].
    rewrite (Cdiv_real_ok (Cconj b)) by lra. rewrite bind_Ok. cbv zeta.
    change (mkC (Re (Cconj b) / Cabs a) (Im (Cconj b) / Cabs a)) with t. fold u.
    rewrite (Cdiv_real_ok (Cconj a)) by lra. rewrite bind_Ok.
    rewrite (Cdiv_real_ok (mkC _ _)) by lra. rewrite bind_Ok.
    rewrite Cdiv_real_ok by lra. reflexivity.
  - rewrite !Cabs_pow2. unfold t. simpl.
    pose proof (scaled_rotation_unit (Re b) (- Im b) (Re a) (- Im a) (Cabs a) u) as H.
    lra.
  - apply Rmult_le_pos; lra.
  - unfold mat2_apply, rotation, RtoC, C0, t; simpl. f_equal; apply C_eq; simpl.
    + rewrite <- (scaled_rotation_modulus (Re b) (- Im b) (Re a) (- Im a) (Cabs a) u);
        try assumption; try lra.
      field. lra.
    + field. lra.
    + field. lra.
    + field. lra.
Qed.

(** Select the branch of [_givens] taken at [(a, b)]. *)
Ltac givens_cases a b :=
  let Ha := fresh "Ha" in
  let Hb := fresh "Hb" in
  destruct (Req_dec_T (Cabs b) 0) as [Hb | Hb];
  [ apply Cabs_eq_0 in Hb
  | assert (b <> C0) by (intros ->; apply Hb, Cabs_eq_0; reflexivity);
    destruct (Req_dec_T (Cabs a) 0) as [Ha | Ha];
    [ apply Cabs_eq_0 in Ha
    | assert (a <> C0) by (intros ->; apply Ha, Cabs_eq_0; reflexivity) ] ].

(** C5 (amended). For every pair of complex scalars [(a, b)] other than
    [(0, 0)], [_givens a b] returns [[c, s], [-conj(s), conj(c)]] with
    [|c|^2 + |s|^2 = 1], and the rotation maps [(a, b)] to [(r, 0)] with [r]
    real and non-negative. *)
Theorem givens_rotation_nonzero (a b : C) :
  a <> C0 \/ b <> C0 -> givens_spec a b.
Proof.
  intros Hab. givens_cases a b.
  - subst b. apply givens_branch_b0. destruct Hab as [H | H]; [exact H | contradiction].
  - subst a. apply givens_branch_a0. assumption.
  - destruct (Rgt_dec (Cabs b) (Cabs a)) as [Hgt | Hle].
    + apply givens_branch_b_gt; assumption.
    + apply givens_branch_a_ge; assumption.
Qed.

(** The pair [(3, 4)] is in the domain of [_givens]. *)
Lemma givens_rotation_nonzero_witness :
  (mkC 3 0 <> C0 \/ mkC 4 0 <> C0) /\ givens_spec (mkC 3 0) (mkC 4 0).
Proof.
  assert (H : mkC 3 0 <> C0 \/ mkC 4 0 <> C0).
  { left. intros E. apply (f_equal Re) in E. simpl in E. lra. }
  split; [exact H | exact (givens_rotation_nonzero (mkC 3 0) (mkC 4 0) H)].
Defined.

(** C5 as stated fails at [(0, 0)]: no rotation is returned there. *)
Lemma givens_zero_zero_no_rotation :
  _givens C0 C0 = Raise ZeroDivision /\ ~ givens_spec C0 C0.
Proof.
  split; [exact givens_zero_zero |].
  intros (c & s & r & H & _). rewrite givens_zero_zero in H. discriminate.
Qed.

(** C10. At [(0, 0)] the first branch divides by [r = abs(a) = 0] and no
    rotation is returned; [_givens] returns a rotation exactly on the pairs
    other than [(0, 0)]. *)
Theorem givens_domain :
  Cdiv_real (Cconj C0) (Cabs C0) = Raise ZeroDivision /\
  _givens C0 C0 = Raise ZeroDivision /\
  forall a b : C, (exists G, _givens a b = Ok G) <-> (a <> C0 \/ b <> C0).
Proof.
  assert (H0 : Cabs C0 = 0) by (apply Cabs_eq_0; reflexivity).
  split; [rewrite H0; apply Cdiv_real_0 |].
  split; [exact givens_zero_zero |].
  intros a b. split.
  - intros [G HG]. givens_cases a b.
    + left. intros ->. subst b. rewrite givens_zero_zero in HG. discriminate.
    + right. assumption.
    + right. assumption.
  - intros Hab.
    assert (Hs : givens_spec a b).
    { givens_cases a b.
      - subst b. apply givens_branch_b0. destruct Hab as [H | H]; [exact H | contradiction].
      - subst a. apply givens_branch_a0. assumption.
      - destruct (Rgt_dec (Cabs b) (Cabs a)) as [Hgt | Hle].
        + apply givens_branch_b_gt; assumption.
        + apply givens_branch_a_ge; assumption. }
    destruct Hs as (c & s & r & H & _). exists (rotation c s). exact H.
Qed.

(** ** Array arithmetic *)

Ltac Csolve := apply C_eq; simpl; ring.

Lemma Cadd_comm (a b : C) : (a + b)%C = (b + a)%C.
Proof. Csolve. Qed.

Lemma Cadd_assoc (a b c : C) : (a + (b + c))%C = ((a + b) + c)%C.
Proof. Csolve. Qed.

Lemma Cadd_0_r (a : C) : (a + C0)%C = a.
Proof. Csolve. Qed.

Lemma Cadd_0_l (a : C) : (C0 + a)%C = a.
Proof. Csolve. Qed.

Lemma Cmul_0_l (a : C) : (C0 * a)%C = C0.
Proof. Csolve. Qed.

Lemma Cmul_0_r (a : C) : (a * C0)%C = C0.
Proof. Csolve. Qed.

Lemma Cmul_1_r (a : C) : (a * C1)%C = a.
Proof. Csolve. Qed.

Lemma Cmul_1_l (a : C) : (C1 * a)%C = a.
Proof. Csolve. Qed.

Lemma Cconj_0 : Cconj C0 = C0.
Proof. Csolve. Qed.

Lemma vadd_nil_r (x : vec) : vadd x [] = x.
Proof. destruct x; reflexivity. Qed.

Lemma vadd_comm (x y : vec) : vadd x y = vadd y x.
Proof.
  revert y. induction x as [| a x IH]; intros [| b y]; simpl; try reflexivity.
  rewrite IH, Cadd_comm. reflexivity.
Qed.

Lemma vadd_assoc (x y z : vec) : vadd x (vadd y z) = vadd (vadd x y) z.
Proof.
  revert y z. induction x as [| a x IH]; intros [| b y] [| c z]; simpl; try reflexivity.
  rewrite IH, Cadd_assoc. reflexivity.
Qed.

Lemma vadd_length (x y : vec) : length (vadd x y) = Nat.max (length x) (length y).
Proof.
  revert y. induction x as [| a x IH]; intros [| b y]; simpl; try reflexivity.
  rewrite IH. reflexivity.
Qed.

Lemma vscale_length (c : C) (x : vec) : length (vscale c x) = length x.
Proof. apply length_map. Qed.

Lemma vsub_vadd (x y : vec) : vsub x y = vadd x (vscale (- C1)%C y).
Proof.
  revert y. induction x as [| a x IH]; intros [| b y]; simpl; try reflexivity.
  - f_equal; [Csolve |]. unfold vneg, vscale. apply map_ext. intros c. Csolve.
  - rewrite IH. f_equal. Csolve.
Qed.

Lemma vsub_length (x y : vec) : length (vsub x y) = Nat.max (length x) (length y).
Proof. rewrite vsub_vadd, vadd_length, vscale_length. reflexivity. Qed.

(** Subtracting a column and adding it back, on columns of one height. *)
Lemma vadd_vsub_cancel (x y : vec) :
  length y = length x -> vadd (vsub x y) y = x.
Proof.
  revert y. induction x as [| a x IH]; intros [| b y] Hlen; simpl in *;
    try reflexivity; try discriminate.
  rewrite IH by lia. f_equal. Csolve.
Qed.

Lemma vscale_zero (x : vec) : vscale C0 x = vzeros (length x).
Proof.
  unfold vscale, vzeros. induction x as [| a x IH]; simpl; [reflexivity |].
  rewrite IH, Cmul_0_l. reflexivity.
Qed.

Lemma vadd_vzeros_r (x : vec) (k : nat) :
  (k <= length x)%nat -> vadd x (vzeros k) = x.
Proof.
  revert k. induction x as [| a x IH]; intros [| k] Hk; simpl in *;
    try reflexivity; try lia.
  rewrite Cadd_0_r. fold (vzeros k). rewrite IH by lia. reflexivity.
Qed.

Lemma vadd_vzeros_same (j k : nat) :
  vadd (vzeros j) (vzeros k) = vzeros (Nat.max j k).
Proof.
  revert k. induction j as [| j IH]; intros [| k]; simpl; try reflexivity.
  rewrite Cadd_0_r. fold (vzeros j) (vzeros k). rewrite IH. reflexivity.
Qed.

Lemma vdiv_real_scale (x : vec) (d : R) :
  d <> 0 -> vdiv_real x d = Ok (vscale (RtoC (/ d)) x).
Proof.
  intros Hd. unfold vdiv_real. destruct (Req_dec_T d 0) as [H | _]; [contradiction |].
  apply f_equal. unfold vscale. apply map_ext. intros z.
  apply C_eq; simpl; field; exact Hd.
Qed.

Lemma vscale_vscale (c d : C) (x : vec) : vscale c (vscale d x) = vscale (c * d)%C x.
Proof. unfold vscale. rewrite map_map. apply map_ext. intros z. Csolve. Qed.

Lemma vscale_one (x : vec) : vscale C1 x = x.
Proof.
  unfold vscale. rewrite <- (map_id x) at 2. apply map_ext. intros z. Csolve.
Qed.

Lemma mat_vec_nil_r (A : matrix) : mat_vec A [] = [].
Proof. destruct A; reflexivity. Qed.

(** Columns beyond the coefficients supplied do not contribute. *)
Lemma mat_vec_app_l (A A' : matrix) (y : vec) :
  (length y <= length A)%nat -> mat_vec (A ++ A') y = mat_vec A y.
Proof.
  revert y. induction A as [| a A IH]; intros [| c y] Hlen; simpl in *;
    try reflexivity; try lia.
  - apply mat_vec_nil_r.
  - rewrite IH by lia. reflexivity.
Qed.

Lemma mat_vec_app (A A' : matrix) (y y' : vec) :
  length y = length A ->
  mat_vec (A ++ A') (y ++ y') = vadd (mat_vec A y) (mat_vec A' y').
Proof.
  revert y. induction A as [| a A IH]; intros [| c y] Hlen; simpl in *;
    try reflexivity; try discriminate.
  rewrite IH by lia. apply vadd_assoc.
Qed.

Lemma mat_vec_length (m : nat) (A : matrix) (y : vec) :
  rectangular m A -> (length (mat_vec A y) <= m)%nat.
Proof.
  intros HA. revert y. induction HA as [| a A Ha HA IH]; intros [| c y]; simpl; try lia.
  rewrite vadd_length, vscale_length, Ha. specialize (IH y). lia.
Qed.

(** Zero coefficients contribute a zero column. *)
Lemma mat_vec_vzeros (m : nat) (A : matrix) (k : nat) :
  rectangular m A -> exists j, (j <= m)%nat /\ mat_vec A (vzeros k) = vzeros j.
Proof.
  intros HA. revert k. induction HA as [| a A Ha HA IH]; intros [| k]; simpl.
  - exists O. split; [lia | reflexivity].
  - exists O. split; [lia | reflexivity].
  - exists O. split; [lia | reflexivity].
  - fold (vzeros k). destruct (IH k) as (j & Hj & Hz). rewrite Hz, vscale_zero, Ha.
    rewrite vadd_vzeros_same. exists (Nat.max m j). split; [lia | reflexivity].
Qed.

(** ** Gram-Schmidt QR factorisation *)

Section QR.

Variable inner_product : vec -> vec -> C.
Hypothesis Hip : sesquilinear inner_product.

Local Abbreviation ip := inner_product.

Lemma ip_sub_scale_r (x y z : vec) (r : C) :
  ip x (vsub y (vscale r z)) = (ip x y - r * ip x z)%C.
Proof.
  rewrite vsub_vadd, (ip_add_r _ Hip), vscale_vscale, (ip_scale_r _ Hip).
  Csolve.
Qed.

Lemma ip_zero_sym (x y : vec) : ip x y = C0 -> ip y x = C0.
Proof. intros H. rewrite (ip_conj _ Hip), H. apply Cconj_0. Qed.

Lemma orthonormal_app (A B : matrix) :
  orthonormal ip (A ++ B) ->
  orthonormal ip A /\ orthonormal ip B /\
  Forall (fun a => Forall (fun b => ip a b = C0) B) A.
Proof.
  induction A as [| a A IH]; simpl.
  - intros H. repeat split; [exact H | constructor].
  - intros (H1 & H2 & H3). apply Forall_app in H2. destruct H2 as [H2a H2b].
    destruct (IH H3) as (IA & IB & IAB).
    repeat split; try assumption. constructor; assumption.
Qed.

Lemma orthonormal_snoc (Q : matrix) (q : vec) :
  orthonormal ip Q -> Forall (fun p => ip p q = C0) Q -> ip q q = C1 ->
  orthonormal ip (Q ++ [q]).
Proof.
  induction Q as [| a Q IH]; simpl; intros HQ Hq H1.
  - repeat split; [exact H1 | constructor].
  - destruct HQ as (Ha & HaQ & HQ). inversion Hq as [| ? ? Haq HQq]; subst.
    repeat split; [exact Ha | | apply IH; assumption].
    apply Forall_app. split; [exact HaQ | constructor; [exact Haq | constructor]].
Qed.

Lemma gram_orthonormal (Q : matrix) :
  orthonormal ip Q -> gram ip Q Q = eye (length Q).
Proof.
  induction Q as [| q Q IH]; simpl; [reflexivity |].
  intros (H1 & H2 & H3). unfold gram in *. simpl. rewrite H1. f_equal.
  - f_equal. unfold vzeros. rewrite <- (length_map (fun x => ip x q) Q).
    apply Forall_eq_repeat. apply Forall_map.
    eapply Forall_impl; [| exact H2]. intros p Hp. symmetry. apply ip_zero_sym, Hp.
  - rewrite <- (IH H3), map_map. apply map_ext_in. intros y Hy.
    rewrite Forall_forall in H2. rewrite (H2 y Hy). reflexivity.
Qed.

(** After the inner loop the column is orthogonal to every finished one. *)
Lemma qr_column_orth (rest pre : matrix) (q q' : vec) (rs : list C) :
  orthonormal ip (pre ++ rest) ->
  Forall (fun p => ip p q = C0) pre ->
  qr_column ip rest q = (q', rs) ->
  Forall (fun p => ip p q' = C0) (pre ++ rest).
Proof.
  revert pre q q' rs. induction rest as [| qj rest IH]; intros pre q q' rs HQ Hpre Hrun.
  - simpl in Hrun. inversion Hrun; subst. rewrite app_nil_r. exact Hpre.
  - simpl in Hrun.
    destruct (qr_column ip rest (vsub q (vscale (ip qj q) qj))) as [q2 rs2] eqn:E.
    inversion Hrun; subst q' rs.
    replace (pre ++ qj :: rest) with ((pre ++ [qj]) ++ rest) in *
      by (rewrite <- app_assoc; reflexivity).
    apply (IH (pre ++ [qj]) (vsub q (vscale (ip qj q) qj)) q2 rs2 HQ); [| exact E].
    destruct (orthonormal_app _ _ HQ) as (Hpq & _ & _).
    destruct (orthonormal_app _ _ Hpq) as (_ & Hqj & Hcross).
    simpl in Hqj. destruct Hqj as (Hqj & _).
    apply Forall_app. split.
    + rewrite Forall_forall in *. intros p Hp. rewrite ip_sub_scale_r, (Hpre p Hp).
      specialize (Hcross p Hp). inversion Hcross as [| ? ? Hpqj _]; subst.
      rewrite Hpqj. Csolve.
    + constructor; [| constructor]. rewrite ip_sub_scale_r, Hqj. Csolve.
Qed.

(** The inner loop splits the column into the orthogonalised rest and its
    components along the finished columns. *)
Lemma qr_column_sum (m : nat) (Q : matrix) (q q' : vec) (rs : list C) :
  rectangular m Q -> length q = m ->
  qr_column ip Q q = (q', rs) ->
  length q' = m /\ length rs = length Q /\ q = vadd q' (mat_vec Q rs).
Proof.
  intros HQ. revert q q' rs.
  induction HQ as [| qj Q Hqj HQ IH]; intros q q' rs Hq Hrun; simpl in Hrun.
  - inversion Hrun; subst q' rs.
    split; [exact Hq | split; [reflexivity | rewrite vadd_nil_r; reflexivity]].
  - destruct (qr_column ip Q (vsub q (vscale (ip qj q) qj))) as [q2 rs2] eqn:E.
    inversion Hrun; subst q' rs.
    assert (Hlen : length (vsub q (vscale (ip qj q) qj)) = m)
      by (rewrite vsub_length, vscale_length; lia).
    destruct (IH _ _ _ Hlen E) as (H1 & H2 & H3).
    repeat split; [exact H1 | simpl; lia |].
    simpl. rewrite (vadd_comm (vscale _ _)), vadd_assoc, <- H3.
    rewrite vadd_vsub_cancel; [reflexivity | rewrite vscale_length; lia].
Qed.

(** Dividing by the square root of a real positive pivot gives a column
    of unit length. *)
Lemma normalise_unit (q : vec) :
  real_positive (ip q q) ->
  0 < sqrt (Cabs (ip q q)) /\
  ip (vscale (RtoC (/ sqrt (Cabs (ip q q)))) q)
     (vscale (RtoC (/ sqrt (Cabs (ip q q)))) q) = C1.
Proof.
  intros [Him Hre].
  assert (Habs : Cabs (ip q q) = Re (ip q q)).
  { unfold Cabs. rewrite Him. replace (Re (ip q q) * Re (ip q q) + 0 * 0)
      with (Re (ip q q) * Re (ip q q)) by ring. apply sqrt_square. lra. }
  rewrite Habs.
  assert (Hd : 0 < sqrt (Re (ip q q))) by (apply sqrt_lt_R0; exact Hre).
  assert (Hdd : sqrt (Re (ip q q)) * sqrt (Re (ip q q)) = Re (ip q q))
    by (apply sqrt_sqrt; lra).
  split; [exact Hd |].
  set (d := sqrt (Re (ip q q))) in *.
  rewrite (ip_scale_r _ Hip), (ip_conj _ Hip (vscale _ _) q), (ip_scale_r _ Hip).
  apply C_eq; simpl; rewrite Him.
  - rewrite <- Hdd. field. lra.
  - ring.
Qed.

Lemma qr_loop_spec (m n : nat) (Wrest : matrix) :
  forall Q R Wdone : matrix,
  rectangular m Q -> rectangular m Wrest -> orthonormal ip Q ->
  length Q = length Wdone -> length R = length Wdone ->
  n = (length Wdone + length Wrest)%nat ->
  (forall j, (j < length Wdone)%nat ->
     qr_column_inv n Q (nth j R []) (nth j Wdone []) j) ->
  Forall real_positive (qr_pivots_loop ip Q Wrest) ->
  exists Q' R',
    qr_loop ip n Q R Wrest = Ok (Q', R') /\
    rectangular m Q' /\ orthonormal ip Q' /\
    length Q' = n /\ length R' = n /\
    forall j, (j < n)%nat ->
      qr_column_inv n Q' (nth j R' []) (nth j (Wdone ++ Wrest) []) j.
Proof.
  induction Wrest as [| w rest IH]; intros Q R Wdone HQ HW Horth HlQ HlR Hn Hinv Hpiv.
  - exists Q, R. simpl in *. rewrite app_nil_r.
    repeat split; try assumption; try lia.
    intros j Hj. apply Hinv. lia.
  - simpl in Hpiv, Hn |- *. destruct (qr_column ip Q w) as [q rs] eqn:E.
    pose proof (Forall_inv HW) as Hw. pose proof (Forall_inv_tail HW) as HWrest.
    simpl in Hw.
    destruct (qr_column_sum m Q w q rs HQ Hw E) as (Hlq & Hlrs & Hsum).
    pose proof (Forall_inv Hpiv) as Hp. pose proof (Forall_inv_tail Hpiv) as Hpiv'.
    destruct (normalise_unit q Hp) as [Hd Hunit].
    set (d := sqrt (Cabs (ip q q))) in *.
    rewrite (vdiv_real_scale q d) in Hpiv' |- * by lra. rewrite bind_Ok.
    set (qn := vscale (RtoC (/ d)) q) in *.
    assert (Horth0 : Forall (fun p => ip p q = C0) Q).
    { pose proof (qr_column_orth Q [] w q rs) as H. simpl in H.
      apply H; [exact Horth | constructor | exact E]. }
    destruct (IH (Q ++ [qn]) (R ++ [r_column n rs d])
                (Wdone ++ [w])) as (Q' & R' & Hrun & HQ' & Horth' & HlQ' & HlR' & Hinv').
    + apply Forall_app. split; [exact HQ |].
      constructor; [| constructor]. unfold qn. rewrite vscale_length. exact Hlq.
    + exact HWrest.
    + apply orthonormal_snoc; [exact Horth | | exact Hunit].
      eapply Forall_impl; [| exact Horth0]. intros p Hp0. unfold qn.
      rewrite (ip_scale_r _ Hip), Hp0. Csolve.
    + rewrite !length_app. simpl. lia.
    + rewrite !length_app. simpl. lia.
    + rewrite length_app. simpl. lia.
    + intros j Hj. rewrite length_app in Hj. simpl in Hj.
      destruct (Nat.lt_ge_cases j (length Wdone)) as [Hlt | Hge].
      * rewrite !app_nth1 by lia.
        destruct (Hinv j Hlt) as (rs' & d' & Hrc & Hlrs' & Hd' & Hmv).
        exists rs', d'. repeat split; try assumption.
        rewrite mat_vec_app_l; [exact Hmv |]. rewrite length_app. simpl. lia.
      * assert (j = length Wdone) by lia. subst j.
        rewrite app_nth2 by lia. rewrite (app_nth2 Wdone) by lia.
        rewrite HlR, Nat.sub_diag. simpl.
        exists rs, d. repeat split; [lia | lra |].
        rewrite mat_vec_app by lia. simpl. rewrite vadd_nil_r. unfold qn.
        rewrite vscale_vscale.
        replace (RtoC d * RtoC (/ d))%C with C1 by (apply C_eq; simpl; field; lra).
        rewrite vscale_one, vadd_comm. symmetry. exact Hsum.
    + exact Hpiv'.
    + exists Q', R'. rewrite <- app_assoc in Hinv'. simpl in Hinv'.
      repeat split; assumption.
Qed.

End QR.

Lemma ipstd_add_r (x y z : vec) :
  _ipstd x (vadd y z) = (_ipstd x y + _ipstd x z)%C.
Proof.
  unfold _ipstd. revert y z.
  induction x as [| a x IH]; intros [| b y] [| c z]; simpl; try Csolve.
  rewrite IH. Csolve.
Qed.

Lemma ipstd_scale_r (c : C) (x y : vec) :
  _ipstd x (vscale c y) = (c * _ipstd x y)%C.
Proof.
  unfold _ipstd, vscale. revert y.
  induction x as [| a x IH]; intros [| b y]; simpl; try Csolve.
  rewrite IH. Csolve.
Qed.

Lemma ipstd_conj (x y : vec) : _ipstd x y = Cconj (_ipstd y x).
Proof.
  unfold _ipstd. revert y.
  induction x as [| a x IH]; intros [| b y]; simpl; try Csolve.
  rewrite IH. Csolve.
Qed.

Lemma ipstd_sesquilinear : sesquilinear _ipstd.
Proof.
  constructor; [exact ipstd_add_r | exact ipstd_scale_r | exact ipstd_conj].
Qed.

Lemma nth_r_column_diag (n : nat) (rs : list C) (d : R) :
  nth (length rs) (r_column n rs d) C0 = RtoC d.
Proof. unfold r_column. rewrite app_nth2 by lia. rewrite Nat.sub_diag. reflexivity. Qed.

Lemma nth_r_column_below (n i : nat) (rs : list C) (d : R) :
  (length rs < i)%nat -> nth i (r_column n rs d) C0 = C0.
Proof.
  intros Hi. unfold r_column. rewrite app_nth2 by lia.
  destruct (i - length rs)%nat as [| k] eqn:E; [lia |]. simpl.
  unfold vzeros. destruct (Nat.lt_ge_cases k (n - S (length rs))) as [Hk | Hk].
  - apply nth_repeat_lt. exact Hk.
  - apply nth_overflow. rewrite repeat_length. exact Hk.
Qed.

(** C7. For an inner product (a sesquilinear, conjugate-symmetric form) and
    an array [W] on which the Gram-Schmidt diagonal entries are real and
    positive, [qr W] returns [Q] and [R] with [W = Q.R] and
    [inner_product(Q, Q) = I]; [R] is upper triangular with a real
    non-negative diagonal. *)
Theorem qr_factorisation (inner_product : vec -> vec -> C) (m : nat) (W : matrix) :
  sesquilinear inner_product ->
  rectangular m W ->
  Forall real_positive (qr_pivots inner_product W) ->
  exists Q R,
    qr inner_product W = Ok (Q, R) /\
    mat_mul Q R = W /\
    gram inner_product Q Q = eye (length W) /\
    upper_triangular R /\ diagonal_nonneg R.
Proof.
  intros Hip HW Hpiv.
  destruct (qr_loop_spec inner_product Hip m (length W) W [] [] [])
    as (Q & R & Hrun & HQ & Horth & HlQ & HlR & Hinv);
    try reflexivity; try constructor; try exact HW; try exact Hpiv.
  { intros j Hj. simpl in Hj. lia. }
  simpl in Hinv. exists Q, R. split; [exact Hrun |]. split; [| split; [| split]].
  - unfold mat_mul. apply nth_ext with (d := []) (d' := []).
    + rewrite length_map. exact HlR.
    + rewrite length_map, HlR. intros j Hj.
      pose proof (map_nth (mat_vec Q) R [] j) as Hmap.
      rewrite mat_vec_nil_r in Hmap. rewrite Hmap.
      destruct (Hinv j Hj) as (rs & d & Hrc & Hlrs & Hd & Hmv).
      rewrite Hrc. unfold r_column.
      change (RtoC d :: vzeros (length W - S (length rs)))
        with ([RtoC d] ++ vzeros (length W - S (length rs))).
      rewrite app_assoc.
      assert (Hsplit : Q = firstn (S j) Q ++ skipn (S j) Q)
        by (symmetry; apply firstn_skipn).
      assert (Hlf : length (firstn (S j) Q) = S j)
        by (apply firstn_length_le; lia).
      assert (Hrect : rectangular m (firstn (S j) Q ++ skipn (S j) Q))
        by (rewrite <- Hsplit; exact HQ).
      apply Forall_app in Hrect. destruct Hrect as [_ Hskip].
      destruct (mat_vec_vzeros m (skipn (S j) Q) (length W - S (length rs)) Hskip)
        as (k & Hk & Hz).
      assert (Hwj : length (nth j W []) = m).
      { unfold rectangular in HW. rewrite Forall_forall in HW.
        apply HW. apply nth_In. exact Hj. }
      rewrite Hsplit in Hmv |- *.
      rewrite mat_vec_app_l in Hmv by (rewrite length_app, Hlf; simpl; lia).
      rewrite mat_vec_app by (rewrite length_app, Hlf; simpl; lia).
      rewrite Hmv, Hz. apply vadd_vzeros_r. lia.
  - rewrite <- HlQ. apply gram_orthonormal; assumption.
  - intros i j Hji. destruct (Nat.lt_ge_cases j (length W)) as [Hj | Hj].
    + destruct (Hinv j Hj) as (rs & d & Hrc & Hlrs & _).
      rewrite Hrc. apply nth_r_column_below. lia.
    + rewrite (nth_overflow R) by lia. destruct i; reflexivity.
  - intros i Hi. rewrite HlR in Hi.
    destruct (Hinv i Hi) as (rs & d & Hrc & Hlrs & Hd & _).
    exists d. split; [exact Hd |]. rewrite Hrc, <- Hlrs. apply nth_r_column_diag.
Qed.

Lemma sqrt_Cabs_C1 : sqrt (Cabs C1) = 1.
Proof.
  unfold Cabs, C1; simpl. replace (1 * 1 + 0 * 0) with 1 by ring.
  rewrite sqrt_1. apply sqrt_1.
Qed.

Lemma W_example_pivots : Forall real_positive (qr_pivots _ipstd W_example).
Proof.
  unfold qr_pivots, W_example.
  cbn [qr_pivots_loop qr_column].
  assert (E0 : _ipstd [C1; C0] [C1; C0] = C1) by (apply C_eq; simpl; ring).
  rewrite E0, sqrt_Cabs_C1.
  rewrite vdiv_real_scale by lra.
  replace (vscale (RtoC (/ 1)) [C1; C0]) with [C1; C0]
    by (unfold vscale; simpl; repeat f_equal; apply C_eq; simpl; field).
  cbn [app qr_pivots_loop qr_column].
  assert (E1 : _ipstd [C1; C0] [C1; C1] = C1) by (apply C_eq; simpl; ring).
  rewrite E1.
  replace (vsub [C1; C1] (vscale C1 [C1; C0])) with [C0; C1]
    by (unfold vscale; simpl; repeat f_equal; apply C_eq; simpl; ring).
  assert (E2 : _ipstd [C0; C1] [C0; C1] = C1) by (apply C_eq; simpl; ring).
  rewrite E2, sqrt_Cabs_C1.
  assert (Hpos : real_positive C1) by (split; simpl; lra).
  constructor; [exact Hpos |]. constructor; [exact Hpos |].
  destruct (vdiv_real [C0; C1] 1); constructor.
Qed.

(** The factorisation of [W_example] under the Euclidean inner product. *)
Lemma qr_factorisation_witness :
  sesquilinear _ipstd /\
  rectangular 2 W_example /\
  Forall real_positive (qr_pivots _ipstd W_example) /\
  exists Q R,
    qr _ipstd W_example = Ok (Q, R) /\
    mat_mul Q R = W_example /\
    gram _ipstd Q Q = eye (length W_example) /\
    upper_triangular R /\ diagonal_nonneg R.
Proof.
  assert (Hrect : rectangular 2 W_example) by (repeat constructor).
  split; [exact ipstd_sesquilinear |].
  split; [exact Hrect |].
  split; [exact W_example_pivots |].
  exact (qr_factorisation _ipstd 2 W_example
           ipstd_sesquilinear Hrect W_example_pivots).
Defined.

(** ** Deflation projector *)

Section Projection.

Variable inner_product : vec -> vec -> C.
Hypothesis Hip : sesquilinear inner_product.

Local Abbreviation ip := inner_product.

Lemma ip_nil_r (x : vec) : ip x [] = C0.
Proof.
  change (@nil C) with (vscale C0 []). rewrite (ip_scale_r _ Hip). Csolve.
Qed.

Lemma vadd_map (A : Type) (f g : A -> C) (l : list A) :
  vadd (map f l) (map g l) = map (fun a => (f a + g a)%C) l.
Proof. induction l as [| a l IH]; simpl; [reflexivity | rewrite IH; reflexivity]. Qed.

Lemma vzeros_map (A : Type) (l : list A) :
  map (fun _ => C0) l = vzeros (length l).
Proof. induction l as [| a l IH]; simpl; [reflexivity | rewrite IH; reflexivity]. Qed.

(** [<X, W z> = <X, W> z], up to the height of the result. *)
Lemma ip_col_mat_vec (X W : matrix) (z : vec) :
  ip_col ip X (mat_vec W z) = vadd (vzeros (length X)) (mat_vec (gram ip X W) z).
Proof.
  unfold ip_col, gram. revert z. induction W as [| w W IH]; intros z.
  - simpl. rewrite vadd_nil_r, <- vzeros_map. apply map_ext. intros a. apply ip_nil_r.
  - destruct z as [| c z].
    + simpl. rewrite vadd_nil_r, <- vzeros_map. apply map_ext. intros a. apply ip_nil_r.
    + cbn [mat_vec map].
      set (S := vscale c (map (fun x => ip x w) X)).
      set (Z := vzeros (length X)).
      rewrite (vadd_assoc Z S), (vadd_comm Z S), <- (vadd_assoc S Z).
      unfold Z. rewrite <- IH.
      rewrite (map_ext _ (fun a => (c * ip a w + ip a (mat_vec W z))%C)).
      2: { intros a. rewrite (ip_add_r _ Hip), (ip_scale_r _ Hip). reflexivity. }
      unfold S, vscale. rewrite map_map, vadd_map. reflexivity.
Qed.

Lemma vadd_vscale_opp (y : vec) : vadd y (vscale (- C1)%C y) = vzeros (length y).
Proof.
  unfold vscale, vzeros. induction y as [| a y IH]; simpl; [reflexivity |].
  rewrite IH. f_equal. Csolve.
Qed.

(** The projected column has no component along [AW]. *)
Lemma Pfun_orthogonal (solve : matrix -> vec -> result vec) (W AW : matrix) (x : vec) :
  length AW = length W ->
  self_adjoint_on ip W AW ->
  solves solve (gram ip W AW) ->
  exists Px, Pfun solve ip W AW x = Ok Px /\
             ip_col ip AW Px = vzeros (length AW).
Proof.
  intros Hlen Hsa Hsolve.
  assert (Hy : length (ip_col ip AW x) = length (gram ip W AW))
    by (unfold ip_col, gram; rewrite !length_map; reflexivity).
  destruct (Hsolve _ Hy) as (z & Hz & HEz).
  exists (vsub x (mat_vec W z)). split.
  - unfold Pfun, _direct_solve. rewrite Hz. reflexivity.
  - rewrite vsub_vadd. unfold ip_col at 1.
    rewrite (map_ext _ (fun a => (ip a x + (- C1) * ip a (mat_vec W z))%C)).
    2: { intros a. rewrite (ip_add_r _ Hip), (ip_scale_r _ Hip). reflexivity. }
    rewrite <- (vadd_map _ (fun a => ip a x) (fun a => (- C1 * ip a (mat_vec W z))%C)).
    rewrite <- (map_map (fun a => ip a (mat_vec W z)) (Cmul (- C1)%C)).
    fold (ip_col ip AW x). fold (ip_col ip AW (mat_vec W z)).
    fold (vscale (- C1)%C (ip_col ip AW (mat_vec W z))).
    rewrite ip_col_mat_vec, Hsa, HEz.
    rewrite (vadd_comm (vzeros _)), vadd_vzeros_r
      by (unfold ip_col; rewrite length_map; lia).
    rewrite vadd_vscale_opp. unfold ip_col. rewrite length_map. reflexivity.
Qed.

End Projection.

(** C8. When [A] is self-adjoint on [W] (so that [E = <W, AW>] is
    Hermitian) and [E] is invertible, the projector [P] of [get_projection]
    satisfies [<AW, P(x)> = 0] for every [x], and the adapted initial guess
    is [P x0 + W E^{-1} <W, b>]. *)
Theorem get_projection_deflates (solve : matrix -> vec -> result vec)
    (inner_product : vec -> vec -> C) (W AW : matrix) (b x0 : vec) :
  sesquilinear inner_product ->
  length AW = length W ->
  self_adjoint_on inner_product W AW ->
  solves solve (gram inner_product W AW) ->
  exists P x0new Px0 EWb,
    get_projection solve inner_product W AW b x0 = Ok (P, x0new) /\
    (forall x, exists Px,
        P x = Ok Px /\ ip_col inner_product AW Px = vzeros (length AW)) /\
    P x0 = Ok Px0 /\
    mat_vec (gram inner_product W AW) EWb = ip_col inner_product W b /\
    x0new = vadd Px0 (mat_vec W EWb).
Proof.
  intros Hip Hlen Hsa Hsolve.
  assert (Hb : length (ip_col inner_product W b) = length (gram inner_product W AW))
    by (unfold ip_col, gram; rewrite !length_map; symmetry; exact Hlen).
  destruct (Hsolve _ Hb) as (EWb & HEWb & HE).
  destruct (Pfun_orthogonal inner_product Hip solve W AW x0 Hlen Hsa Hsolve)
    as (Px0 & HPx0 & _).
  exists (Pfun solve inner_product W AW), (vadd Px0 (mat_vec W EWb)), Px0, EWb.
  split; [| split; [| split; [| split]]].
  - unfold get_projection, _direct_solve. rewrite HEWb, bind_Ok.
    cbv zeta. rewrite HPx0. reflexivity.
  - intros x. apply (Pfun_orthogonal inner_product Hip); assumption.
  - exact HPx0.
  - exact HE.
  - reflexivity.
Qed.

Lemma deflation_example_self_adjoint :
  self_adjoint_on _ipstd W_deflation AW_deflation.
Proof.
  unfold self_adjoint_on, gram, W_deflation, AW_deflation. simpl.
  do 2 (apply (f_equal2 cons); [| reflexivity]). apply C_eq; simpl; ring.
Qed.

Lemma deflation_example_solves :
  solves solve_1x1 (gram _ipstd W_deflation AW_deflation).
Proof.
  intros y Hy. unfold gram, W_deflation, AW_deflation in *. simpl in Hy.
  destruct y as [| c [| c' y]]; simpl in Hy; try discriminate.
  cbn [map solve_1x1].
  assert (He : Re (_ipstd [C1; C0] [RtoC 2; C0]) = 2) by (simpl; ring).
  rewrite He, Cdiv_real_ok by lra. rewrite bind_Ok.
  eexists. split; [reflexivity |].
  cbn [mat_vec vscale map]. rewrite vadd_nil_r. f_equal.
  apply C_eq; simpl; field.
Qed.

(** The projector for the basis [W_deflation] under the Euclidean inner
    product, with right-hand side [(1, 1)] and initial guess [0]. *)
Lemma get_projection_deflates_witness :
  sesquilinear _ipstd /\
  length AW_deflation = length W_deflation /\
  self_adjoint_on _ipstd W_deflation AW_deflation /\
  solves solve_1x1 (gram _ipstd W_deflation AW_deflation) /\
  exists P x0new Px0 EWb,
    get_projection solve_1x1 _ipstd W_deflation AW_deflation [C1; C1] [C0; C0]
      = Ok (P, x0new) /\
    (forall x, exists Px,
        P x = Ok Px /\ ip_col _ipstd AW_deflation Px = vzeros (length AW_deflation)) /\
    P [C0; C0] = Ok Px0 /\
    mat_vec (gram _ipstd W_deflation AW_deflation) EWb
      = ip_col _ipstd W_deflation [C1; C1] /\
    x0new = vadd Px0 (mat_vec W_deflation EWb).
Proof.
  split; [exact ipstd_sesquilinear |].
  split; [reflexivity |].
  split; [exact deflation_example_self_adjoint |].
  split; [exact deflation_example_solves |].
  exact (get_projection_deflates solve_1x1 _ipstd W_deflation AW_deflation
           [C1; C1] [C0; C0] ipstd_sesquilinear eq_refl
           deflation_example_self_adjoint deflation_example_solves).
Defined.

(** ** Ritz pairs *)

(** Reduce an equation between explicit arrays to its entries. *)
Ltac list_eq :=
  repeat match goal with
         | |- _ :: _ = _ :: _ => apply (f_equal2 cons)
         | |- [] = [] => reflexivity
         end.

Lemma sqrt_Cabs_real (r : R) : 0 <= r -> sqrt (Cabs (RtoC (r * r))) = r.
Proof.
  intros Hr. rewrite Cabs_RtoC by nra. apply sqrt_square. exact Hr.
Qed.

(** The decomposition handed to [get_ritz] is an eigendecomposition of
    [[41, 12], [12, 34]]: unit eigenvectors for the eigenvalues 25 and 50. *)
Lemma eigh_ritz_eigenpairs :
  mat_mul ritzmat_ritz U_ritz
  = map (fun p => vscale (RtoC (fst p)) (snd p)) (combine lam_ritz U_ritz) /\
  gram _ipstd U_ritz U_ritz = eye 2 /\
  ascending lam_ritz.
Proof.
  unfold ritzmat_ritz, U_ritz, lam_ritz, mat_mul, gram. cbn.
  repeat split; try lra; list_eq; apply C_eq; simpl; lra.
Qed.

(** Without deflation vectors the matrix assembled by [get_ritz] from
    [Hfull_ritz] is [[41, 12], [12, 34]]. *)
Lemma ritz_matrix_ritz :
  ritz_matrix [] [[]; []] [] Hfull_ritz [] = ritzmat_ritz.
Proof. reflexivity. Qed.

Lemma argsort_ritz : argsort (map Rabs lam_ritz) = [0%nat; 1%nat].
Proof.
  unfold argsort, lam_ritz. cbn.
  rewrite !Rabs_pos_eq by lra.
  destruct (Rle_dec 25 50) as [_ | H]; [reflexivity | lra].
Qed.

Lemma ritz_residual_25 :
  ritz_residual [] [[]; []] Hfull_ritz (eye 3) 25 []
    [RtoC (3 / 5); RtoC (- 4 / 5)] = 4.
Proof.
  unfold ritz_residual, Hfull_ritz. cbn.
  etransitivity; [| apply (sqrt_Cabs_real 4); lra].
  do 2 f_equal. apply C_eq; simpl; lra.
Qed.

Lemma ritz_residual_50 :
  ritz_residual [] [[]; []] Hfull_ritz (eye 3) 50 []
    [RtoC (4 / 5); RtoC (3 / 5)] = 3.
Proof.
  unfold ritz_residual, Hfull_ritz. cbn.
  etransitivity; [| apply (sqrt_Cabs_real 3); lra].
  do 2 f_equal. apply C_eq; simpl; lra.
Qed.

(** C1 (failing input). Without deflation vectors and with the Lanczos data
    [Vfull_ritz], [Hfull_ritz], [get_ritz] returns the Ritz values 25 and 50
    in the order of their moduli; the residual norms come back as 4 and 3,
    which is not ascending. *)
Theorem get_ritz_residuals_not_ascending :
  exists ritz_vecs,
    get_ritz inv_unused eigh_ritz _ipstd [] [] Vfull_ritz Hfull_ritz None
    = Ok ([25; 50], ritz_vecs, [4; 3]) /\
    ~ ascending [4; 3].
Proof.
  eexists. split.
  - unfold get_ritz, eigh_ritz.
    cbn [length Nat.ltb Nat.leb bind fst snd].
    rewrite argsort_ritz. cbn [map].
    apply f_equal. apply f_equal2; [apply f_equal2; reflexivity |].
    apply (f_equal2 cons); [exact ritz_residual_25 |].
    apply (f_equal2 cons); [exact ritz_residual_50 | reflexivity].
  - simpl. lra.
Qed.

(** ** Newton's method *)

Lemma norm_singleton (a : C) : _norm _ipstd [a] None = Ok (Cabs a).
Proof.
  unfold _norm, _norm_squared, _ipstd. simpl vdot.
  set (rho := (Cconj a * a + C0)%C).
  assert (Him : Im rho = 0) by (unfold rho; simpl; ring).
  assert (Hre : Re rho = Re a * Re a + Im a * Im a) by (unfold rho; simpl; ring).
  destruct (Rgt_dec (Rabs (Im rho)) (Cabs rho * tol_imag)) as [H | _].
  - exfalso. rewrite Him, Rabs_R0 in H. pose proof (Cabs_nonneg rho).
    unfold tol_imag in H. nra.
  - destruct (Rlt_dec (Re rho) 0) as [H | _]; [rewrite Hre in H; nra |].
    rewrite bind_Ok, Hre. reflexivity.
Qed.

Lemma eqb_unknown (name : string) :
  ~ In name known_forcing_terms ->
  String.eqb name "constant" = false /\
  String.eqb name "type 1" = false /\
  String.eqb name "type 2" = false.
Proof.
  intros H. unfold known_forcing_terms in H. simpl in H.
  repeat split; apply String.eqb_neq; intros ->; apply H; auto.
Qed.

Lemma forcing_eta_first (cfg : newton_config) (Fx_norms : list R)
    (out : option solver_out) :
  forcing_eta cfg None Fx_norms out = Ok (eta0 cfg).
Proof. reflexivity. Qed.

Lemma forcing_eta_unknown (cfg : newton_config) (eta_prev : R)
    (Fx_norms : list R) (out : option solver_out) :
  ~ In (forcing_term cfg) known_forcing_terms ->
  forcing_eta cfg (Some eta_prev) Fx_norms out = Raise ValueError.
Proof.
  intros H. destruct (eqb_unknown _ H) as (H1 & H2 & H3).
  unfold forcing_eta. rewrite H1, H2, H3. reflexivity.
Qed.

(** Every completed step records the forcing term it used. *)
Lemma newton_step_eta_previous (la : linalg) (me : model_evaluator)
    (cfg : newton_config) (linear_solver : linear_solver_type)
    (st st1 : newton_state) :
  newton_step la me cfg linear_solver st = Ok st1 ->
  exists eta, ns_eta_previous st1 = Some eta.
Proof.
  unfold newton_step. intros H.
  repeat match type of H with
         | bind ?m _ = Ok _ => destruct m; simpl bind in H; [| discriminate]
         end.
  inversion H. simpl. eexists. reflexivity.
Qed.

(** One step of [newton] on the model problem from [x0 = 0]. *)
Lemma shift_first_step (ft : string) (n : nat) (s : linear_solver_type)
    (o : solver_out) (d : C) :
  s (fun v => v) [(- (C0 - C1))%C] [C0] None None None (1 / 10) _ipstd false = Ok o ->
  xk o = [d] -> Vfull o = None ->
  newton_step la_unused me_shift (cfg_default ft n) s shift_state0
  = Ok (shift_state1 o d).
Proof.
  intros Hs Hxk HV. unfold newton_step, shift_state0. cbn.
  rewrite Hs. cbn. rewrite HV, Hxk. cbn.
  rewrite norm_singleton. reflexivity.
Qed.

Lemma Cabs_shift_start : Cabs (C0 - C1) = 1.
Proof.
  replace (C0 - C1)%C with (RtoC (-1)) by Csolve.
  unfold Cabs, RtoC; simpl. replace (-1 * -1 + 0 * 0) with (1 * 1) by ring.
  apply sqrt_square. lra.
Qed.

Lemma Cabs_shift_exact : Cabs (C0 + - (C0 - C1) - C1) = 0.
Proof. apply Cabs_eq_0. Csolve. Qed.

Lemma Cabs_shift_half : Cabs (C0 + RtoC (1 / 2) * - (C0 - C1) - C1) = 1 / 2.
Proof.
  replace (C0 + RtoC (1 / 2) * - (C0 - C1) - C1)%C with (RtoC (- (1 / 2)))
    by (apply C_eq; simpl; lra).
  unfold Cabs, RtoC; simpl.
  replace (- (1 / 2) * - (1 / 2) + 0 * 0) with ((1 / 2) * (1 / 2)) by lra.
  apply sqrt_square. lra.
Qed.

(** With a budget of one step and the exact linear solver, [newton]
    reaches the solution in its only step, whatever the forcing term is
    called. *)
Lemma newton_shift_one_step (ft : string) :
  newton la_unused me_shift (cfg_default ft 1) exact_solver None [C0]
  = Ok ([(C0 + - (C0 - C1))%C], 1%Z,
        [Cabs (C0 - C1); Cabs (C0 + - (C0 - C1) - C1)], [[1; 0]]).
Proof.
  unfold newton. cbn [compute_f me_shift me_inner_product vsub vneg map].
  rewrite norm_singleton, bind_Ok. fold shift_state0.
  cbn [newton_maxiter cfg_default newton_loop].
  unfold shift_state0 at 1. cbn [ns_Fx_norms last1 last nonlinear_tol].
  destruct (Rgt_dec _ _) as [_ | H];
    [| exfalso; apply H; rewrite Cabs_shift_start; cbn; lra].
  rewrite (shift_first_step ft 1 exact_solver
             {| xk := [(- (C0 - C1))%C]; info := 0; relresvec := [1; 0];
                Vfull := None; Hfull := None; Pfull := None |}
             (- (C0 - C1))%C) by reflexivity.
  reflexivity.
Qed.

(** C2 (failing input). On [F(x) = x - 1] from [x0 = 0], with a budget of
    one Newton step and the exact linear solver, the residual norms are
    [1, 0]: the iteration has converged, and the error code is 1. *)
Theorem newton_converged_at_budget_error_code :
  exists x linear_relresvecs,
    newton la_unused me_shift (cfg_default "constant" 1) exact_solver None [C0]
    = Ok (x, 1%Z, [1; 0], linear_relresvecs) /\
    last1 [1; 0] <= nonlinear_tol (cfg_default "constant" 1).
Proof.
  rewrite newton_shift_one_step, Cabs_shift_start, Cabs_shift_exact.
  eexists. eexists. split; [reflexivity |].
  unfold last1. cbn. lra.
Qed.

(** For a forcing term of unknown name, a run that enters a second step
    raises [ValueError] at the start of that step. *)
Lemma unknown_forcing_term_second_step (la : linalg) (me : model_evaluator)
    (cfg : newton_config) (linear_solver : linear_solver_type)
    (st st1 : newton_state) (remaining : nat) :
  ~ In (forcing_term cfg) known_forcing_terms ->
  newton_step la me cfg linear_solver st = Ok st1 ->
  last1 (ns_Fx_norms st1) > nonlinear_tol cfg ->
  newton_loop la me cfg linear_solver (S remaining) st1 = Raise ValueError.
Proof.
  intros Hname Hstep Hres.
  destruct (newton_step_eta_previous _ _ _ _ _ _ Hstep) as [eta Heta].
  cbn [newton_loop].
  destruct (Rgt_dec (last1 (ns_Fx_norms st1)) (nonlinear_tol cfg)) as [_ | H];
    [| contradiction].
  unfold newton_step. rewrite Heta, (forcing_eta_unknown _ _ _ _ Hname).
  reflexivity.
Qed.

Lemma newton_loop_S (la : linalg) (me : model_evaluator) (cfg : newton_config)
    (linear_solver : linear_solver_type) (remaining : nat) (st : newton_state) :
  newton_loop la me cfg linear_solver (S remaining) st
  = if Rgt_dec (last1 (ns_Fx_norms st)) (nonlinear_tol cfg) then
      st' <- newton_step la me cfg linear_solver st ;;
      newton_loop la me cfg linear_solver remaining st'
    else Ok st.
Proof. reflexivity. Qed.

Lemma shift_state0_above (ft : string) (n : nat) :
  last1 (ns_Fx_norms shift_state0) > nonlinear_tol (cfg_default ft n).
Proof. unfold shift_state0, last1. cbn. rewrite Cabs_shift_start. lra. Qed.

(** C3 (failing input). On [F(x) = x - 1] from [x0 = 0] with the default
    budget of 20 steps and the forcing term ['adaptive'], which [newton]
    does not know: the first step calls the linear solver with the
    tolerance [eta0]; with a solver that returns the exact correction the
    run converges in that step and returns with error code 0, and no
    [ValueError] is raised.  With a solver that stops half way the same
    name is rejected by [ValueError], at the start of the second step. *)
Theorem newton_unknown_forcing_term_runs :
  ~ In "adaptive"%string known_forcing_terms /\
  newton la_unused me_shift (cfg_default "adaptive" 20) recording_solver None
         [C0]
  = Ok ([(C0 + - (C0 - C1))%C], 0%Z, [1; 0],
        [[1; eta0 (cfg_default "adaptive" 20)]]) /\
  newton la_unused me_shift (cfg_default "adaptive" 20) half_solver None [C0]
  = Raise ValueError.
Proof.
  assert (Hname : ~ In (forcing_term (cfg_default "adaptive" 20))
                       known_forcing_terms).
  { unfold known_forcing_terms. simpl. intros [H | [H | [H | []]]]; discriminate. }
  split; [exact Hname |]. split.
  - unfold newton. cbn [compute_f me_shift me_inner_product vsub vneg map].
    rewrite norm_singleton, bind_Ok. fold shift_state0.
    cbn [newton_maxiter cfg_default].
    rewrite (newton_loop_S _ _ _ _ 19).
    destruct (Rgt_dec _ _) as [_ | H];
      [| exfalso; apply H; apply shift_state0_above].
    rewrite (shift_first_step "adaptive" 20 recording_solver
               {| xk := [(- (C0 - C1))%C]; info := 0; relresvec := [1; 1 / 10];
                  Vfull := None; Hfull := None; Pfull := None |}
               (- (C0 - C1))%C) by reflexivity.
    rewrite bind_Ok, (newton_loop_S _ _ _ _ 18).
    unfold shift_state1 at 1. cbn [ns_Fx_norms last1 last].
    destruct (Rgt_dec _ _) as [H | _];
      [exfalso; rewrite Cabs_shift_exact in H; cbn in H; lra |].
    rewrite bind_Ok. unfold shift_state1.
    cbn [ns_x ns_k ns_Fx_norms ns_linear_relresvecs Nat.eqb app relresvec].
    rewrite Cabs_shift_start, Cabs_shift_exact. reflexivity.
  - unfold newton. cbn [compute_f me_shift me_inner_product vsub vneg map].
    rewrite norm_singleton, bind_Ok. fold shift_state0.
    cbn [newton_maxiter cfg_default].
    rewrite (newton_loop_S _ _ _ _ 19).
    destruct (Rgt_dec _ _) as [_ | H];
      [| exfalso; apply H; apply shift_state0_above].
    rewrite (shift_first_step "adaptive" 20 half_solver
               {| xk := [(RtoC (1 / 2) * - (C0 - C1))%C]; info := 0%Z;
                  relresvec := [1; 1 / 2];
                  Vfull := None; Hfull := None; Pfull := None |}
               (RtoC (1 / 2) * - (C0 - C1))%C) by reflexivity.
    rewrite bind_Ok.
    rewrite (unknown_forcing_term_second_step la_unused me_shift
               (cfg_default "adaptive" 20) half_solver shift_state0 _ 18 Hname).
    + reflexivity.
    + apply shift_first_step; reflexivity.
    + unfold last1. cbn. rewrite Cabs_shift_half. lra.
Qed.

Lemma limit_maxiter_some_capped (m : Z) (n : nat) :
  n <> O ->
  exists m', limit_maxiter (Some m) n = Ok (Some m') /\
             (2 * 16 * m' * Z.of_nat n <= maxmem)%Z.
Proof.
  intros Hn. unfold limit_maxiter.
  destruct (Z.of_nat n =? 0)%Z eqn:E; [apply Z.eqb_eq in E; lia |].
  eexists. split; [reflexivity |].
  assert (Hpos : (0 < 2 * 16 * Z.of_nat n)%Z) by lia.
  pose proof (Z.mul_div_le maxmem _ Hpos) as Hdiv.
  pose proof (Z.le_min_r m (maxmem / (2 * 16 * Z.of_nat n))) as Hmin.
  nia.
Qed.

(** C4 (failing input). With the default [linear_solver_maxiter = None] the
    minimum taken by [newton] is [None] again: the solver is handed no
    limit and falls back to [N] steps, which for [N = 5000] exceeds the
    budget of 0.5 GiB. *)
Theorem limit_maxiter_default_uncapped :
  (forall n, n <> O -> limit_maxiter None n = Ok None) /\
  limit_maxiter None 5000 = Ok None /\
  (2 * 16 * solver_maxiter None 5000 * Z.of_nat 5000 > maxmem)%Z.
Proof.
  split; [| split].
  - intros n Hn. unfold limit_maxiter.
    destruct (Z.of_nat n =? 0)%Z eqn:E; [apply Z.eqb_eq in E; lia | reflexivity].
  - reflexivity.
  - reflexivity.
Qed.

(** ** Residual policy of MINRES and GMRES *)

Lemma last1_snoc (l : list R) (r : R) : last1 (l ++ [r]) = r.
Proof. unfold last1. apply last_last. Qed.

Lemma last_entry_snoc (l : list fl) (r : fl) : last_entry (l ++ [r]) = r.
Proof. unfold last_entry. apply last_last. Qed.

Lemma replace_last_snoc (l : list fl) (r r' : fl) :
  replace_last (l ++ [r]) r' = l ++ [r'].
Proof. unfold replace_last. rewrite removelast_last. reflexivity. Qed.

Lemma float_eps_pos : 0 < float_eps.
Proof. unfold float_eps. apply Rinv_0_lt_compat. lra. Qed.

Lemma py_max_Num (a e : R) : py_max a (Num e) = Num (Rmax a e).
Proof.
  unfold py_max. cbn [fl_gt_dec].
  destruct (Rgt_dec e a) as [H | H].
  - rewrite Rmax_right by lra. reflexivity.
  - rewrite Rmax_left by lra. reflexivity.
Qed.

Lemma py_max_PInf (a : R) : py_max a PInf = PInf.
Proof. reflexivity. Qed.

Lemma py_max_NaN (a : R) : py_max a NaN = Num a.
Proof. reflexivity. Qed.

(** The floor is a lower bound of what is stored, which is never [nan]. *)
Lemma py_max_ge (a : R) (x : fl) : fl_ge (py_max a x) a.
Proof.
  destruct x as [e | |]; rewrite ?py_max_Num; cbn.
  - pose proof (Rmax_l a e). lra.
  - exact I.
  - lra.
Qed.

(** Flooring keeps an entry above the tolerance above it. *)
Lemma py_max_gt (a t : R) (x : fl) : fl_gt x t -> fl_gt (py_max a x) t.
Proof.
  destruct x as [e | |]; rewrite ?py_max_Num; cbn; try tauto.
  intros H. pose proof (Rmax_r a e). lra.
Qed.

(** Run the residual bookkeeping of one iteration symbolically: every
    decision of the code becomes a case. *)
Ltac policy_cases H :=
  repeat first
    [ progress cbn [bind negb orb fst snd fl_le_dec fl_lt_dec fl_gt_dec
                    fl_ge_dec] in H
    | rewrite last_entry_snoc in H
    | rewrite replace_last_snoc in H
    | discriminate H
    | match type of H with
      | context [Rle_dec ?a ?b] => destruct (Rle_dec a b)
      | context [Rlt_dec ?a ?b] => destruct (Rlt_dec a b)
      | context [Rgt_dec ?a ?b] => destruct (Rgt_dec a b)
      | context [Rge_dec ?a ?b] => destruct (Rge_dec a b)
      | context [iterate ?K ?s] =>
          let s' := fresh "s" in
          let Hs := fresh "Hs" in
          destruct (iterate K s) as [s' |] eqn:Hs
      | context [explicit_residual_norm ?K ?s] =>
          let e := fresh "e" in
          let He := fresh "He" in
          destruct (explicit_residual_norm K s) as [[e | |] |] eqn:He
      | context [updated_residual ?K ?s] =>
          let u := fresh "u" in
          let Hu := fresh "Hu" in
          destruct (updated_residual K s) as [u | |] eqn:Hu
      | context [(?a =? ?b)%nat] =>
          let Hm := fresh "Hm" in
          destruct (a =? b)%nat eqn:Hm
      end ].

Section ResidualPolicy.

Variable K : krylov_kernel.
Variable tol : R.
Variable maxiter : nat.
Variable explicit_residual : bool.

Local Abbreviation mstep := (minres_iteration K tol maxiter explicit_residual).
Local Abbreviation gstep := (gmres_iteration K tol maxiter explicit_residual).

(** One MINRES iteration started with [info = 0] and [r + 1] iterations
    left: either the budget ends here with [info = 1], or [info] stays 0
    and the new last entry is certified, or still above the tolerance, or
    the residual of this iteration is [nan]. *)
Lemma minres_iteration_spec (st st' : solver_state K) (r : nat) :
  (ss_k st + S r = maxiter)%nat ->
  ss_info st = 0%Z ->
  mstep st = Ok st' ->
  ss_k st' = S (ss_k st) /\
  ((ss_info st' = 1%Z /\ r = O) \/
   (ss_info st' = 0%Z /\
    (minres_certified tol st' \/
     (fl_gt (last_entry (ss_relresvec st')) tol /\ r <> O) \/
     residual_nan explicit_residual st'))).
Proof.
  intros Hk Hinfo Hstep. unfold minres_iteration in Hstep.
  assert (Hlast : (S (ss_k st) =? maxiter)%nat = true <-> r = O).
  { rewrite Nat.eqb_eq. lia. }
  unfold minres_certified, residual_nan.
  destruct explicit_residual; policy_cases Hstep;
    try (exfalso; lra);
    inversion Hstep; subst st'; cbn [ss_k ss_info ss_relresvec ss_kernel];
    rewrite ?last_entry_snoc, ?py_max_Num;
    (split; [reflexivity |]).
  all: try (left; split; [reflexivity | apply Hlast; reflexivity]).
  all: right; (split; [assumption |]).
  all: first
         [ left; eexists; (split; [eassumption | split; [reflexivity | lra]])
         | right; left; split;
           [ cbn; try exact I;
             match goal with
             | |- Rmax float_eps ?e > _ => pose proof (Rmax_r float_eps e); lra
             end
           | intros Hr; apply Hlast in Hr; congruence ]
         | right; right; right; assumption
         | right; right; left; split; [reflexivity | assumption] ].
Qed.

(** The same for GMRES, whose last entry may also settle on the
    tolerance itself, or be [nan]. *)
Lemma gmres_iteration_spec (st st' : solver_state K) (r : nat) :
  (ss_k st + S r = maxiter)%nat ->
  ss_info st = 0%Z ->
  gstep st = Ok st' ->
  ss_k st' = S (ss_k st) /\
  ((ss_info st' = 1%Z /\ r = O) \/
   (ss_info st' = 0%Z /\
    (gmres_settled tol explicit_residual st' \/
     (fl_gt (last_entry (ss_relresvec st')) tol /\ r <> O) \/
     last_entry (ss_relresvec st') = NaN))).
Proof.
  intros Hk Hinfo Hstep. unfold gmres_iteration in Hstep.
  assert (Hlast : (S (ss_k st) =? maxiter)%nat = true <-> r = O).
  { rewrite Nat.eqb_eq. lia. }
  unfold gmres_settled, gmres_certified.
  destruct explicit_residual; policy_cases Hstep;
    try (exfalso; lra);
    inversion Hstep; subst st'; cbn [ss_k ss_info ss_relresvec ss_kernel];
    rewrite ?last_entry_snoc;
    (split; [reflexivity |]).
  all: try (left; split; [reflexivity | apply Hlast; reflexivity]).
  all: right; (split; [assumption |]).
  all: try match goal with
           | |- context [fl_le (Num ?e) tol] => destruct (Rle_dec e tol)
           end.
  all: first
         [ right; right; reflexivity
         | right; left; split;
           [ cbn; first [exact I | lra]
           | intros Hr; apply Hlast in Hr; congruence ]
         | left; split;
           [ cbn; lra
           | let H := fresh in
             intros [H | H]; cbn in H; try lra; try discriminate;
             eexists; (split; [eassumption | split; [reflexivity | lra]]) ] ].
Qed.

(** MINRES: a run that ends with [info = 0] after at least one iteration
    ends in a certified state, unless the residual of the last iteration
    is [nan]. *)
Lemma minres_loop_spec (remaining : nat) :
  forall st st' : solver_state K,
  (ss_k st + remaining = maxiter)%nat ->
  ss_info st = 0%Z ->
  (ss_k st = O \/ minres_certified tol st \/
   (fl_gt (last_entry (ss_relresvec st)) tol /\ remaining <> O) \/
   residual_nan explicit_residual st) ->
  solver_loop mstep tol remaining st = Ok st' ->
  ss_info st' = 0%Z -> (1 <= ss_k st')%nat ->
  minres_certified tol st' \/ residual_nan explicit_residual st'.
Proof.
  induction remaining as [| r IH]; intros st st' Hk Hinfo Hinv Hrun Hinfo' Hk'.
  - simpl in Hrun. inversion Hrun; subst st'.
    destruct Hinv as [H | [H | [[_ H] | H]]];
      [lia | left; exact H | congruence | right; exact H].
  - cbn [solver_loop] in Hrun.
    destruct (fl_gt_dec (last_entry (ss_relresvec st)) tol) as [Hgt | Hle].
    + destruct (mstep st) as [st1 |] eqn:Hstep; [| discriminate].
      rewrite bind_Ok in Hrun.
      destruct (minres_iteration_spec st st1 r Hk Hinfo Hstep)
        as (Hk1 & [[Hi1 Hr] | [Hi1 Hinv1]]).
      * subst r. simpl in Hrun. inversion Hrun; subst st'. lia.
      * apply (IH st1 st'); try assumption; [lia |]. right. exact Hinv1.
    + inversion Hrun; subst st'.
      destruct Hinv as [H | [H | [[H _] | H]]];
        [lia | left; exact H | contradiction | right; exact H].
Qed.

(** GMRES: a run that ends with [info = 0] after at least one iteration
    ends settled, unless its last entry is [nan]. *)
Lemma gmres_loop_spec (remaining : nat) :
  forall st st' : solver_state K,
  (ss_k st + remaining = maxiter)%nat ->
  ss_info st = 0%Z ->
  (ss_k st = O \/ gmres_settled tol explicit_residual st \/
   (fl_gt (last_entry (ss_relresvec st)) tol /\ remaining <> O) \/
   last_entry (ss_relresvec st) = NaN) ->
  solver_loop gstep tol remaining st = Ok st' ->
  ss_info st' = 0%Z -> (1 <= ss_k st')%nat ->
  gmres_settled tol explicit_residual st' \/
  last_entry (ss_relresvec st') = NaN.
Proof.
  induction remaining as [| r IH]; intros st st' Hk Hinfo Hinv Hrun Hinfo' Hk'.
  - simpl in Hrun. inversion Hrun; subst st'.
    destruct Hinv as [H | [H | [[_ H] | H]]];
      [lia | left; exact H | congruence | right; exact H].
  - cbn [solver_loop] in Hrun.
    destruct (fl_gt_dec (last_entry (ss_relresvec st)) tol) as [Hgt | Hle].
    + destruct (gstep st) as [st1 |] eqn:Hstep; [| discriminate].
      rewrite bind_Ok in Hrun.
      destruct (gmres_iteration_spec st st1 r Hk Hinfo Hstep)
        as (Hk1 & [[Hi1 Hr] | [Hi1 Hinv1]]).
      * subst r. simpl in Hrun. inversion Hrun; subst st'. lia.
      * apply (IH st1 st'); try assumption; [lia |]. right. exact Hinv1.
    + inversion Hrun; subst st'.
      destruct Hinv as [H | [H | [[H _] | H]]];
        [lia | left; exact H | contradiction | right; exact H].
Qed.

End ResidualPolicy.

Lemma float_eps_small : float_eps <= 1e-5.
Proof. unfold float_eps. lra. Qed.

(** Decide the comparisons met when a solver loop runs on explicit
    numbers. *)
Ltac run_policy :=
  repeat first
    [ progress cbn [solver_loop solver_init bind negb orb fst snd Nat.eqb
                    ss_kernel ss_k ss_info ss_relresvec gmres_maxiter
                    iterate updated_residual explicit_residual_norm
                    kernel_exact kernel_boundary kernel_breakdown
                    fl_le_dec fl_lt_dec fl_gt_dec fl_ge_dec
                    last_entry last replace_last removelast app]
    | rewrite py_max_Num
    | rewrite py_max_NaN
    | rewrite py_max_PInf
    | match goal with
      | |- context [Rle_dec ?a ?b] => destruct (Rle_dec a b); try (exfalso; lra)
      | |- context [Rlt_dec ?a ?b] => destruct (Rlt_dec a b); try (exfalso; lra)
      | |- context [Rgt_dec ?a ?b] => destruct (Rgt_dec a b); try (exfalso; lra)
      | |- context [Rge_dec ?a ?b] => destruct (Rge_dec a b); try (exfalso; lra)
      end ].

Lemma minres_exact_run :
  minres kernel_exact 1e-5 3 false O 1
  = Ok (Build_solver_state kernel_exact 1%nat 1%nat 0%Z [Num 1; Num float_eps]).
Proof.
  pose proof float_eps_pos as Hpos. pose proof float_eps_small as Hsmall.
  assert (Hmax : Rmax float_eps 0 = float_eps) by (apply Rmax_left; lra).
  unfold minres, minres_iteration.
  run_policy. rewrite Hmax in *. run_policy. reflexivity.
Qed.

Lemma gmres_exact_run :
  gmres kernel_exact 1e-5 (Some 3%nat) 3 false O 1
  = Ok (Build_solver_state kernel_exact 1%nat 1%nat 0%Z [Num 1; Num 0]).
Proof.
  unfold gmres, gmres_iteration.
  run_policy. reflexivity.
Qed.

Lemma gmres_boundary_run :
  gmres kernel_boundary (4 / 5) (Some 3%nat) 3 false O 1
  = Ok (Build_solver_state kernel_boundary 1%nat 1%nat 0%Z [Num 1; Num (4 / 5)]).
Proof.
  unfold gmres, gmres_iteration.
  run_policy. reflexivity.
Qed.

Lemma minres_breakdown_run :
  minres kernel_breakdown 1e-5 3 false O 1
  = Ok (Build_solver_state kernel_breakdown 1%nat 1%nat 0%Z
          [Num 1; Num float_eps]).
Proof.
  pose proof float_eps_pos as Hpos. pose proof float_eps_small as Hsmall.
  unfold minres, minres_iteration.
  run_policy. reflexivity.
Qed.

Lemma gmres_breakdown_run :
  gmres kernel_breakdown 1e-5 (Some 3%nat) 3 false O 1
  = Ok (Build_solver_state kernel_breakdown 1%nat 1%nat 0%Z [Num 1; NaN]).
Proof.
  unfold gmres, gmres_iteration.
  run_policy. reflexivity.
Qed.

(** C9 as stated fails.  MINRES on a system solved exactly in one step
    returns [info = 0] with machine epsilon as last entry, while the
    recomputed residual norm is 0.  GMRES whose updated residual meets the
    tolerance exactly returns [info = 0] with that updated residual as last
    entry; the residual is not recomputed, and here it is above the
    tolerance.  After a breakdown in the first step both solvers return
    [info = 0] although the recomputed residual norm is [nan]: MINRES with
    machine epsilon as last entry, GMRES with [nan]. *)
Lemma final_entry_not_recomputed_residual :
  (exists st,
      minres kernel_exact 1e-5 3 false O 1 = Ok st /\
      ss_info st = 0%Z /\ ss_k st = 1%nat /\
      explicit_residual_norm kernel_exact (ss_kernel st) = Ok (Num 0) /\
      last_entry (ss_relresvec st) = Num float_eps /\ float_eps <> 0) /\
  (exists st,
      gmres kernel_boundary (4 / 5) (Some 3%nat) 3 false O 1 = Ok st /\
      ss_info st = 0%Z /\ ss_k st = 1%nat /\
      explicit_residual_norm kernel_boundary (ss_kernel st)
      = Ok (Num (4 / 5 + float_eps)) /\
      last_entry (ss_relresvec st)
      = updated_residual kernel_boundary (ss_kernel st) /\
      4 / 5 + float_eps > 4 / 5) /\
  (exists st,
      minres kernel_breakdown 1e-5 3 false O 1 = Ok st /\
      ss_info st = 0%Z /\ ss_k st = 1%nat /\
      explicit_residual_norm kernel_breakdown (ss_kernel st) = Ok NaN /\
      last_entry (ss_relresvec st) = Num float_eps) /\
  (exists st,
      gmres kernel_breakdown 1e-5 (Some 3%nat) 3 false O 1 = Ok st /\
      ss_info st = 0%Z /\ ss_k st = 1%nat /\
      last_entry (ss_relresvec st) = NaN /\
      ~ fl_le (last_entry (ss_relresvec st)) 1e-5).
Proof.
  pose proof float_eps_pos as Hpos. split; [| split; [| split]].
  - eexists. split; [exact minres_exact_run |].
    repeat split; try reflexivity. lra.
  - eexists. split; [exact gmres_boundary_run |].
    repeat split; try reflexivity. unfold Rgt. lra.
  - eexists. split; [exact minres_breakdown_run |].
    repeat split; reflexivity.
  - eexists. split; [exact gmres_breakdown_run |].
    split; [reflexivity |]. split; [reflexivity |]. split; [reflexivity |].
    intros H. exact H.
Qed.

(** C9 (amended). When [minres] returns with [info = 0] after at least one
    iteration and the residual of its last iteration is not [nan], the
    last entry of the history is the recomputed residual norm of the final
    iterate floored at machine epsilon, and that norm is within the
    tolerance.  When [gmres] does and its last entry is not [nan], the
    last entry is within the tolerance, and it is the recomputed residual
    norm whenever it is strictly below the tolerance or
    [explicit_residual] is set. *)
Theorem krylov_final_residual (K : krylov_kernel) (tol : R) (maxiter : nat)
    (gmres_maxiter_arg : option nat) (N : nat)
    (explicit_residual : bool) (s0 : kstate K) (r0 : R) :
  (forall st,
      minres K tol maxiter explicit_residual s0 r0 = Ok st ->
      ss_info st = 0%Z -> (1 <= ss_k st)%nat ->
      ~ residual_nan explicit_residual st ->
      minres_certified tol st /\
      (float_eps <= tol -> fl_le (last_entry (ss_relresvec st)) tol)) /\
  (forall st,
      gmres K tol gmres_maxiter_arg N explicit_residual s0 r0 = Ok st ->
      ss_info st = 0%Z -> (1 <= ss_k st)%nat ->
      last_entry (ss_relresvec st) <> NaN ->
      gmres_settled tol explicit_residual st).
Proof.
  split.
  - intros st Hrun Hinfo Hk Hnan.
    assert (Hc : minres_certified tol st).
    { destruct (minres_loop_spec K tol maxiter explicit_residual maxiter
                  (solver_init K s0 r0) st) as [Hc | Hn];
        try assumption; try reflexivity; [left; reflexivity | contradiction]. }
    split; [exact Hc |].
    intros Heps. destruct Hc as (e & _ & Hlast & He). rewrite Hlast.
    cbn. apply Rmax_lub; assumption.
  - intros st Hrun Hinfo Hk Hnan. unfold gmres in Hrun.
    destruct (gmres_loop_spec K tol (gmres_maxiter gmres_maxiter_arg N)
                explicit_residual (gmres_maxiter gmres_maxiter_arg N)
                (solver_init K s0 r0) st) as [Hc | Hn];
      try assumption; try reflexivity; [left; reflexivity | contradiction].
Qed.

(** Both solvers on a system solved exactly in one step. *)
Lemma krylov_final_residual_witness :
  (exists st,
      minres kernel_exact 1e-5 3 false O 1 = Ok st /\
      ss_info st = 0%Z /\ (1 <= ss_k st)%nat /\
      ~ residual_nan false st /\
      minres_certified 1e-5 st /\ fl_le (last_entry (ss_relresvec st)) 1e-5) /\
  (exists st,
      gmres kernel_exact 1e-5 (Some 3%nat) 3 false O 1 = Ok st /\
      ss_info st = 0%Z /\ (1 <= ss_k st)%nat /\
      last_entry (ss_relresvec st) <> NaN /\
      gmres_settled 1e-5 false st).
Proof.
  destruct (krylov_final_residual kernel_exact 1e-5 3 (Some 3%nat) 3 false O 1)
    as [Hm Hg].
  assert (Hnan : ~ residual_nan false
                   (Build_solver_state kernel_exact 1%nat 1%nat 0%Z
                      [Num 1; Num float_eps])).
  { intros [[_ H] | H]; discriminate H. }
  assert (Hlast : last_entry [Num 1; Num 0] <> NaN) by discriminate.
  split.
  - eexists. split; [exact minres_exact_run |].
    split; [reflexivity |]. split; [apply le_n |]. split; [exact Hnan |].
    destruct (Hm _ minres_exact_run eq_refl (le_n 1) Hnan) as [Hc Hle].
    split; [exact Hc | exact (Hle float_eps_small)].
  - eexists. split; [exact gmres_exact_run |].
    split; [reflexivity |]. split; [apply le_n |]. split; [exact Hlast |].
    exact (Hg _ gmres_exact_run eq_refl (le_n 1) Hlast).
Defined.

(** * Further properties *)

(** ** The Euclidean norm *)

Lemma vdot_self (x : vec) : Im (vdot x x) = 0 /\ 0 <= Re (vdot x x).
Proof.
  induction x as [| a x [IHi IHr]]; simpl.
  - split; lra.
  - rewrite IHi. split; [ring | nra].
Qed.

Lemma vdot_self_zero (x : vec) :
  Re (vdot x x) = 0 <-> Forall (fun z => z = C0) x.
Proof.
  induction x as [| a x IH]; simpl.
  - split; [constructor | reflexivity].
  - destruct (vdot_self x) as [_ Hr]. split.
    + intros H.
      assert (Ha : Re a * Re a + Im a * Im a = 0) by nra.
      constructor; [apply C_eq; simpl; nra | apply IH; nra].
    + intros H. inversion H as [| ? ? Ha Hx]; subst.
      apply IH in Hx. rewrite Hx. simpl. ring.
Qed.

(** X1. With the Euclidean inner product and no [Mx] the norm never
    raises: it returns the non-negative root of [x^H x], which is zero
    exactly for the zero column. *)
Theorem norm_euclidean_total (x : vec) :
  exists n,
    _norm _ipstd x None = Ok n /\
    0 <= n /\ n * n = Re (_ipstd x x) /\
    (n = 0 <-> Forall (fun z => z = C0) x).
Proof.
  destruct (vdot_self x) as [Hi Hr].
  exists (sqrt (Re (vdot x x))).
  split; [| split; [apply sqrt_pos | split; [apply sqrt_sqrt; exact Hr |]]].
  - unfold _norm, _norm_squared, _ipstd.
    destruct (Rgt_dec (Rabs (Im (vdot x x))) (Cabs (vdot x x) * tol_imag)) as [H | _].
    + exfalso. rewrite Hi, Rabs_R0 in H.
      pose proof (Cabs_nonneg (vdot x x)). unfold tol_imag in H. nra.
    + destruct (Rlt_dec (Re (vdot x x)) 0) as [H | _]; [lra | reflexivity].
  - rewrite <- vdot_self_zero. split.
    + intros H. apply sqrt_eq_0 in H; assumption.
    + intros H. rewrite H. apply sqrt_0.
Qed.

(** ** Givens rotations as isometries *)

Lemma givens_ok_spec (a b : C) (G : mat2) :
  _givens a b = Ok G -> givens_spec a b.
Proof.
  intros HG. givens_cases a b.
  - subst b. apply givens_branch_b0. intros ->.
    rewrite givens_zero_zero in HG. discriminate.
  - subst a. apply givens_branch_a0. assumption.
  - destruct (Rgt_dec (Cabs b) (Cabs a)) as [Hgt | Hle].
    + apply givens_branch_b_gt; assumption.
    + apply givens_branch_a_ge; assumption.
Qed.

Lemma rotation_isometry (c s x y : C) :
  Cabs c ^ 2 + Cabs s ^ 2 = 1 ->
  Cabs (fst (mat2_apply (rotation c s) (x, y))) ^ 2
  + Cabs (snd (mat2_apply (rotation c s) (x, y))) ^ 2
  = Cabs x ^ 2 + Cabs y ^ 2.
Proof.
  intros Hcs. rewrite !Cabs_pow2 in *. simpl.
  transitivity ((Re c * Re c + Im c * Im c + (Re s * Re s + Im s * Im s))
                * (Re x * Re x + Im x * Im x + (Re y * Re y + Im y * Im y)));
    [ring | rewrite Hcs; ring].
Qed.

(** X2. A rotation returned by [_givens] preserves the Euclidean length of
    every pair [(x, y)], and it maps [(a, b)] to [(sqrt(|a|^2 + |b|^2), 0)]. *)
Theorem givens_isometry (a b : C) (G : mat2) :
  _givens a b = Ok G ->
  (forall x y,
      Cabs (fst (mat2_apply G (x, y))) ^ 2 + Cabs (snd (mat2_apply G (x, y))) ^ 2
      = Cabs x ^ 2 + Cabs y ^ 2) /\
  mat2_apply G (a, b) = (RtoC (sqrt (Cabs a ^ 2 + Cabs b ^ 2)), C0).
Proof.
  intros HG. destruct (givens_ok_spec a b G HG) as (c & s & r & Hrun & Hcs & Hr & Hab).
  rewrite HG in Hrun. inversion Hrun; subst G. split.
  - intros x y. apply rotation_isometry. exact Hcs.
  - rewrite Hab. f_equal. f_equal.
    pose proof (rotation_isometry c s a b Hcs) as Hiso. rewrite Hab in Hiso.
    simpl fst in Hiso. simpl snd in Hiso. rewrite <- Hiso.
    rewrite (Cabs_RtoC r Hr).
    replace (Cabs C0) with 0 by (symmetry; apply Cabs_eq_0; reflexivity).
    replace (r ^ 2 + 0 ^ 2) with (r * r) by ring.
    symmetry. apply sqrt_square. exact Hr.
Qed.

(** The rotation for the pair [(3, 4)]. *)
Lemma givens_isometry_witness :
  exists G,
    _givens (mkC 3 0) (mkC 4 0) = Ok G /\
    (forall x y,
        Cabs (fst (mat2_apply G (x, y))) ^ 2 + Cabs (snd (mat2_apply G (x, y))) ^ 2
        = Cabs x ^ 2 + Cabs y ^ 2) /\
    mat2_apply G (mkC 3 0, mkC 4 0)
    = (RtoC (sqrt (Cabs (mkC 3 0) ^ 2 + Cabs (mkC 4 0) ^ 2)), C0).
Proof.
  assert (Ha : mkC 3 0 <> C0)
    by (intros E; apply (f_equal Re) in E; simpl in E; lra).
  assert (Hb : mkC 4 0 <> C0)
    by (intros E; apply (f_equal Re) in E; simpl in E; lra).
  assert (Hs : givens_spec (mkC 3 0) (mkC 4 0)).
  { destruct (Rgt_dec (Cabs (mkC 4 0)) (Cabs (mkC 3 0))) as [Hgt | Hle].
    - apply givens_branch_b_gt; assumption.
    - apply givens_branch_a_ge; assumption. }
  destruct Hs as (c & s & r & Hrun & _).
  exists (rotation c s). split; [exact Hrun |].
  exact (givens_isometry (mkC 3 0) (mkC 4 0) (rotation c s) Hrun).
Defined.

(** ** Orthogonalisation against a basis *)

Lemma mgs_qr_column (inner_product : vec -> vec -> C) (W : matrix) (v : vec) :
  _mod_gram_schmidt inner_product v W = fst (qr_column inner_product W v).
Proof.
  revert v. induction W as [| w W IH]; intros v; simpl; [reflexivity |].
  rewrite IH.
  destruct (qr_column inner_product W
              (vsub v (vscale (inner_product w v) w))) as [q rs].
  reflexivity.
Qed.

Lemma vscale_add (c d : C) (x : vec) :
  vscale (c + d)%C x = vadd (vscale c x) (vscale d x).
Proof.
  unfold vscale. induction x as [| a x IH]; simpl; [reflexivity |].
  rewrite IH. f_equal. Csolve.
Qed.

Lemma vadd_shuffle (a b c d : vec) :
  vadd (vadd a b) (vadd c d) = vadd (vadd a c) (vadd b d).
Proof.
  rewrite <- (vadd_assoc a b), (vadd_assoc b c d), (vadd_comm b c).
  rewrite <- (vadd_assoc c b d), (vadd_assoc a c). reflexivity.
Qed.

Lemma mat_vec_add (A : matrix) (y y' : vec) :
  length y = length y' ->
  mat_vec A (vadd y y') = vadd (mat_vec A y) (mat_vec A y').
Proof.
  revert y y'. induction A as [| a A IH]; intros [| c y] [| c' y'] Hlen;
    simpl in *; try reflexivity; try discriminate.
  rewrite IH by lia. rewrite vscale_add. apply vadd_shuffle.
Qed.

Lemma vsub_vscale_zero (v w : vec) :
  (length w <= length v)%nat -> vsub v (vscale C0 w) = v.
Proof.
  unfold vscale. revert w.
  induction v as [| a v IH]; intros [| b w] Hlen; simpl in *;
    try reflexivity; try lia.
  rewrite IH by lia. f_equal. Csolve.
Qed.

Lemma mgs_fixes_orthogonal (inner_product : vec -> vec -> C) (m : nat)
    (W : matrix) (v : vec) :
  rectangular m W -> length v = m ->
  Forall (fun w => inner_product w v = C0) W ->
  _mod_gram_schmidt inner_product v W = v.
Proof.
  intros HW Hv Horth. induction HW as [| w W Hw HW IH]; simpl; [reflexivity |].
  pose proof (Forall_inv Horth) as H0. simpl in H0.
  rewrite H0, vsub_vscale_zero by lia.
  apply IH. exact (Forall_inv_tail Horth).
Qed.

(** The result of [orth_vec] is that of one or of two Gram-Schmidt passes. *)
Lemma orth_vec_cases (inner_product : vec -> vec -> C) (v : vec) (W : matrix) :
  orth_vec inner_product v W = _mod_gram_schmidt inner_product v W \/
  orth_vec inner_product v W
  = _mod_gram_schmidt inner_product (_mod_gram_schmidt inner_product v W) W.
Proof.
  unfold orth_vec.
  destruct (Cdiv _ _) as [q |]; [| left; reflexivity].
  destruct (Clt_real q (kappa ^ 2)); [right | left]; reflexivity.
Qed.

(** X3. Against an orthonormal basis [W], [orth_vec] returns a column that
    is orthogonal to every column of [W] and differs from [v] by a
    combination of the columns of [W]. *)
Theorem orth_vec_orthogonal (inner_product : vec -> vec -> C) (m : nat)
    (v : vec) (W : matrix) :
  sesquilinear inner_product ->
  orthonormal inner_product W ->
  rectangular m W -> length v = m ->
  Forall (fun w => inner_product w (orth_vec inner_product v W) = C0) W /\
  exists c, length c = length W /\
            v = vadd (orth_vec inner_product v W) (mat_vec W c).
Proof.
  intros Hip Horth HW Hv.
  assert (Hpass : forall u, length u = m ->
            Forall (fun w => inner_product w
                               (_mod_gram_schmidt inner_product u W) = C0) W /\
            length (_mod_gram_schmidt inner_product u W) = m /\
            exists c, length c = length W /\
              u = vadd (_mod_gram_schmidt inner_product u W) (mat_vec W c)).
  { intros u Hu. rewrite mgs_qr_column.
    destruct (qr_column inner_product W u) as [q rs] eqn:E. simpl fst.
    destruct (qr_column_sum inner_product m W u q rs HW Hu E) as (Hq & Hrs & Hsum).
    split; [| split; [exact Hq | exists rs; split; assumption]].
    apply (qr_column_orth inner_product Hip W [] u q rs);
      [exact Horth | constructor | exact E]. }
  destruct (Hpass v Hv) as (H1 & Hl1 & c1 & Hc1 & Hs1).
  destruct (orth_vec_cases inner_product v W) as [E | E]; rewrite E.
  - split; [exact H1 | exists c1; split; assumption].
  - destruct (Hpass _ Hl1) as (H2 & _ & c2 & Hc2 & Hs2).
    split; [exact H2 |]. exists (vadd c2 c1). split.
    + rewrite vadd_length. lia.
    + rewrite mat_vec_add by lia. rewrite vadd_assoc, <- Hs2. exact Hs1.
Qed.

Lemma orthonormal_unit_column : orthonormal _ipstd [[C1; C0]].
Proof.
  simpl. split; [apply C_eq; simpl; ring | split; [constructor | exact I]].
Qed.

(** The column [(1, 1)] against the first unit vector. *)
Lemma orth_vec_orthogonal_witness :
  sesquilinear _ipstd /\
  orthonormal _ipstd [[C1; C0]] /\
  rectangular 2 [[C1; C0]] /\ length [C1; C1] = 2%nat /\
  Forall (fun w => _ipstd w (orth_vec _ipstd [C1; C1] [[C1; C0]]) = C0) [[C1; C0]] /\
  exists c, length c = length [[C1; C0]] /\
            [C1; C1] = vadd (orth_vec _ipstd [C1; C1] [[C1; C0]])
                            (mat_vec [[C1; C0]] c).
Proof.
  assert (Hrect : rectangular 2 [[C1; C0]]) by (repeat constructor).
  split; [exact ipstd_sesquilinear |].
  split; [exact orthonormal_unit_column |].
  split; [exact Hrect |]. split; [reflexivity |].
  exact (orth_vec_orthogonal _ipstd 2 [C1; C1] [[C1; C0]]
           ipstd_sesquilinear orthonormal_unit_column Hrect eq_refl).
Defined.

(** X4. A column that is already orthogonal to every column of [W] is
    returned unchanged by [orth_vec]. *)
Theorem orth_vec_fixes_orthogonal (inner_product : vec -> vec -> C) (m : nat)
    (v : vec) (W : matrix) :
  rectangular m W -> length v = m ->
  Forall (fun w => inner_product w v = C0) W ->
  orth_vec inner_product v W = v.
Proof.
  intros HW Hv Horth.
  pose proof (mgs_fixes_orthogonal inner_product m W v HW Hv Horth) as Hfix.
  destruct (orth_vec_cases inner_product v W) as [E | E]; rewrite E, !Hfix;
    reflexivity.
Qed.

(** The second unit vector against the first. *)
Lemma orth_vec_fixes_orthogonal_witness :
  rectangular 2 [[C1; C0]] /\ length [C0; C1] = 2%nat /\
  Forall (fun w => _ipstd w [C0; C1] = C0) [[C1; C0]] /\
  orth_vec _ipstd [C0; C1] [[C1; C0]] = [C0; C1].
Proof.
  assert (Hrect : rectangular 2 [[C1; C0]]) by (repeat constructor).
  assert (Horth : Forall (fun w => _ipstd w [C0; C1] = C0) [[C1; C0]]).
  { constructor; [apply C_eq; simpl; ring | constructor]. }
  split; [exact Hrect |]. split; [reflexivity |]. split; [exact Horth |].
  exact (orth_vec_fixes_orthogonal _ipstd 2 [C0; C1] [[C1; C0]]
           Hrect eq_refl Horth).
Defined.

(** ** The QR factorisation without assumptions on the inner product *)

Lemma r_column_length (n : nat) (rs : list C) (d : R) :
  (length rs < n)%nat -> length (r_column n rs d) = n.
Proof.
  intros H. unfold r_column, vzeros. rewrite length_app. simpl.
  rewrite repeat_length. lia.
Qed.

(** Whenever the loop of [qr] finishes, every column of [R] reproduces the
    matching column of [W] from the columns of [Q]. *)
Lemma qr_loop_factor (inner_product : vec -> vec -> C) (m n : nat)
    (Wrest : matrix) :
  forall Q R Wdone Q' R' : matrix,
  rectangular m Q -> rectangular m Wrest ->
  length Q = length Wdone -> length R = length Wdone ->
  n = (length Wdone + length Wrest)%nat ->
  (forall j, (j < length Wdone)%nat ->
     qr_column_inv n Q (nth j R []) (nth j Wdone []) j) ->
  qr_loop inner_product n Q R Wrest = Ok (Q', R') ->
  rectangular m Q' /\ length Q' = n /\ length R' = n /\
  forall j, (j < n)%nat ->
    qr_column_inv n Q' (nth j R' []) (nth j (Wdone ++ Wrest) []) j.
Proof.
  induction Wrest as [| w rest IH];
    intros Q R Wdone Q' R' HQ HW HlQ HlR Hn Hinv Hrun.
  - simpl in Hrun, Hn. inversion Hrun; subst Q' R'. rewrite app_nil_r.
    repeat split; try assumption; try lia.
    intros j Hj. apply Hinv. lia.
  - simpl in Hrun, Hn. destruct (qr_column inner_product Q w) as [q rs] eqn:E.
    pose proof (Forall_inv HW) as Hw. pose proof (Forall_inv_tail HW) as HWrest.
    simpl in Hw.
    destruct (qr_column_sum inner_product m Q w q rs HQ Hw E) as (Hlq & Hlrs & Hsum).
    set (d := sqrt (Cabs (inner_product q q))) in *.
    assert (Hd0 : 0 <= d) by apply sqrt_pos.
    destruct (Req_dec_T d 0) as [Hz | Hnz].
    + unfold vdiv_real in Hrun.
      destruct (Req_dec_T d 0) as [_ | H]; [discriminate | contradiction].
    + rewrite (vdiv_real_scale q d Hnz), bind_Ok in Hrun.
      set (qn := vscale (RtoC (/ d)) q) in *.
      assert (Hinv1 : forall j, (j < length (Wdone ++ [w]))%nat ->
                qr_column_inv n (Q ++ [qn]) (nth j (R ++ [r_column n rs d]) [])
                              (nth j (Wdone ++ [w]) []) j).
      { intros j Hj. rewrite length_app in Hj. simpl in Hj.
        destruct (Nat.lt_ge_cases j (length Wdone)) as [Hlt | Hge].
        - rewrite !app_nth1 by lia.
          destruct (Hinv j Hlt) as (rs' & d' & Hrc & Hlrs' & Hd' & Hmv).
          exists rs', d'. repeat split; try assumption.
          rewrite mat_vec_app_l; [exact Hmv |]. rewrite length_app. simpl. lia.
        - assert (j = length Wdone) by lia. subst j.
          rewrite app_nth2 by lia. rewrite (app_nth2 Wdone) by lia.
          rewrite HlR, Nat.sub_diag. simpl.
          exists rs, d. repeat split; [lia | exact Hd0 |].
          rewrite mat_vec_app by lia. simpl. rewrite vadd_nil_r. unfold qn.
          rewrite vscale_vscale.
          replace (RtoC d * RtoC (/ d))%C with C1
            by (apply C_eq; simpl; field; exact Hnz).
          rewrite vscale_one, vadd_comm. symmetry. exact Hsum. }
      destruct (IH (Q ++ [qn]) (R ++ [r_column n rs d]) (Wdone ++ [w]) Q' R')
        as (HQ' & HlQ' & HlR' & Hinv'); try assumption.
      * apply Forall_app. split; [exact HQ |].
        constructor; [| constructor]. unfold qn. rewrite vscale_length. exact Hlq.
      * rewrite !length_app. simpl. lia.
      * rewrite !length_app. simpl. lia.
      * rewrite length_app. simpl. lia.
      * rewrite <- app_assoc in Hinv'. simpl in Hinv'.
        repeat split; assumption.
Qed.

(** The shape of what the loop of [qr] builds when no column is divided
    by zero. *)
Lemma qr_run_factors (inner_product : vec -> vec -> C) (m : nat) (W Q R : matrix) :
  rectangular m W ->
  qr inner_product W = Ok (Q, R) ->
  length Q = length W /\ rectangular m Q /\
  length R = length W /\ rectangular (length W) R /\
  mat_mul Q R = W /\ upper_triangular R /\ diagonal_nonneg R.
Proof.
  intros HW Hrun.
  assert (Hfac : rectangular m Q /\ length Q = length W /\ length R = length W /\
                 forall j, (j < length W)%nat ->
                   qr_column_inv (length W) Q (nth j R []) (nth j W []) j).
  { apply (qr_loop_factor inner_product m (length W) W [] [] [] Q R);
      try reflexivity; try assumption; try constructor.
    intros j Hj. simpl in Hj. lia. }
  destruct Hfac as (HQ & HlQ & HlR & Hinv).
  split; [exact HlQ |]. split; [exact HQ |]. split; [exact HlR |].
  split; [| split; [| split]].
  - unfold rectangular. apply Forall_forall. intros rc Hin.
    destruct (In_nth R rc [] Hin) as (j & Hj & Hnth). rewrite HlR in Hj.
    destruct (Hinv j Hj) as (rs & d & Hrc & Hlrs & _).
    rewrite <- Hnth, Hrc. apply r_column_length. lia.
  - unfold mat_mul. apply nth_ext with (d := []) (d' := []).
    + rewrite length_map. exact HlR.
    + rewrite length_map, HlR. intros j Hj.
      pose proof (map_nth (mat_vec Q) R [] j) as Hmap.
      rewrite mat_vec_nil_r in Hmap. rewrite Hmap.
      destruct (Hinv j Hj) as (rs & d & Hrc & Hlrs & Hd & Hmv).
      rewrite Hrc. unfold r_column.
      change (RtoC d :: vzeros (length W - S (length rs)))
        with ([RtoC d] ++ vzeros (length W - S (length rs))).
      rewrite app_assoc.
      assert (Hsplit : Q = firstn (S j) Q ++ skipn (S j) Q)
        by (symmetry; apply firstn_skipn).
      assert (Hlf : length (firstn (S j) Q) = S j)
        by (apply firstn_length_le; lia).
      assert (Hrect : rectangular m (firstn (S j) Q ++ skipn (S j) Q))
        by (rewrite <- Hsplit; exact HQ).
      apply Forall_app in Hrect. destruct Hrect as [_ Hskip].
      destruct (mat_vec_vzeros m (skipn (S j) Q) (length W - S (length rs)) Hskip)
        as (k & Hk & Hz).
      assert (Hwj : length (nth j W []) = m).
      { unfold rectangular in HW. rewrite Forall_forall in HW.
        apply HW. apply nth_In. exact Hj. }
      rewrite Hsplit in Hmv |- *.
      rewrite mat_vec_app_l in Hmv by (rewrite length_app, Hlf; simpl; lia).
      rewrite mat_vec_app by (rewrite length_app, Hlf; simpl; lia).
      rewrite Hmv, Hz. apply vadd_vzeros_r. lia.
  - intros i j Hji. destruct (Nat.lt_ge_cases j (length W)) as [Hj | Hj].
    + destruct (Hinv j Hj) as (rs & d & Hrc & Hlrs & _).
      rewrite Hrc. apply nth_r_column_below. lia.
    + rewrite (nth_overflow R) by lia. destruct i; reflexivity.
  - intros i Hi. rewrite HlR in Hi.
    destruct (Hinv i Hi) as (rs & d & Hrc & Hlrs & Hd & _).
    exists d. split; [exact Hd |]. rewrite Hrc, <- Hlrs. apply nth_r_column_diag.
Qed.

(** The loop of [qr] gets through without dividing a column by zero
    exactly when no value [inner_product(Q[:,i], Q[:,i])] met on the way
    is zero. *)
Lemma qr_loop_returns_iff (inner_product : vec -> vec -> C) (n : nat) (W : matrix) :
  forall Q R : matrix,
  (exists QR, qr_loop inner_product n Q R W = Ok QR) <->
  Forall (fun p => p <> C0) (qr_pivots_loop inner_product Q W).
Proof.
  induction W as [| w rest IH]; intros Q R; simpl.
  - split; [constructor | intros _; eexists; reflexivity].
  - destruct (qr_column inner_product Q w) as [q rs].
    set (p := inner_product q q).
    destruct (Req_dec_T (sqrt (Cabs p)) 0) as [Hz | Hnz].
    + assert (Hp : p = C0).
      { apply Cabs_eq_0. apply sqrt_eq_0; [apply Cabs_nonneg | exact Hz]. }
      unfold vdiv_real. destruct (Req_dec_T (sqrt (Cabs p)) 0) as [_ | H];
        [| contradiction].
      split.
      * intros [QR H]. discriminate.
      * intros H. exfalso. apply (Forall_inv H). exact Hp.
    + assert (Hp : p <> C0).
      { intros Hp. apply Hnz. rewrite Hp.
        replace (Cabs C0) with 0 by (symmetry; apply Cabs_eq_0; reflexivity).
        apply sqrt_0. }
      rewrite (vdiv_real_scale q _ Hnz), bind_Ok. rewrite IH. split.
      * intros H. constructor; assumption.
      * intros H. exact (Forall_inv_tail H).
Qed.

(** X5. Whatever function is passed as inner product, for a rectangular
    [W] with [n] columns on which none of the values
    [inner_product(Q[:,i], Q[:,i])] met in the loop is zero (so that no
    column is divided by zero), [qr] returns [Q] and [R] where [Q] has the
    shape of [W], [R] is an [n] by [n] upper triangular array with a real
    non-negative diagonal, and [W = Q.R]. *)
Theorem qr_factors (inner_product : vec -> vec -> C) (m : nat) (W : matrix) :
  rectangular m W ->
  Forall (fun p => p <> C0) (qr_pivots inner_product W) ->
  exists Q R,
    qr inner_product W = Ok (Q, R) /\
    length Q = length W /\ rectangular m Q /\
    length R = length W /\ rectangular (length W) R /\
    mat_mul Q R = W /\ upper_triangular R /\ diagonal_nonneg R.
Proof.
  intros HW Hpiv.
  assert (Hex : exists QR, qr inner_product W = Ok QR)
    by (apply qr_loop_returns_iff; exact Hpiv).
  destruct Hex as [[Q R] Hrun]. exists Q, R.
  split; [exact Hrun |].
  exact (qr_run_factors inner_product m W Q R HW Hrun).
Qed.

(** The factorisation of [W_example]. *)
Lemma qr_factors_witness :
  rectangular 2 W_example /\
  Forall (fun p => p <> C0) (qr_pivots _ipstd W_example) /\
  exists Q R,
    qr _ipstd W_example = Ok (Q, R) /\
    length Q = length W_example /\ rectangular 2 Q /\
    length R = length W_example /\ rectangular (length W_example) R /\
    mat_mul Q R = W_example /\ upper_triangular R /\ diagonal_nonneg R.
Proof.
  assert (Hrect : rectangular 2 W_example) by (repeat constructor).
  assert (Hpiv : Forall (fun p => p <> C0) (qr_pivots _ipstd W_example)).
  { eapply Forall_impl; [| exact W_example_pivots].
    intros p [_ Hr] ->. simpl in Hr. lra. }
  split; [exact Hrect |]. split; [exact Hpiv |].
  exact (qr_factors _ipstd 2 W_example Hrect Hpiv).
Defined.

(** ** The deflation projector and the adapted initial guess *)

Lemma ip_col_length (inner_product : vec -> vec -> C) (X : matrix) (y : vec) :
  length (ip_col inner_product X y) = length X.
Proof. unfold ip_col. apply length_map. Qed.

Lemma ip_col_add (inner_product : vec -> vec -> C) (X : matrix) (y z : vec) :
  sesquilinear inner_product ->
  ip_col inner_product X (vadd y z)
  = vadd (ip_col inner_product X y) (ip_col inner_product X z).
Proof.
  intros Hip. unfold ip_col. rewrite vadd_map. apply map_ext. intros a.
  apply (ip_add_r _ Hip).
Qed.

Lemma ip_col_scale (inner_product : vec -> vec -> C) (X : matrix) (c : C) (y : vec) :
  sesquilinear inner_product ->
  ip_col inner_product X (vscale c y) = vscale c (ip_col inner_product X y).
Proof.
  intros Hip. unfold ip_col, vscale at 2. rewrite map_map. apply map_ext.
  intros a. apply (ip_scale_r _ Hip).
Qed.

Lemma vadd_vzeros_l (x : vec) (k : nat) :
  (k <= length x)%nat -> vadd (vzeros k) x = x.
Proof. intros H. rewrite vadd_comm. apply vadd_vzeros_r. exact H. Qed.

Lemma gram_rectangular (inner_product : vec -> vec -> C) (X Y : matrix) :
  rectangular (length X) (gram inner_product X Y).
Proof.
  unfold rectangular, gram. apply Forall_forall. intros col Hin.
  apply in_map_iff in Hin. destruct Hin as (y & <- & _). apply length_map.
Qed.

Lemma gram_length (inner_product : vec -> vec -> C) (X Y : matrix) :
  length (gram inner_product X Y) = length Y.
Proof. unfold gram. apply length_map. Qed.

(** The height of a product with as many coefficients as columns. *)
Lemma mat_vec_length_full (m : nat) (A : matrix) (y : vec) :
  rectangular m A -> length y = length A -> A <> [] ->
  length (mat_vec A y) = m.
Proof.
  intros HA Hy Hne.
  destruct A as [| a A]; [contradiction |]. destruct y as [| c y]; [discriminate |].
  simpl. rewrite vadd_length, vscale_length.
  pose proof (Forall_inv HA) as Ha. simpl in Ha.
  pose proof (mat_vec_length m A y (Forall_inv_tail HA)). lia.
Qed.

Lemma vsub_self (x : vec) : vsub x x = vzeros (length x).
Proof.
  induction x as [| a x IH]; simpl; [reflexivity |].
  rewrite IH. unfold vzeros. simpl. f_equal. Csolve.
Qed.

Lemma vsub_vzeros (x : vec) (k : nat) :
  (k <= length x)%nat -> vsub x (vzeros k) = x.
Proof.
  revert k. induction x as [| a x IH]; intros [| k] Hk; simpl in *;
    try reflexivity; try lia.
  fold (vzeros k). rewrite IH by lia. f_equal. Csolve.
Qed.

(** An operator that is self-adjoint against the columns of [W] makes
    [E = <W, AW>] Hermitian. *)
Lemma self_adjoint_on_map (inner_product : vec -> vec -> C) (A : vec -> vec)
    (W : matrix) :
  (forall w y, In w W -> inner_product w (A y) = inner_product (A w) y) ->
  self_adjoint_on inner_product W (map A W).
Proof.
  intros Hsa. unfold self_adjoint_on, gram. rewrite map_map.
  apply map_ext. intros y. rewrite map_map. apply map_ext_in. intros x Hx.
  symmetry. apply Hsa. exact Hx.
Qed.

(** X7. For an operator [A] that is self-adjoint under the inner product
    and an invertible [E = <W, A W>], the adapted initial guess of
    [get_projection] has a residual [b - A x0new] that is orthogonal to
    every column of [W]. *)
Theorem adapted_guess_residual_orthogonal (solve : matrix -> vec -> result vec)
    (inner_product : vec -> vec -> C) (A : vec -> vec) (W : matrix) (b x0 : vec) :
  sesquilinear inner_product ->
  (forall w y, In w W -> inner_product w (A y) = inner_product (A w) y) ->
  solves solve (gram inner_product W (map A W)) ->
  exists P x0new,
    get_projection solve inner_product W (map A W) b x0 = Ok (P, x0new) /\
    ip_col inner_product W (vsub b (A x0new)) = vzeros (length W).
Proof.
  intros Hip HA Hsolve.
  pose proof (self_adjoint_on_map inner_product A W HA) as Hsa.
  assert (Hlen : length (map A W) = length W) by apply length_map.
  assert (Hb : length (ip_col inner_product W b)
               = length (gram inner_product W (map A W)))
    by (rewrite ip_col_length, gram_length, length_map; reflexivity).
  destruct (Hsolve _ Hb) as (EWb & HEWb & HE).
  destruct (Pfun_orthogonal inner_product Hip solve W (map A W) x0 Hlen Hsa Hsolve)
    as (Px0 & HPx0 & Horth).
  exists (Pfun solve inner_product W (map A W)), (vadd Px0 (mat_vec W EWb)).
  split.
  - unfold get_projection, _direct_solve. rewrite HEWb, bind_Ok.
    cbv zeta. rewrite HPx0. reflexivity.
  - set (x0new := vadd Px0 (mat_vec W EWb)).
    assert (HAx : ip_col inner_product W (A x0new)
                  = ip_col inner_product W b).
    { transitivity (ip_col inner_product (map A W) x0new).
      - unfold ip_col. rewrite map_map. apply map_ext_in. intros w Hw.
        apply HA. exact Hw.
      - unfold x0new. rewrite (ip_col_add _ _ _ _ Hip), Horth.
        rewrite (ip_col_mat_vec inner_product Hip), Hsa, HE.
        rewrite !vadd_vzeros_l; [reflexivity | |];
          unfold vzeros;
          rewrite ?vadd_length, ?repeat_length, ?ip_col_length, ?length_map; lia. }
    rewrite vsub_vadd, (ip_col_add _ _ _ _ Hip), (ip_col_scale _ _ _ _ Hip), HAx.
    rewrite vadd_vscale_opp, ip_col_length. reflexivity.
Qed.

Lemma ipstd_twice (w y : vec) : _ipstd w (twice y) = _ipstd (twice w) y.
Proof.
  unfold twice.
  rewrite ipstd_scale_r, (ipstd_conj (vscale _ w) y), ipstd_scale_r, (ipstd_conj y w).
  apply C_eq; simpl; ring.
Qed.

Lemma twice_example_solves :
  solves solve_1x1 (gram _ipstd W_deflation (map twice W_deflation)).
Proof.
  intros y Hy. unfold gram, W_deflation, twice in *. simpl in Hy.
  destruct y as [| c [| c' y]]; simpl in Hy; try discriminate.
  cbn [map solve_1x1 vscale].
  match goal with |- context [Cdiv_real c (Re ?t)] => set (e := t) end.
  assert (He : Re e = 2) by (unfold e; simpl; ring).
  assert (Hi : Im e = 0) by (unfold e; simpl; ring).
  rewrite He, Cdiv_real_ok by lra. rewrite bind_Ok.
  eexists. split; [reflexivity |].
  cbn [mat_vec vscale map]. rewrite vadd_nil_r. f_equal.
  subst e. apply C_eq; simpl; field.
Qed.

(** The basis of one unit vector under [2 * I]. *)
Lemma adapted_guess_residual_orthogonal_witness :
  sesquilinear _ipstd /\
  (forall w y, In w W_deflation -> _ipstd w (twice y) = _ipstd (twice w) y) /\
  solves solve_1x1 (gram _ipstd W_deflation (map twice W_deflation)) /\
  exists P x0new,
    get_projection solve_1x1 _ipstd W_deflation (map twice W_deflation)
                   [C1; C1] [C0; C0] = Ok (P, x0new) /\
    ip_col _ipstd W_deflation (vsub [C1; C1] (twice x0new))
    = vzeros (length W_deflation).
Proof.
  assert (Hsa : forall w y, In w W_deflation ->
                            _ipstd w (twice y) = _ipstd (twice w) y)
    by (intros w y _; apply ipstd_twice).
  split; [exact ipstd_sesquilinear |]. split; [exact Hsa |].
  split; [exact twice_example_solves |].
  exact (adapted_guess_residual_orthogonal solve_1x1 _ipstd twice W_deflation
           [C1; C1] [C0; C0] ipstd_sesquilinear Hsa twice_example_solves).
Defined.

Lemma mat_vec_vzeros_full (m k : nat) (A : matrix) :
  rectangular m A -> A <> [] -> k = length A -> mat_vec A (vzeros k) = vzeros m.
Proof.
  intros HA Hne Hk. destruct (mat_vec_vzeros m A k HA) as (j & _ & Hj).
  rewrite Hj. f_equal.
  rewrite <- (mat_vec_length_full m A (vzeros k) HA); [| | exact Hne].
  - rewrite Hj. unfold vzeros. rewrite repeat_length. reflexivity.
  - unfold vzeros. rewrite repeat_length. exact Hk.
Qed.

(** X8. With [E = <W, AW>] Hermitian and inverted exactly by the solver,
    the operator [P] of [get_projection] maps every combination of the
    columns of [W] to zero, and applying it to its own output changes
    nothing. *)
Theorem Pfun_projector (solve : matrix -> vec -> result vec)
    (inner_product : vec -> vec -> C) (m : nat) (W AW : matrix) :
  sesquilinear inner_product ->
  rectangular m W -> length AW = length W ->
  self_adjoint_on inner_product W AW ->
  solves solve (gram inner_product W AW) ->
  inverts solve (gram inner_product W AW) ->
  (forall c, length c = length W ->
     Pfun solve inner_product W AW (mat_vec W c)
     = Ok (vzeros (length (mat_vec W c)))) /\
  (forall x Px, length x = m ->
     Pfun solve inner_product W AW x = Ok Px ->
     Pfun solve inner_product W AW Px = Ok Px).
Proof.
  intros Hip HW Hlen Hsa Hsolve Hinv.
  pose proof (gram_length inner_product W AW) as HlE.
  pose proof (gram_rectangular inner_product W AW) as HrE.
  split.
  - intros c Hc. unfold Pfun, _direct_solve.
    rewrite (ip_col_mat_vec inner_product Hip), Hsa.
    assert (HEc : vadd (vzeros (length AW)) (mat_vec (gram inner_product W AW) c)
                  = mat_vec (gram inner_product W AW) c).
    { destruct (gram inner_product W AW) as [| e E'] eqn:HE.
      - simpl in HlE. rewrite <- HlE. reflexivity.
      - apply vadd_vzeros_l.
        rewrite (mat_vec_length_full (length W) (e :: E') c HrE);
          [lia | simpl in *; lia | discriminate]. }
    rewrite HEc, (Hinv c) by lia. rewrite bind_Ok, vsub_self. reflexivity.
  - intros x Px Hx HPx.
    destruct (Pfun_orthogonal inner_product Hip solve W AW x Hlen Hsa Hsolve)
      as (Px' & HPx' & Horth).
    rewrite HPx in HPx'. inversion HPx'. subst Px'. clear HPx'.
    assert (HlPx : (m <= length Px)%nat).
    { unfold Pfun in HPx.
      destruct (_direct_solve solve (gram inner_product W AW)
                              (ip_col inner_product AW x)) as [z |];
        [| discriminate].
      rewrite bind_Ok in HPx. inversion HPx. rewrite vsub_length. lia. }
    unfold Pfun, _direct_solve. rewrite Horth.
    assert (Hz : solve (gram inner_product W AW) (vzeros (length AW))
                 = Ok (vzeros (length W))).
    { destruct (gram inner_product W AW) as [| e E'] eqn:HE.
      - simpl in HlE. rewrite <- HlE.
        assert (HW0 : length W = O) by lia. rewrite HW0.
        apply (Hinv []). reflexivity.
      - rewrite Hlen.
        pose proof (Hinv (vzeros (length W))) as Hz.
        rewrite (mat_vec_vzeros_full (length W) (length W) (e :: E') HrE) in Hz;
          [| discriminate | lia].
        apply Hz. unfold vzeros. rewrite repeat_length. lia. }
    rewrite Hz, bind_Ok.
    destruct (mat_vec_vzeros m W (length W) HW) as (j & Hj & HWz).
    rewrite HWz, vsub_vzeros by lia. reflexivity.
Qed.

Lemma deflation_example_inverts :
  inverts solve_1x1 (gram _ipstd W_deflation AW_deflation).
Proof.
  intros z Hz. unfold gram, W_deflation, AW_deflation in *. simpl in Hz.
  destruct z as [| c [| c' z]]; simpl in Hz; try discriminate.
  cbn [map mat_vec vscale]. rewrite vadd_nil_r. cbn [solve_1x1].
  assert (He : Re (_ipstd [C1; C0] [RtoC 2; C0]) = 2) by (simpl; ring).
  rewrite He, Cdiv_real_ok by lra. rewrite bind_Ok. do 2 f_equal.
  apply C_eq; simpl; field.
Qed.

(** The one-column basis [W_deflation] in the plane. *)
Lemma Pfun_projector_witness :
  sesquilinear _ipstd /\
  rectangular 2 W_deflation /\
  length AW_deflation = length W_deflation /\
  self_adjoint_on _ipstd W_deflation AW_deflation /\
  solves solve_1x1 (gram _ipstd W_deflation AW_deflation) /\
  inverts solve_1x1 (gram _ipstd W_deflation AW_deflation) /\
  (forall c, length c = length W_deflation ->
     Pfun solve_1x1 _ipstd W_deflation AW_deflation (mat_vec W_deflation c)
     = Ok (vzeros (length (mat_vec W_deflation c)))) /\
  (forall x Px, length x = 2%nat ->
     Pfun solve_1x1 _ipstd W_deflation AW_deflation x = Ok Px ->
     Pfun solve_1x1 _ipstd W_deflation AW_deflation Px = Ok Px).
Proof.
  assert (HW : rectangular 2 W_deflation)
    by (unfold rectangular, W_deflation; repeat constructor).
  split; [exact ipstd_sesquilinear |]. split; [exact HW |].
  split; [reflexivity |].
  split; [exact deflation_example_self_adjoint |].
  split; [exact deflation_example_solves |].
  split; [exact deflation_example_inverts |].
  exact (Pfun_projector solve_1x1 _ipstd 2 W_deflation AW_deflation
           ipstd_sesquilinear HW eq_refl deflation_example_self_adjoint
           deflation_example_solves deflation_example_inverts).
Defined.

(** ** Order of the Ritz values *)

Lemma insert_by_perm (key : nat -> R) (i : nat) (l : list nat) :
  Permutation (insert_by key i l) (i :: l).
Proof.
  induction l as [| j l IH]; simpl; [apply Permutation_refl |].
  destruct (Rle_dec (key i) (key j)); [apply Permutation_refl |].
  eapply Permutation_trans; [apply perm_skip, IH | apply perm_swap].
Qed.

Lemma argsort_perm (keys : list R) :
  Permutation (argsort keys) (seq 0 (length keys)).
Proof.
  unfold argsort. induction (seq 0 (length keys)) as [| i l IH]; simpl.
  - apply Permutation_refl.
  - eapply Permutation_trans; [apply insert_by_perm | apply perm_skip, IH].
Qed.

Lemma ascending_cons (a : R) (l : list R) :
  ascending (a :: l) <-> (match l with [] => True | b :: _ => a <= b end)
                         /\ ascending l.
Proof. destruct l as [| b l]; simpl; tauto. Qed.

Lemma insert_by_ascending (key : nat -> R) (i : nat) (l : list nat) :
  ascending (map key l) -> ascending (map key (insert_by key i l)).
Proof.
  induction l as [| j l IH]; intros Hl; [exact I |].
  cbn [insert_by]. destruct (Rle_dec (key i) (key j)) as [Hle | Hgt].
  - change (ascending (key i :: map key (j :: l))).
    apply ascending_cons. split; [exact Hle | exact Hl].
  - change (ascending (key j :: map key (insert_by key i l))).
    change (ascending (key j :: map key l)) in Hl.
    apply ascending_cons in Hl. destruct Hl as [Hhd Htl].
    apply ascending_cons. split; [| apply IH; exact Htl].
    destruct l as [| j' l]; cbn [insert_by map]; [lra |].
    destruct (Rle_dec (key i) (key j')); cbn [map]; [lra | exact Hhd].
Qed.

Lemma argsort_ascending (keys : list R) :
  ascending (map (fun i => nth i keys 0) (argsort keys)).
Proof.
  unfold argsort. induction (seq 0 (length keys)) as [| i l IH]; [exact I |].
  cbn [fold_right]. apply insert_by_ascending. exact IH.
Qed.

Lemma map_nth_seq_app (pre l : list R) :
  map (fun i => nth i (pre ++ l) 0) (seq (length pre) (length l)) = l.
Proof.
  revert pre. induction l as [| a l IH]; intros pre; [reflexivity |].
  cbn [length seq map]. f_equal.
  - rewrite app_nth2, Nat.sub_diag by lia. reflexivity.
  - specialize (IH (pre ++ [a])). rewrite <- app_assoc, length_app in IH.
    cbn [length app] in IH. rewrite Nat.add_1_r in IH. exact IH.
Qed.

Lemma take_argsort_perm (keys l : list R) :
  length keys = length l ->
  Permutation (map (fun i => nth i l 0) (argsort keys)) l.
Proof.
  intros Hlen.
  eapply Permutation_trans; [apply Permutation_map, argsort_perm |].
  rewrite Hlen. pose proof (map_nth_seq_app [] l) as Hl. cbn [app length] in Hl.
  rewrite Hl. apply Permutation_refl.
Qed.

Lemma madd_length (A B : matrix) :
  length (madd A B) = Nat.min (length A) (length B).
Proof.
  revert B. induction A as [| a A IH]; intros [| b B]; simpl; try reflexivity.
  rewrite IH. reflexivity.
Qed.

(** X9. Whenever [get_ritz] returns, the Ritz values come back in ascending
    order of their moduli, they are a rearrangement of the eigenvalues that
    [eigh] gave for the projected matrix, and there are as many Ritz vectors
    and residual norms as Ritz values. *)
Theorem get_ritz_sorted_by_modulus (inv : matrix -> result matrix)
    (eigh : matrix -> list R * matrix) (inner_product : vec -> vec -> C)
    (W AW Vfull Hfull : matrix) (M : option linop)
    (ritz_vals : list R) (ritz_vecs : matrix) (norm_ritz_res : list R) :
  get_ritz inv eigh inner_product W AW Vfull Hfull M
  = Ok (ritz_vals, ritz_vecs, norm_ritz_res) ->
  ascending (map Rabs ritz_vals) /\
  (exists ritzmat, Permutation ritz_vals (fst (eigh ritzmat))) /\
  length ritz_vecs = length ritz_vals /\
  length norm_ritz_res = length ritz_vals.
Proof.
  unfold get_ritz. intros H.
  match type of H with
  | bind ?b _ = _ => destruct b as [blocks | e]; [| discriminate]
  end.
  rewrite bind_Ok in H. cbv zeta in H.
  match type of H with
  | context [eigh ?A] => set (ritzmat := A) in H
  end.
  destruct (eigh ritzmat) as [lam U] eqn:Heigh.
  inversion H as [[Hvals Hvecs Hres]]. clear H.
  split; [| split; [| split]].
  - rewrite map_map.
    rewrite (map_ext (fun i => Rabs (nth i lam 0))
                     (fun i => nth i (map Rabs lam) 0)).
    + apply argsort_ascending.
    + intros i. rewrite <- (map_nth Rabs), Rabs_R0. reflexivity.
  - exists ritzmat. rewrite Heigh. apply take_argsort_perm. apply length_map.
  - unfold mat_mul. rewrite madd_length, !length_map. lia.
  - rewrite !length_map. reflexivity.
Qed.

(** Without deflation vectors neither [inv] nor the preconditioner is
    called, and [get_ritz] returns. *)
Lemma get_ritz_no_deflation_returns (inv : matrix -> result matrix)
    (eigh : matrix -> list R * matrix) (inner_product : vec -> vec -> C)
    (AW Vfull Hfull : matrix) (M : option linop) :
  exists vals vecs res,
    get_ritz inv eigh inner_product [] AW Vfull Hfull M = Ok (vals, vecs, res).
Proof.
  unfold get_ritz. cbn [length Nat.ltb Nat.leb]. rewrite bind_Ok. cbv zeta.
  match goal with
  | |- context [eigh ?A] => destruct (eigh A) as [lam U]
  end.
  do 3 eexists. reflexivity.
Qed.

(** The Lanczos data [Vfull_ritz], [Hfull_ritz] without deflation. *)
Lemma get_ritz_sorted_by_modulus_witness :
  exists ritz_vals ritz_vecs norm_ritz_res,
    get_ritz inv_unused eigh_ritz _ipstd [] [] Vfull_ritz Hfull_ritz None
    = Ok (ritz_vals, ritz_vecs, norm_ritz_res) /\
    ascending (map Rabs ritz_vals) /\
    (exists ritzmat, Permutation ritz_vals (fst (eigh_ritz ritzmat))) /\
    length ritz_vecs = length ritz_vals /\
    length norm_ritz_res = length ritz_vals.
Proof.
  destruct (get_ritz_no_deflation_returns inv_unused eigh_ritz _ipstd []
              Vfull_ritz Hfull_ritz None) as (vals & vecs & res & Hrun).
  exists vals, vecs, res. split; [exact Hrun |].
  exact (get_ritz_sorted_by_modulus inv_unused eigh_ritz _ipstd [] []
           Vfull_ritz Hfull_ritz None vals vecs res Hrun).
Defined.

(** ** What [newton] returns *)

(** What one completed step appends. *)
Lemma newton_step_appends (la : linalg) (me : model_evaluator)
    (cfg : newton_config) (linear_solver : linear_solver_type)
    (st st1 : newton_state) :
  newton_step la me cfg linear_solver st = Ok st1 ->
  exists nrm rv,
    ns_Fx_norms st1 = ns_Fx_norms st ++ [nrm] /\
    ns_linear_relresvecs st1 = ns_linear_relresvecs st ++ [rv] /\
    ns_k st1 = S (ns_k st) /\
    _norm (me_inner_product me) (compute_f me (ns_x st1)) None = Ok nrm.
Proof.
  unfold newton_step. intros H.
  repeat match type of H with
         | bind ?m _ = Ok _ =>
             destruct m eqn:?; simpl bind in H; [| discriminate]
         end.
  inversion H. simpl. do 2 eexists. repeat split. assumption.
Qed.

(** The invariant of the loop of [newton]: one residual norm more than
    linear solves, [k] counts the solves, and the last norm is the norm of
    [F] at the current iterate. *)
Lemma newton_loop_spec (la : linalg) (me : model_evaluator)
    (cfg : newton_config) (linear_solver : linear_solver_type)
    (remaining : nat) (st st1 : newton_state) :
  newton_loop la me cfg linear_solver remaining st = Ok st1 ->
  length (ns_Fx_norms st) = S (length (ns_linear_relresvecs st)) ->
  length (ns_linear_relresvecs st) = ns_k st ->
  _norm (me_inner_product me) (compute_f me (ns_x st)) None
  = Ok (last1 (ns_Fx_norms st)) ->
  length (ns_Fx_norms st1) = S (length (ns_linear_relresvecs st1)) /\
  length (ns_linear_relresvecs st1) = ns_k st1 /\
  _norm (me_inner_product me) (compute_f me (ns_x st1)) None
  = Ok (last1 (ns_Fx_norms st1)) /\
  hd 0 (ns_Fx_norms st1) = hd 0 (ns_Fx_norms st) /\
  (ns_k st1 <= ns_k st + remaining)%nat /\
  ((ns_k st1 < ns_k st + remaining)%nat ->
   last1 (ns_Fx_norms st1) <= nonlinear_tol cfg).
Proof.
  revert st. induction remaining as [| r IH]; intros st Hrun Hlen Hk Hnrm.
  - simpl in Hrun. inversion Hrun. subst st1.
    repeat split; try assumption; lia.
  - cbn [newton_loop] in Hrun.
    destruct (Rgt_dec (last1 (ns_Fx_norms st)) (nonlinear_tol cfg)) as [Hgt | Hle].
    + destruct (newton_step la me cfg linear_solver st) as [st' |] eqn:Hstep;
        [| discriminate].
      rewrite bind_Ok in Hrun.
      destruct (newton_step_appends la me cfg linear_solver st st' Hstep)
        as (nrm & rv & HF & HL & Hk' & Hn').
      destruct (IH st' Hrun) as (H1 & H2 & H3 & H4 & H5 & H6).
      * rewrite HF, HL, !length_app. simpl. lia.
      * rewrite HL, length_app, Hk'. simpl. lia.
      * rewrite HF. unfold last1. rewrite last_last. exact Hn'.
      * repeat split; try assumption.
        -- rewrite H4, HF. destruct (ns_Fx_norms st); [discriminate | reflexivity].
        -- lia.
        -- intros Hlt. apply H6. lia.
    + inversion Hrun. subst st1.
      repeat split; try assumption; try lia.
      intros _. lra.
Qed.

(** X10. Whenever [newton] returns [(x, error_code, Fx_norms,
    linear_relresvecs)]: there is one residual norm more than linear
    solves, at most [newton_maxiter] solves were made, the first norm is
    that of [F(x0)] and the last one that of [F(x)], the error code is 1
    exactly when the budget of steps was used up and 0 otherwise, and with
    an error code of 0 the last norm is not above [nonlinear_tol] (the
    test that ended the loop; on arrays of numbers, as here, the norm is
    then within the tolerance). *)
Theorem newton_result_shape (la : linalg) (me : model_evaluator)
    (cfg : newton_config) (linear_solver : linear_solver_type)
    (linear_solver_maxiter : option Z) (x0 x : vec) (error_code : Z)
    (Fx_norms : list R) (linear_relresvecs : list (list R)) :
  newton la me cfg linear_solver linear_solver_maxiter x0
  = Ok (x, error_code, Fx_norms, linear_relresvecs) ->
  length Fx_norms = S (length linear_relresvecs) /\
  (length linear_relresvecs <= newton_maxiter cfg)%nat /\
  _norm (me_inner_product me) (compute_f me x0) None = Ok (hd 0 Fx_norms) /\
  _norm (me_inner_product me) (compute_f me x) None = Ok (last1 Fx_norms) /\
  (error_code = 1%Z <-> length linear_relresvecs = newton_maxiter cfg) /\
  (error_code = 0%Z <-> length linear_relresvecs <> newton_maxiter cfg) /\
  (error_code = 0%Z -> ~ last1 Fx_norms > nonlinear_tol cfg).
Proof.
  unfold newton. intros H.
  destruct (_norm (me_inner_product me) (compute_f me x0) None) as [nrm |] eqn:Hn0;
    [| discriminate].
  rewrite bind_Ok in H. cbv zeta in H.
  match type of H with
  | bind (newton_loop _ _ _ _ _ ?s) _ = _ => set (st0 := s) in H
  end.
  destruct (newton_loop la me cfg linear_solver (newton_maxiter cfg) st0)
    as [st |] eqn:Hloop; [| discriminate].
  rewrite bind_Ok in H. inversion H as [[Hx Hec HF HL]]. clear H.
  destruct (newton_loop_spec la me cfg linear_solver _ st0 st Hloop)
    as (H1 & H2 & H3 & H4 & H5 & H6); try reflexivity.
  { unfold st0. simpl. unfold last1. simpl. exact Hn0. }
  unfold st0 in H4, H5, H6. simpl in H4, H5, H6.
  rewrite <- H2 in *. subst x error_code Fx_norms linear_relresvecs.
  assert (Hcode : (if (length (ns_linear_relresvecs st) =? newton_maxiter cfg)%nat
                   then 1%Z else 0%Z) = 1%Z
                  <-> length (ns_linear_relresvecs st) = newton_maxiter cfg).
  { destruct (_ =? _)%nat eqn:E.
    - apply Nat.eqb_eq in E. tauto.
    - apply Nat.eqb_neq in E. split; [discriminate | contradiction]. }
  assert (Hcode0 : (if (length (ns_linear_relresvecs st) =? newton_maxiter cfg)%nat
                    then 1%Z else 0%Z) = 0%Z
                   <-> length (ns_linear_relresvecs st) <> newton_maxiter cfg).
  { destruct (_ =? _)%nat eqn:E.
    - apply Nat.eqb_eq in E. split; [discriminate | contradiction].
    - apply Nat.eqb_neq in E. tauto. }
  repeat split; try assumption; try (apply Hcode; assumption);
    try (apply Hcode0; assumption).
  - rewrite H4. reflexivity.
  - intros Hz Hgt. apply Hcode0 in Hz.
    assert (Hle : last1 (ns_Fx_norms st) <= nonlinear_tol cfg) by (apply H6; lia).
    lra.
Qed.

(** One Newton step on [F(x) = x - 1] from [x0 = 0]. *)
Lemma newton_result_shape_witness :
  exists x error_code Fx_norms linear_relresvecs,
    newton la_unused me_shift (cfg_default "constant" 1) exact_solver None [C0]
    = Ok (x, error_code, Fx_norms, linear_relresvecs) /\
    length Fx_norms = S (length linear_relresvecs) /\
    (length linear_relresvecs <= newton_maxiter (cfg_default "constant" 1))%nat /\
    _norm (me_inner_product me_shift) (compute_f me_shift [C0]) None
    = Ok (hd 0 Fx_norms) /\
    _norm (me_inner_product me_shift) (compute_f me_shift x) None
    = Ok (last1 Fx_norms) /\
    (error_code = 1%Z
     <-> length linear_relresvecs = newton_maxiter (cfg_default "constant" 1)) /\
    (error_code = 0%Z
     <-> length linear_relresvecs <> newton_maxiter (cfg_default "constant" 1)) /\
    (error_code = 0%Z ->
     ~ last1 Fx_norms > nonlinear_tol (cfg_default "constant" 1)).
Proof.
  do 4 eexists. split; [exact (newton_shift_one_step "constant") |].
  exact (newton_result_shape la_unused me_shift (cfg_default "constant" 1)
           exact_solver None [C0] _ _ _ _ (newton_shift_one_step "constant")).
Defined.

(** X11. From the second Newton step on, the forcing terms ['type 1'] and
    ['type 2'] give a linear tolerance that is at most [eta_max], and at
    least [eta_min] whenever [eta_min <= eta_max]. *)
Theorem forcing_eta_clipped (cfg : newton_config) (eta_prev : R)
    (Fx_norms : list R) (out : option solver_out) (eta : R) :
  forcing_term cfg = "type 1"%string \/ forcing_term cfg = "type 2"%string ->
  forcing_eta cfg (Some eta_prev) Fx_norms out = Ok eta ->
  eta <= eta_max cfg /\ Rmin (eta_min cfg) (eta_max cfg) <= eta.
Proof.
  intros Hft H. unfold forcing_eta in H.
  assert (Hclip : forall a b,
             Rmin (Rmax (Rmax a b) (eta_min cfg)) (eta_max cfg) <= eta_max cfg /\
             Rmin (eta_min cfg) (eta_max cfg)
             <= Rmin (Rmax (Rmax a b) (eta_min cfg)) (eta_max cfg)).
  { intros a b. split; [apply Rmin_r |].
    apply Rle_min_compat_r. apply Rmax_r. }
  destruct Hft as [Hft | Hft]; rewrite Hft in H; cbn [String.eqb Ascii.eqb Bool.eqb] in H.
  - destruct (Rdiv_checked _ _) as [q |]; [| discriminate].
    rewrite bind_Ok in H. cbv zeta in H. inversion H. apply Hclip.
  - destruct (Rdiv_checked _ _) as [q |]; [| discriminate].
    rewrite bind_Ok in H. cbv zeta in H. inversion H. apply Hclip.
Qed.

(** The second step with the default bounds after the norms [1, 1/2]. *)
Lemma forcing_eta_clipped_witness :
  exists eta,
    forcing_eta (cfg_default "type 1" 2) (Some (1 / 10)) [1; 1 / 2] None = Ok eta /\
    eta <= eta_max (cfg_default "type 1" 2) /\
    Rmin (eta_min (cfg_default "type 1" 2)) (eta_max (cfg_default "type 1" 2)) <= eta.
Proof.
  assert (Hrun : exists eta,
             forcing_eta (cfg_default "type 1" 2) (Some (1 / 10)) [1; 1 / 2] None
             = Ok eta).
  { unfold forcing_eta, Rdiv_checked, last2. cbn.
    destruct (Req_dec_T 1 0) as [H | _]; [lra |]. eexists. reflexivity. }
  destruct Hrun as (eta & Hrun). exists eta. split; [exact Hrun |].
  exact (forcing_eta_clipped (cfg_default "type 1" 2) (1 / 10) [1; 1 / 2] None eta
           (or_introl eq_refl) Hrun).
Defined.

(** The cap on the iterations of the linear solver, for an integer
    argument. *)

(** X12. For an integer [linear_solver_maxiter] and a non-empty [x], the
    cap never raises the value, keeps the two bases within [maxmem] bytes,
    leaves a value that already fits unchanged, and capping again changes
    nothing. *)
Theorem limit_maxiter_integer_cap (m : Z) (n : nat) :
  n <> O ->
  exists m',
    limit_maxiter (Some m) n = Ok (Some m') /\
    (m' <= m)%Z /\
    (2 * 16 * m' * Z.of_nat n <= maxmem)%Z /\
    ((2 * 16 * m * Z.of_nat n <= maxmem)%Z -> m' = m) /\
    limit_maxiter (Some m') n = Ok (Some m').
Proof.
  intros Hn. unfold limit_maxiter.
  destruct (Z.of_nat n =? 0)%Z eqn:E; [apply Z.eqb_eq in E; lia |].
  assert (Hpos : (0 < 2 * 16 * Z.of_nat n)%Z) by lia.
  set (cap := (maxmem / (2 * 16 * Z.of_nat n))%Z).
  pose proof (Z.mul_div_le maxmem _ Hpos) as Hdiv. fold cap in Hdiv.
  exists (Z.min m cap). cbn [py2_min].
  split; [reflexivity |]. split; [apply Z.le_min_l |].
  pose proof (Z.le_min_r m cap) as Hmin.
  split; [nia |]. split.
  - intros Hfit. apply Z.min_l. unfold cap.
    apply Z.div_le_lower_bound; [exact Hpos | lia].
  - rewrite Z.min_l by exact Hmin. reflexivity.
Qed.

(** A budget of a hundred million iterations for a column of height one. *)
Lemma limit_maxiter_integer_cap_witness :
  1%nat <> O /\
  exists m',
    limit_maxiter (Some 100000000%Z) 1 = Ok (Some m') /\
    (m' <= 100000000)%Z /\
    (2 * 16 * m' * Z.of_nat 1 <= maxmem)%Z /\
    ((2 * 16 * 100000000 * Z.of_nat 1 <= maxmem)%Z -> m' = 100000000%Z) /\
    limit_maxiter (Some m') 1 = Ok (Some m').
Proof.
  split; [lia |].
  apply (limit_maxiter_integer_cap 100000000 1). lia.
Defined.

(** ** The histories of MINRES and GMRES *)

Section SolverHistory.

Variable K : krylov_kernel.
Variable tol : R.
Variable maxiter : nat.
Variable body : solver_state K -> result (solver_state K).

(** What holds of every entry appended, and of the one appended when the
    budget ends without convergence. *)
Variable floor : fl -> Prop.
Variable above : fl -> Prop.

Hypothesis body_appends : forall st st',
  body st = Ok st' ->
  ss_k st' = S (ss_k st) /\
  exists r, ss_relresvec st' = ss_relresvec st ++ [r] /\ floor r /\
            (ss_info st' = ss_info st \/
             (ss_info st' = 1%Z /\ S (ss_k st) = maxiter /\ above r)).

Lemma solver_loop_history (remaining : nat) :
  forall (r0 : fl) (st st' : solver_state K),
  solver_loop body tol remaining st = Ok st' ->
  (ss_k st + remaining = maxiter)%nat ->
  length (ss_relresvec st) = S (ss_k st) ->
  hd NaN (ss_relresvec st) = r0 ->
  Forall floor (tl (ss_relresvec st)) ->
  Forall (fun r => fl_gt r tol) (removelast (ss_relresvec st)) ->
  ss_info st = 0%Z ->
  (ss_k st <= ss_k st' <= maxiter)%nat /\
  length (ss_relresvec st') = S (ss_k st') /\
  hd NaN (ss_relresvec st') = r0 /\
  Forall floor (tl (ss_relresvec st')) /\
  Forall (fun r => fl_gt r tol) (removelast (ss_relresvec st')) /\
  (ss_info st' = 0%Z \/
   (ss_info st' = 1%Z /\ ss_k st' = maxiter /\ (ss_k st < ss_k st')%nat /\
    above (last_entry (ss_relresvec st')))) /\
  ((ss_k st' < maxiter)%nat -> ~ fl_gt (last_entry (ss_relresvec st')) tol) /\
  (ss_k st' = ss_k st <->
   (~ fl_gt (last_entry (ss_relresvec st)) tol \/ remaining = O)).
Proof.
  induction remaining as [| rem IH];
    intros r0 st st' Hrun Hk Hlen Hhd Hfl Hab Hinfo.
  - simpl in Hrun. inversion Hrun. subst st'.
    repeat split; try assumption; try lia; auto.
  - cbn [solver_loop] in Hrun.
    destruct (fl_gt_dec (last_entry (ss_relresvec st)) tol) as [Hgt | Hle].
    + destruct (body st) as [st1 |] eqn:Hstep; [| discriminate].
      rewrite bind_Ok in Hrun.
      destruct (body_appends st st1 Hstep) as (Hk1 & r & Hrel & Hfloor & Hinfo1).
      assert (Hne : ss_relresvec st <> [])
        by (intros E; rewrite E in Hlen; discriminate).
      assert (Hhd1 : hd NaN (ss_relresvec st1) = r0).
      { rewrite Hrel. destruct (ss_relresvec st); [contradiction | exact Hhd]. }
      assert (Hfl1 : Forall floor (tl (ss_relresvec st1))).
      { rewrite Hrel. destruct (ss_relresvec st) as [| a l]; [contradiction |].
        simpl in *. apply Forall_app. split; [exact Hfl | auto]. }
      assert (Hab1 : Forall (fun r => fl_gt r tol)
                            (removelast (ss_relresvec st1))).
      { rewrite Hrel, removelast_last.
        rewrite (app_removelast_last NaN Hne). apply Forall_app.
        split; [exact Hab | constructor; [exact Hgt | constructor]]. }
      assert (Hlen1 : length (ss_relresvec st1) = S (ss_k st1)).
      { rewrite Hrel, length_app, Hk1. simpl. lia. }
      destruct Hinfo1 as [Hsame | (Hone & Hend & Habove)].
      * assert (Hinfo1 : ss_info st1 = 0%Z) by congruence.
        assert (Hk1' : (ss_k st1 + rem = maxiter)%nat) by lia.
        destruct (IH r0 st1 st' Hrun Hk1' Hlen1 Hhd1 Hfl1 Hab1 Hinfo1)
          as (H1 & H2 & H3 & H4 & H5 & H6 & H7 & H8).
        split; [lia |]. do 4 (split; [assumption |]).
        split.
        { destruct H6 as [H6 | (H6 & H6' & H6'' & H6''')]; [left; exact H6 |].
          right. repeat split; try assumption; lia. }
        split; [exact H7 |].
        split; [lia |]. intros [H | H]; [contradiction | discriminate].
      * assert (Hrem : rem = O) by lia. subst rem.
        simpl in Hrun. inversion Hrun. subst st'.
        split; [lia |]. do 4 (split; [assumption |]).
        split.
        { right. repeat split; try assumption; try lia.
          rewrite Hrel, last_entry_snoc. exact Habove. }
        split; [lia |].
        split; [lia |]. intros [H | H]; [contradiction | discriminate].
    + inversion Hrun. subst st'.
      split; [lia |]. do 4 (split; [assumption |]).
      split; [left; exact Hinfo |].
      split; [intros _; exact Hle |].
      split; [intros _; left; exact Hle | reflexivity].
Qed.

End SolverHistory.

Lemma minres_iteration_appends (K : krylov_kernel) (tol : R) (maxiter : nat)
    (explicit_residual : bool) (st st' : solver_state K) :
  minres_iteration K tol maxiter explicit_residual st = Ok st' ->
  ss_k st' = S (ss_k st) /\
  exists r, ss_relresvec st' = ss_relresvec st ++ [r] /\ fl_ge r float_eps /\
            (ss_info st' = ss_info st \/
             (ss_info st' = 1%Z /\ S (ss_k st) = maxiter /\ fl_gt r tol)).
Proof.
  intros H. unfold minres_iteration in H.
  destruct explicit_residual; policy_cases H;
    inversion H; subst st'; cbn [ss_k ss_relresvec ss_info];
    (split; [reflexivity |]); eexists;
    (split; [reflexivity |]); (split; [apply py_max_ge |]);
    first [ left; reflexivity
          | right; split; [reflexivity |]; split;
            [ apply Nat.eqb_eq; assumption
            | apply py_max_gt; cbn; first [exact I | assumption] ] ].
Qed.

Lemma gmres_iteration_appends (K : krylov_kernel) (tol : R) (maxiter : nat)
    (explicit_residual : bool) (st st' : solver_state K) :
  gmres_iteration K tol maxiter explicit_residual st = Ok st' ->
  ss_k st' = S (ss_k st) /\
  exists r, ss_relresvec st' = ss_relresvec st ++ [r] /\ True /\
            (ss_info st' = ss_info st \/
             (ss_info st' = 1%Z /\ S (ss_k st) = maxiter /\ fl_ge r tol)).
Proof.
  intros H. unfold gmres_iteration in H.
  destruct explicit_residual; policy_cases H;
    inversion H; subst st'; cbn [ss_k ss_relresvec ss_info];
    (split; [reflexivity |]); eexists;
    (split; [reflexivity |]); (split; [exact I |]);
    first [ left; reflexivity
          | right; split; [reflexivity |]; split;
            [ apply Nat.eqb_eq; assumption
            | cbn; first [exact I | assumption] ] ].
Qed.

(** An entry that is not above the tolerance and not [nan] is within the
    tolerance. *)
Lemma fl_not_gt_le (x : fl) (t : R) : ~ fl_gt x t -> x <> NaN -> fl_le x t.
Proof.
  destruct x as [r | |]; cbn; intros H Hn; [lra | tauto | congruence].
Qed.

Lemma fl_ge_not_nan (x : fl) (t : R) : fl_ge x t -> x <> NaN.
Proof. destruct x; cbn; intros H; [discriminate | discriminate | contradiction]. Qed.

Lemma last_in_nonempty {A : Type} (l : list A) (d : A) :
  l <> [] -> In (last l d) l.
Proof.
  induction l as [| a [| b l] IH]; intros H; [contradiction | left; reflexivity |].
  right. apply IH. discriminate.
Qed.

(** X13. Whenever [minres] returns after [k] iterations: [k <= maxiter],
    the history has [k + 1] entries and starts with the initial relative
    residual, every later entry is at least machine epsilon (and so never
    [nan]), every entry but the last is above [tol], [info] is 0 or 1,
    [info = 1] only at [k = maxiter] with the last entry above [tol],
    stopping before the budget means the last entry is within [tol], and
    no iteration is made exactly when the initial residual is within [tol]
    or [maxiter] is 0. *)
Theorem minres_history (K : krylov_kernel) (tol : R) (maxiter : nat)
    (explicit_residual : bool) (s0 : kstate K) (r0 : R) (st : solver_state K) :
  minres K tol maxiter explicit_residual s0 r0 = Ok st ->
  (ss_k st <= maxiter)%nat /\
  length (ss_relresvec st) = S (ss_k st) /\
  hd NaN (ss_relresvec st) = Num r0 /\
  Forall (fun r => fl_ge r float_eps) (tl (ss_relresvec st)) /\
  Forall (fun r => fl_gt r tol) (removelast (ss_relresvec st)) /\
  (ss_info st = 0%Z \/ ss_info st = 1%Z) /\
  (ss_info st = 1%Z ->
   ss_k st = maxiter /\ (0 < maxiter)%nat /\
   fl_gt (last_entry (ss_relresvec st)) tol) /\
  ((ss_k st < maxiter)%nat -> fl_le (last_entry (ss_relresvec st)) tol) /\
  (ss_k st = O <-> (r0 <= tol \/ maxiter = O)).
Proof.
  unfold minres. intros Hrun.
  destruct (solver_loop_history K tol maxiter
              (minres_iteration K tol maxiter explicit_residual)
              (fun r => fl_ge r float_eps) (fun r => fl_gt r tol)
              (minres_iteration_appends K tol maxiter explicit_residual)
              maxiter (Num r0) (solver_init K s0 r0) st Hrun
              eq_refl eq_refl eq_refl (Forall_nil _) (Forall_nil _) eq_refl)
    as (H1 & H2 & H3 & H4 & H5 & H6 & H7 & H8).
  cbn [solver_init ss_k ss_relresvec] in *.
  change (last_entry [Num r0]) with (Num r0) in H8. cbn [fl_gt] in H8.
  assert (Hnn : last_entry (ss_relresvec st) <> NaN).
  { unfold last_entry. destruct (ss_relresvec st) as [| a [| b l]] eqn:E.
    - discriminate H2.
    - simpl in *. rewrite H3. discriminate.
    - change (last (a :: b :: l) NaN) with (last (b :: l) NaN).
      cbn [tl] in H4. rewrite Forall_forall in H4.
      apply (fl_ge_not_nan _ float_eps). apply H4.
      apply last_in_nonempty. discriminate. }
  split; [lia |]. split; [exact H2 |]. split; [exact H3 |].
  split; [exact H4 |]. split; [exact H5 |].
  split.
  { destruct H6 as [H6 | (H6 & _)]; [left | right]; exact H6. }
  split.
  { intros Hi. destruct H6 as [H6 | (_ & Hk & Hpos & Hab)];
      [rewrite H6 in Hi; discriminate |].
    split; [exact Hk |]. split; [lia | exact Hab]. }
  split.
  { intros Hlt. apply fl_not_gt_le; [apply H7; exact Hlt | exact Hnn]. }
  split.
  - intros E. destruct (proj1 H8 E) as [H | H]; [left; lra | right; exact H].
  - intros [H | H]; apply H8; [left; lra | right; exact H].
Qed.

(** A system solved exactly in the first of at most three iterations. *)
Lemma minres_history_witness :
  exists st,
    minres kernel_exact 1e-5 3 false O 1 = Ok st /\
    (ss_k st <= 3)%nat /\
    length (ss_relresvec st) = S (ss_k st) /\
    hd NaN (ss_relresvec st) = Num 1 /\
    Forall (fun r => fl_ge r float_eps) (tl (ss_relresvec st)) /\
    Forall (fun r => fl_gt r 1e-5) (removelast (ss_relresvec st)) /\
    (ss_info st = 0%Z \/ ss_info st = 1%Z) /\
    (ss_info st = 1%Z ->
     ss_k st = 3%nat /\ (0 < 3)%nat /\
     fl_gt (last_entry (ss_relresvec st)) 1e-5) /\
    ((ss_k st < 3)%nat -> fl_le (last_entry (ss_relresvec st)) 1e-5) /\
    (ss_k st = O <-> (1 <= 1e-5 \/ 3%nat = O)).
Proof.
  eexists. split; [exact minres_exact_run |].
  exact (minres_history kernel_exact 1e-5 3 false O 1 _ minres_exact_run).
Defined.

(** X14. Whenever [gmres] returns after [k] iterations, with the budget
    being [maxiter], or [len(b)] when [maxiter] is [None] or 0: [k] is at
    most the budget, the history has [k + 1] entries and starts with the
    initial relative residual, every entry but the last is above [tol],
    [info] is 0 or 1, [info = 1] only when the budget is used up with the
    last entry not below [tol], stopping before the budget means the last
    entry is within [tol] or [nan], and no iteration is made exactly when
    the initial residual is within [tol] or the budget is 0. *)
Theorem gmres_history (K : krylov_kernel) (tol : R) (maxiter : option nat)
    (N : nat) (explicit_residual : bool) (s0 : kstate K) (r0 : R)
    (st : solver_state K) :
  gmres K tol maxiter N explicit_residual s0 r0 = Ok st ->
  let budget := gmres_maxiter maxiter N in
  (ss_k st <= budget)%nat /\
  ((maxiter = None \/ maxiter = Some O) -> budget = N) /\
  length (ss_relresvec st) = S (ss_k st) /\
  hd NaN (ss_relresvec st) = Num r0 /\
  Forall (fun r => fl_gt r tol) (removelast (ss_relresvec st)) /\
  (ss_info st = 0%Z \/ ss_info st = 1%Z) /\
  (ss_info st = 1%Z ->
   ss_k st = budget /\ (0 < budget)%nat /\
   fl_ge (last_entry (ss_relresvec st)) tol) /\
  ((ss_k st < budget)%nat ->
   fl_le (last_entry (ss_relresvec st)) tol \/
   last_entry (ss_relresvec st) = NaN) /\
  (ss_k st = O <-> (r0 <= tol \/ budget = O)).
Proof.
  intros Hrun budget. unfold gmres in Hrun. fold budget in Hrun.
  destruct (solver_loop_history K tol budget
              (gmres_iteration K tol budget explicit_residual)
              (fun _ => True) (fun r => fl_ge r tol)
              (gmres_iteration_appends K tol budget explicit_residual)
              budget (Num r0) (solver_init K s0 r0) st Hrun
              eq_refl eq_refl eq_refl (Forall_nil _) (Forall_nil _) eq_refl)
    as (H1 & H2 & H3 & H4 & H5 & H6 & H7 & H8).
  cbn [solver_init ss_k ss_relresvec] in *.
  change (last_entry [Num r0]) with (Num r0) in H8. cbn [fl_gt] in H8.
  split; [lia |].
  split.
  { intros [-> | ->]; reflexivity. }
  split; [exact H2 |]. split; [exact H3 |]. split; [exact H5 |].
  split.
  { destruct H6 as [H6 | (H6 & _)]; [left | right]; exact H6. }
  split.
  { intros Hi. destruct H6 as [H6 | (_ & Hk & Hpos & Hab)];
      [rewrite H6 in Hi; discriminate |].
    split; [exact Hk |]. split; [lia | exact Hab]. }
  split.
  { intros Hlt. specialize (H7 Hlt).
    destruct (last_entry (ss_relresvec st)) as [r | |];
      [left; cbn in *; lra | exfalso; apply H7; exact I | right; reflexivity]. }
  split.
  - intros E. destruct (proj1 H8 E) as [H | H]; [left; lra | right; exact H].
  - intros [H | H]; apply H8; [left; lra | right; exact H].
Qed.

(** A system solved exactly in the first of at most three iterations. *)
Lemma gmres_history_witness :
  exists st,
    gmres kernel_exact 1e-5 (Some 3%nat) 3 false O 1 = Ok st /\
    (ss_k st <= gmres_maxiter (Some 3%nat) 3)%nat /\
    ((Some 3%nat = None \/ Some 3%nat = Some O) ->
     gmres_maxiter (Some 3%nat) 3 = 3%nat) /\
    length (ss_relresvec st) = S (ss_k st) /\
    hd NaN (ss_relresvec st) = Num 1 /\
    Forall (fun r => fl_gt r 1e-5) (removelast (ss_relresvec st)) /\
    (ss_info st = 0%Z \/ ss_info st = 1%Z) /\
    (ss_info st = 1%Z ->
     ss_k st = gmres_maxiter (Some 3%nat) 3 /\
     (0 < gmres_maxiter (Some 3%nat) 3)%nat /\
     fl_ge (last_entry (ss_relresvec st)) 1e-5) /\
    ((ss_k st < gmres_maxiter (Some 3%nat) 3)%nat ->
     fl_le (last_entry (ss_relresvec st)) 1e-5 \/
     last_entry (ss_relresvec st) = NaN) /\
    (ss_k st = O <-> (1 <= 1e-5 \/ gmres_maxiter (Some 3%nat) 3 = O)).
Proof.
  eexists. split; [exact gmres_exact_run |].
  exact (gmres_history kernel_exact 1e-5 (Some 3%nat) 3 false O 1 _
           gmres_exact_run).
Defined.

(** ** Conjugate gradients *)

(** Name the result of every step of a computation that has returned. *)
Ltac bind_inv H :=
  repeat (cbv beta zeta in H;
          match type of H with
          | bind ?m _ = Ok _ =>
              let E := fresh "E" in
              destruct m eqn:E; [rewrite bind_Ok in H | discriminate H]
          end).

Section CG.

Variable A : linop.
Variable rhs : vec.
Variable tol : R.
Variable M : option operator.
Variable explicit_residual : bool.
Variable inner_product : vec -> vec -> C.
Variable exact_solution : option vec.
Variable rho0 : R.

Local Abbreviation step :=
  (cg_step A rhs tol M explicit_residual inner_product exact_solution rho0).

(** One iteration appends one entry to the history, and that entry is
    the residual recomputed from the new iterate when it is below the
    tolerance or the residual is recomputed in every iteration. *)
Lemma cg_step_spec (st st' : cg_state) :
  step st = Ok st' ->
  cs_k st' = S (cs_k st) /\
  (exists rel,
      cs_relresvec st' = cs_relresvec st ++ [rel] /\
      (rel < tol \/ explicit_residual = true ->
       exists r Mrho,
         cg_explicit_r A rhs (cs_x st') = Ok r /\
         cg_rho M inner_product r = Ok Mrho /\
         cg_relres (snd Mrho) rho0 = Ok rel)) /\
  cg_error inner_product exact_solution (cs_x st') (cs_errorvec st)
  = Ok (cs_errorvec st').
Proof.
  intros H. unfold cg_step in H. bind_inv H.
  inversion H. subst st'. clear H. cbn [cs_k cs_relresvec cs_x cs_errorvec].
  split; [reflexivity |]. split; [| assumption].
  eexists. split; [reflexivity |].
  intros Hcert.
  destruct explicit_residual.
  - cbn [negb andb] in *.
    match goal with
    | H : Ok _ = Ok _ |- _ => inversion H; subst; clear H
    end.
    cbn [fst snd]. do 2 eexists. repeat split; eassumption.
  - cbn [negb andb] in *.
    match goal with
    | H : (if (if Rlt_dec ?a ?b then true else false) then _ else _) = Ok _ |- _ =>
        destruct (Rlt_dec a b) as [Hlt | Hge]
    end.
    + match goal with
      | H : bind _ _ = Ok _ |- _ => bind_inv H; inversion H; subst; clear H
      end.
      cbn [fst snd]. do 2 eexists. repeat split; eassumption.
    + match goal with
      | H : Ok _ = Ok _ |- _ => inversion H; subst; clear H
      end.
      cbn [fst snd] in Hcert. destruct Hcert as [Hc | Hc]; [lra | discriminate].
Qed.

Lemma cg_error_shape (x : vec) (e e' : option (list R)) (k : nat) :
  cg_error inner_product exact_solution x e = Ok e' ->
  match exact_solution, e with
  | Some _, Some l => length l = S k
  | None, None => True
  | _, _ => False
  end ->
  match exact_solution, e' with
  | Some _, Some l => length l = S (S k)
  | None, None => True
  | _, _ => False
  end.
Proof.
  unfold cg_error. intros H He.
  destruct exact_solution as [xs |].
  - destruct e as [l |]; [| contradiction].
    bind_inv H. inversion H. rewrite length_app. simpl. lia.
  - destruct e as [l |]; [contradiction |]. inversion H. exact I.
Qed.

(** The invariant of the loop of [cg]. *)
Lemma cg_loop_spec (remaining : nat) :
  forall (maxiter : nat) (x0 : vec) (st st' : cg_state),
  cg_loop step tol remaining st = Ok st' ->
  (cs_k st + remaining = maxiter)%nat ->
  length (cs_relresvec st) = S (cs_k st) ->
  hd 0 (cs_relresvec st) = 1 ->
  Forall (fun r => r > tol) (removelast (cs_relresvec st)) ->
  (cs_k st = O -> cs_x st = x0) ->
  match exact_solution, cs_errorvec st with
  | Some _, Some l => length l = S (cs_k st)
  | None, None => True
  | _, _ => False
  end ->
  (cs_k st = O \/
   (last1 (cs_relresvec st) < tol \/ explicit_residual = true ->
    exists r Mrho,
      cg_explicit_r A rhs (cs_x st) = Ok r /\
      cg_rho M inner_product r = Ok Mrho /\
      cg_relres (snd Mrho) rho0 = Ok (last1 (cs_relresvec st)))) ->
  (cs_k st <= cs_k st' <= maxiter)%nat /\
  length (cs_relresvec st') = S (cs_k st') /\
  hd 0 (cs_relresvec st') = 1 /\
  Forall (fun r => r > tol) (removelast (cs_relresvec st')) /\
  (cs_k st' = O -> cs_x st' = x0) /\
  match exact_solution, cs_errorvec st' with
  | Some _, Some l => length l = S (cs_k st')
  | None, None => True
  | _, _ => False
  end /\
  (cs_k st' = O \/
   (last1 (cs_relresvec st') < tol \/ explicit_residual = true ->
    exists r Mrho,
      cg_explicit_r A rhs (cs_x st') = Ok r /\
      cg_rho M inner_product r = Ok Mrho /\
      cg_relres (snd Mrho) rho0 = Ok (last1 (cs_relresvec st')))) /\
  ((cs_k st' < maxiter)%nat -> last1 (cs_relresvec st') <= tol) /\
  (cs_k st' = cs_k st <-> (last1 (cs_relresvec st) <= tol \/ remaining = O)).
Proof.
  induction remaining as [| rem IH];
    intros maxiter x0 st st' Hrun Hk Hlen Hhd Hab Hx Herr Hcert.
  - simpl in Hrun. inversion Hrun. subst st'.
    split; [lia |]. do 6 (split; [assumption |]).
    split; [lia |]. split; [intros _; right; reflexivity | reflexivity].
  - cbn [cg_loop] in Hrun.
    destruct (Rgt_dec (last1 (cs_relresvec st)) tol) as [Hgt | Hle].
    + destruct (step st) as [st1 |] eqn:Hstep; [| discriminate].
      rewrite bind_Ok in Hrun.
      destruct (cg_step_spec st st1 Hstep) as (Hk1 & (rel & Hrel & Hc1) & He1).
      assert (Hne : cs_relresvec st <> [])
        by (intros E; rewrite E in Hlen; discriminate).
      assert (Hk1' : (cs_k st1 + rem = maxiter)%nat) by lia.
      assert (Hlen1 : length (cs_relresvec st1) = S (cs_k st1)).
      { rewrite Hrel, length_app, Hk1. simpl. lia. }
      assert (Hhd1 : hd 0 (cs_relresvec st1) = 1).
      { rewrite Hrel. destruct (cs_relresvec st); [contradiction | exact Hhd]. }
      assert (Hab1 : Forall (fun r => r > tol) (removelast (cs_relresvec st1))).
      { rewrite Hrel, removelast_last.
        rewrite (app_removelast_last 0 Hne). apply Forall_app.
        split; [exact Hab | constructor; [exact Hgt | constructor]]. }
      assert (Hx1 : cs_k st1 = O -> cs_x st1 = x0) by (intros E; lia).
      assert (Herr1 : match exact_solution, cs_errorvec st1 with
                      | Some _, Some l => length l = S (cs_k st1)
                      | None, None => True
                      | _, _ => False
                      end).
      { rewrite Hk1. exact (cg_error_shape _ _ _ _ He1 Herr). }
      assert (Hcert1 :
                cs_k st1 = O \/
                (last1 (cs_relresvec st1) < tol \/ explicit_residual = true ->
                 exists r Mrho,
                   cg_explicit_r A rhs (cs_x st1) = Ok r /\
                   cg_rho M inner_product r = Ok Mrho /\
                   cg_relres (snd Mrho) rho0 = Ok (last1 (cs_relresvec st1)))).
      { right. rewrite Hrel, last1_snoc. exact Hc1. }
      destruct (IH maxiter x0 st1 st' Hrun Hk1' Hlen1 Hhd1 Hab1 Hx1 Herr1 Hcert1)
        as (H1 & H2 & H3 & H4 & H5 & H6 & H7 & H8 & H9).
      split; [lia |]. do 6 (split; [assumption |]).
      split; [exact H8 |]. split; [lia |].
      intros [H | H]; [lra | discriminate].
    + inversion Hrun. subst st'.
      split; [lia |]. do 6 (split; [assumption |]).
      split; [intros _; lra |]. split; [intros _; left; lra | reflexivity].
Qed.

End CG.

(** Columns of the plane with real entries. *)
Lemma vadd_real (a b c d : R) :
  vadd [RtoC a; RtoC b] [RtoC c; RtoC d] = [RtoC (a + c); RtoC (b + d)].
Proof. simpl. list_eq; Csolve. Qed.

Lemma vsub_real (a b c d : R) :
  vsub [RtoC a; RtoC b] [RtoC c; RtoC d] = [RtoC (a - c); RtoC (b - d)].
Proof. simpl. list_eq; Csolve. Qed.

Lemma vscale_real (c a b : R) :
  vscale (RtoC c) [RtoC a; RtoC b] = [RtoC (c * a); RtoC (c * b)].
Proof. simpl. list_eq; Csolve. Qed.

Lemma ipstd_real (a b c d : R) :
  _ipstd [RtoC a; RtoC b] [RtoC c; RtoC d] = RtoC (a * c + b * d).
Proof. unfold _ipstd. simpl. Csolve. Qed.

Lemma Cdiv_real_real (a b : R) :
  b <> 0 -> Cdiv (RtoC a) (RtoC b) = Ok (RtoC (a / b)).
Proof.
  intros Hb. unfold Cdiv.
  destruct (Req_dec_T (Cabs (RtoC b)) 0) as [H | _].
  - exfalso. apply Hb. apply Cabs_eq_0 in H. inversion H. reflexivity.
  - f_equal. apply C_eq; simpl; field; exact Hb.
Qed.

Lemma apply_A_cg (p q : R) :
  _apply (Some A_cg) [RtoC p; RtoC q] = Ok [RtoC (2 * p); RtoC (2 * q)].
Proof. simpl. apply f_equal. list_eq; Csolve. Qed.

Lemma cg_explicit_r_A_cg (b c x y : R) :
  cg_explicit_r A_cg [RtoC b; RtoC c] [RtoC x; RtoC y]
  = Ok [RtoC (b - 2 * x); RtoC (c - 2 * y)].
Proof.
  unfold cg_explicit_r. rewrite apply_A_cg, bind_Ok, vsub_real. reflexivity.
Qed.

Lemma cg_rho_real (a b : R) :
  cg_rho None _ipstd [RtoC a; RtoC b]
  = Ok ([RtoC a; RtoC b], a * a + b * b).
Proof.
  unfold cg_rho. cbn [option_map _apply]. rewrite bind_Ok.
  unfold _norm_squared. rewrite ipstd_real. cbn [Re Im RtoC].
  destruct (Rgt_dec (Rabs 0) (Cabs (RtoC (a * a + b * b)) * tol_imag)) as [H | _].
  - exfalso. rewrite Rabs_R0 in H.
    pose proof (Cabs_nonneg (RtoC (a * a + b * b))).
    unfold tol_imag in H. nra.
  - destruct (Rlt_dec (a * a + b * b) 0) as [H | _]; [nra |]. reflexivity.
Qed.

Lemma cg_relres_zero : cg_relres (0 * 0 + 0 * 0) 4 = Ok 0.
Proof.
  unfold cg_relres, Rdiv_checked.
  destruct (Req_dec_T 4 0) as [H | _]; [lra |].
  rewrite bind_Ok. replace ((0 * 0 + 0 * 0) / 4) with 0 by lra.
  rewrite sqrt_0. reflexivity.
Qed.

(** [cg] on [2 x = (2, 0)] from [x0 = 0]: the first step reaches the
    solution. *)
Lemma cg_example_run :
  cg A_cg [RtoC 2; RtoC 0] [RtoC 0; RtoC 0] 1e-5 None None false _ipstd None
  = Ok {| cg_xk := [RtoC 1; RtoC 0]; cg_info := 0; cg_relresvec := [1; 0];
          cg_errorvec := None |}.
Proof.
  unfold cg. rewrite cg_explicit_r_A_cg.
  replace (2 - 2 * 0) with 2 by lra. replace (0 - 2 * 0) with 0 by lra.
  rewrite bind_Ok, cg_rho_real, bind_Ok. cbv zeta. rewrite bind_Ok.
  cbn [fst snd cg_error length]. rewrite bind_Ok.
  replace (2 * 2 + 0 * 0) with 4 by lra.
  cbn [cg_loop cs_relresvec last1 last].
  destruct (Rgt_dec 1 1e-5) as [_ | H]; [| exfalso; lra].
  unfold cg_step at 1.
  cbn [cs_k Nat.ltb Nat.leb cs_p cs_rho_old cs_x cs_r cs_errorvec cs_relresvec
       negb andb].
  rewrite !bind_Ok. cbn [fst snd].
  rewrite apply_A_cg, bind_Ok, ipstd_real.
  replace (2 * 2) with 4 by lra. replace (2 * 0) with 0 by lra.
  replace (2 * 4 + 0 * 0) with 8 by lra.
  rewrite Cdiv_real_real by lra. rewrite bind_Ok.
  replace (4 / 8) with (1 / 2) by lra.
  rewrite !vscale_real, vadd_real, vsub_real.
  replace (0 + 1 / 2 * 2) with 1 by lra.
  replace (0 + 1 / 2 * 0) with 0 by lra.
  replace (2 - 1 / 2 * 4) with 0 by lra.
  replace (0 - 1 / 2 * 0) with 0 by lra.
  cbn [cg_error]. rewrite bind_Ok.
  rewrite bind_Ok, cg_rho_real, bind_Ok. cbn [snd].
  rewrite cg_relres_zero, bind_Ok.
  destruct (Rlt_dec 0 1e-5) as [_ | H]; [| exfalso; lra].
  rewrite cg_explicit_r_A_cg.
  replace (2 - 2 * 1) with 0 by lra. replace (0 - 2 * 0) with 0 by lra.
  rewrite bind_Ok, cg_rho_real, bind_Ok. cbn [snd].
  rewrite cg_relres_zero, !bind_Ok.
  cbn [fst snd cs_x cs_relresvec cs_errorvec app last1 last].
  destruct (Rgt_dec 0 1e-5) as [H | _]; [exfalso; lra |].
  rewrite bind_Ok. cbn [cs_x cs_relresvec cs_errorvec last1 last].
  destruct (Rgt_dec 0 1e-5) as [H | _]; [exfalso; lra |]. reflexivity.
Qed.

(** A returned run of [cg] as its initialisation, its loop and the final
    test of the residual. *)
Lemma cg_inv (A : linop) (rhs x0 : vec) (tol : R) (maxiter : option nat)
    (M : option operator) (explicit_residual : bool)
    (inner_product : vec -> vec -> C) (exact_solution : option vec)
    (out : cg_out) :
  cg A rhs x0 tol maxiter M explicit_residual inner_product exact_solution
  = Ok out ->
  exists r Mrho Mrho0 errorvec st,
    cg_rho M inner_product rhs = Ok Mrho0 /\
    cg_error inner_product exact_solution x0 None = Ok errorvec /\
    cg_loop (cg_step A rhs tol M explicit_residual inner_product
                     exact_solution (snd Mrho0))
            tol (match maxiter with None => length rhs | Some m => m end)
            {| cs_x := x0; cs_r := r; cs_Mr := fst Mrho; cs_p := fst Mrho;
               cs_rho_old := snd Mrho; cs_rho_new := None; cs_k := O;
               cs_relresvec := [1]; cs_errorvec := errorvec |} = Ok st /\
    out = {| cg_xk := cs_x st;
             cg_info := if Rgt_dec (last1 (cs_relresvec st)) tol
                        then 1%Z else 0%Z;
             cg_relresvec := cs_relresvec st;
             cg_errorvec := cs_errorvec st |}.
Proof.
  intros H. unfold cg in H. bind_inv H. inversion H.
  do 5 eexists. repeat split; eassumption.
Qed.

(** X15. Whenever [cg] returns: the history starts with 1, has at most
    [maxiter + 1] entries (with [maxiter = len(rhs)] by default), and all
    entries but the last are above [tol]; [info] is 1 exactly when the
    last entry is above [tol], and then the budget of iterations was used
    up, and [info] is 0 exactly when the last entry is not above [tol]
    (the test [cg] makes; on numbers, as here, the entry is then within
    [tol]); no iteration is made exactly when [tol >= 1] or [maxiter] is
    0, and then [x0] itself is returned; an error history exists exactly
    when an exact solution was given, and is as long as the residual
    history. *)
Theorem cg_history (A : linop) (rhs x0 : vec) (tol : R) (maxiter : option nat)
    (M : option operator) (explicit_residual : bool)
    (inner_product : vec -> vec -> C) (exact_solution : option vec)
    (out : cg_out) :
  cg A rhs x0 tol maxiter M explicit_residual inner_product exact_solution
  = Ok out ->
  let budget := match maxiter with None => length rhs | Some m => m end in
  (1 <= length (cg_relresvec out) <= S budget)%nat /\
  hd 0 (cg_relresvec out) = 1 /\
  Forall (fun r => r > tol) (removelast (cg_relresvec out)) /\
  (cg_info out = 1%Z <-> last1 (cg_relresvec out) > tol) /\
  (cg_info out = 0%Z <-> ~ last1 (cg_relresvec out) > tol) /\
  (cg_info out = 1%Z -> length (cg_relresvec out) = S budget) /\
  (length (cg_relresvec out) = 1%nat <-> (1 <= tol \/ budget = O)) /\
  (length (cg_relresvec out) = 1%nat -> cg_xk out = x0) /\
  match exact_solution, cg_errorvec out with
  | Some _, Some l => length l = length (cg_relresvec out)
  | None, None => True
  | _, _ => False
  end.
Proof.
  intros H budget.
  destruct (cg_inv _ _ _ _ _ _ _ _ _ _ H)
    as (r & Mrho & Mrho0 & errorvec & st & _ & Herr & Hloop & ->).
  fold budget in Hloop.
  assert (Herr0 : match exact_solution, errorvec with
                  | Some _, Some l => length l = 1%nat
                  | None, None => True
                  | _, _ => False
                  end).
  { unfold cg_error in Herr. destruct exact_solution as [xs |].
    - bind_inv Herr. inversion Herr. reflexivity.
    - inversion Herr. exact I. }
  destruct (cg_loop_spec A rhs tol M explicit_residual inner_product
              exact_solution (snd Mrho0) budget budget x0 _ st Hloop
              eq_refl eq_refl eq_refl (Forall_nil _) (fun _ => eq_refl)
              Herr0 (or_introl eq_refl))
    as (H1 & H2 & H3 & H4 & H5 & H6 & _ & H8 & H9).
  cbn [cs_k cs_relresvec cg_relresvec cg_info cg_xk cg_errorvec] in *.
  change (last1 [1]) with 1 in H9.
  rewrite H2.
  split; [lia |]. split; [exact H3 |]. split; [exact H4 |].
  assert (Hinfo0 : (if Rgt_dec (last1 (cs_relresvec st)) tol then 1%Z else 0%Z)
                   = 0%Z <-> ~ last1 (cs_relresvec st) > tol).
  { destruct (Rgt_dec (last1 (cs_relresvec st)) tol) as [Hgt | Hle];
      split; intros E; try discriminate; try contradiction;
      try reflexivity; assumption. }
  assert (Hinfo1 : (if Rgt_dec (last1 (cs_relresvec st)) tol then 1%Z else 0%Z)
                   = 1%Z <-> last1 (cs_relresvec st) > tol).
  { destruct (Rgt_dec (last1 (cs_relresvec st)) tol) as [Hgt | Hle];
      split; intros E; try discriminate; try lra; try reflexivity; assumption. }
  split; [exact Hinfo1 |]. split; [exact Hinfo0 |].
  split.
  { intros E. apply Hinfo1 in E.
    destruct (Nat.lt_ge_cases (cs_k st) budget) as [Hlt | Hge]; [| lia].
    apply H8 in Hlt. lra. }
  split.
  { split.
    - intros E. apply H9. lia.
    - intros E. apply H9 in E. lia. }
  split.
  { intros E. apply H5. lia. }
  destruct exact_solution, (cs_errorvec st); try assumption.
Qed.

(** The system [2 x = (2, 0)] from [x0 = 0]. *)
Lemma cg_history_witness :
  exists out,
    cg A_cg [RtoC 2; RtoC 0] [RtoC 0; RtoC 0] 1e-5 None None false _ipstd None = Ok out /\
    (1 <= length (cg_relresvec out) <= S (length [RtoC 2; RtoC 0]))%nat /\
    hd 0 (cg_relresvec out) = 1 /\
    Forall (fun r => r > 1e-5) (removelast (cg_relresvec out)) /\
    (cg_info out = 1%Z <-> last1 (cg_relresvec out) > 1e-5) /\
    (cg_info out = 0%Z <-> ~ last1 (cg_relresvec out) > 1e-5) /\
    (cg_info out = 1%Z -> length (cg_relresvec out) = S (length [RtoC 2; RtoC 0])) /\
    (length (cg_relresvec out) = 1%nat <-> (1 <= 1e-5 \/ length [RtoC 2; RtoC 0] = O)) /\
    (length (cg_relresvec out) = 1%nat -> cg_xk out = [RtoC 0; RtoC 0]) /\
    match @None vec, cg_errorvec out with
    | Some _, Some l => length l = length (cg_relresvec out)
    | None, None => True
    | _, _ => False
    end.
Proof.
  eexists. split; [exact cg_example_run |].
  exact (cg_history A_cg [RtoC 2; RtoC 0] [RtoC 0; RtoC 0] 1e-5 None None false _ipstd None _
           cg_example_run).
Defined.

(** X16. Whenever [cg] returns after at least one iteration with a last
    entry below [tol], or with [explicit_residual] set, that last entry is
    the relative residual [sqrt(||rhs - A xk||^2 / ||rhs||^2)] recomputed
    from the returned iterate [xk]. *)
Theorem cg_final_residual (A : linop) (rhs x0 : vec) (tol : R)
    (maxiter : option nat) (M : option operator) (explicit_residual : bool)
    (inner_product : vec -> vec -> C) (exact_solution : option vec)
    (out : cg_out) :
  cg A rhs x0 tol maxiter M explicit_residual inner_product exact_solution
  = Ok out ->
  (2 <= length (cg_relresvec out))%nat ->
  last1 (cg_relresvec out) < tol \/ explicit_residual = true ->
  cg_recomputed A rhs M inner_product (cg_xk out)
  = Ok (last1 (cg_relresvec out)).
Proof.
  intros H Hlen Hcond.
  destruct (cg_inv _ _ _ _ _ _ _ _ _ _ H)
    as (r & Mrho & Mrho0 & errorvec & st & Hrho0 & Herr & Hloop & ->).
  assert (Herr0 : match exact_solution, errorvec with
                  | Some _, Some l => length l = 1%nat
                  | None, None => True
                  | _, _ => False
                  end).
  { unfold cg_error in Herr. destruct exact_solution as [xs |].
    - bind_inv Herr. inversion Herr. reflexivity.
    - inversion Herr. exact I. }
  destruct (cg_loop_spec A rhs tol M explicit_residual inner_product
              exact_solution (snd Mrho0) _ _ x0 _ st Hloop
              eq_refl eq_refl eq_refl (Forall_nil _) (fun _ => eq_refl)
              Herr0 (or_introl eq_refl))
    as (_ & H2 & _ & _ & _ & _ & H7 & _ & _).
  cbn [cg_relresvec cg_xk] in *.
  destruct H7 as [H7 | H7]; [lia |].
  destruct (H7 Hcond) as (r' & Mrho' & Hr' & HM' & Hrel).
  unfold cg_recomputed. rewrite Hr', bind_Ok, HM', bind_Ok, Hrho0, bind_Ok.
  exact Hrel.
Qed.

(** The system [2 x = (2, 0)] from [x0 = 0]. *)
Lemma cg_final_residual_witness :
  exists out,
    cg A_cg [RtoC 2; RtoC 0] [RtoC 0; RtoC 0] 1e-5 None None false _ipstd None = Ok out /\
    (2 <= length (cg_relresvec out))%nat /\
    (last1 (cg_relresvec out) < 1e-5 \/ false = true) /\
    cg_recomputed A_cg [RtoC 2; RtoC 0] None _ipstd (cg_xk out)
    = Ok (last1 (cg_relresvec out)).
Proof.
  assert (Hlen : (2 <= length [1; 0])%nat) by (simpl; lia).
  assert (Hlast : last1 [1; 0] < 1e-5 \/ false = true)
    by (left; unfold last1; simpl; lra).
  eexists. split; [exact cg_example_run |].
  split; [exact Hlen |]. split; [exact Hlast |].
  exact (cg_final_residual A_cg [RtoC 2; RtoC 0] [RtoC 0; RtoC 0] 1e-5 None None false _ipstd
           None _ cg_example_run Hlen Hlast).
Defined.
